(** * nif-blender: import/export helpers of the Blender NIF scripts

  A shallow embedding of the parts of

    - [nif_common.py]                     (class [NifCommon]),
    - [nif_import.py]                     ([NifImport.import_mesh]),
    - [animationsys/animation_export.py]  ([AnimationHelper], [TextureAnimation]),
    - [armaturesys/armature_import.py]    (class [Armature])

  that the specification talks about, followed by the statements proved
  about them.  Definitions come first (one module per source file), the
  theorems follow in a second part. *)

From Stdlib Require Import ZArith QArith String Ascii List Bool Lia.
From Stdlib Require Import Floats.PrimFloat Floats.FloatOps Floats.SpecFloat.
From Stdlib Require Reals.
From Stdlib Require Import Lra Psatz.
From stdpp Require Import gmap list.

(* Decimal literals stand for the nearest binary64 number, as in Python. *)
Set Warnings "-inexact-float".

(* ===================================================================== *)
(** * Part I: the program *)
(* ===================================================================== *)

(** ** Python built-ins used by the scripts *)

Module Py.

(** [s.startswith(p)] *)
Definition startswith (s p : string) : bool := String.prefix p s.

(** [s.endswith(p)] *)
Definition endswith (s p : string) : bool :=
  let n := String.length s in
  let m := String.length p in
  (m <=? n)%nat && String.eqb (String.substring (n - m) m s) p.

(** [s[a:]] for a literal [a >= 0] *)
Definition slice_from (a : nat) (s : string) : string :=
  String.substring a (String.length s - a) s.

(** [s[a:-b]] for literals [a >= 0], [b > 0] *)
Definition slice_between (a b : nat) (s : string) : string :=
  String.substring a (String.length s - b - a) s.

(** [s.replace(old, new)] for a non-empty [old]: every non-overlapping
    occurrence, left to right.  [skip] counts the characters of an
    occurrence that are still to be dropped. *)
Fixpoint replace_from (old new : string) (skip : nat) (s : string) : string :=
  match s with
  | EmptyString => EmptyString
  | String c s' =>
      match skip with
      | S k => replace_from old new k s'
      | O =>
          if String.prefix old s
          then String.append new (replace_from old new (String.length old - 1) s')
          else String c (replace_from old new 0 s')
      end
  end.

Definition replace (s old new : string) : string := replace_from old new 0 s.

(** Python [float]s are binary64 numbers.  [float_of_Z] is the conversion
    of an [int] that meets a [float] in an arithmetic operation (exact
    below [2^53]; the model covers magnitudes below [2^63]). *)
Definition float_of_Z (z : Z) : float :=
  if (z <? 0)%Z then PrimFloat.opp (PrimFloat.of_uint63 (Uint63Axioms.of_Z (- z)))
  else PrimFloat.of_uint63 (Uint63Axioms.of_Z z).

(** [int(x)] of a float: the integer part, rounded towards zero;
    [None] for an infinity ([OverflowError]) or a NaN ([ValueError]). *)
Definition int_of_float (f : float) : option Z :=
  match Prim2SF f with
  | S754_zero _ => Some 0%Z
  | S754_finite s m e =>
      let magnitude :=
        if (0 <=? e)%Z then (Z.pos m * 2 ^ e)%Z
        else (Z.pos m / 2 ^ (- e))%Z in
      Some (if s then (- magnitude)%Z else magnitude)
  | S754_infinity _ => None
  | S754_nan => None
  end.

(** *** Integers and text *)

(** The digit characters of [hex] and [str]: [0-9] and [a-f]. *)
Definition digit_char (d : Z) : ascii :=
  ascii_of_nat (Z.to_nat (if (d <? 10)%Z then 48 + d else 87 + d)).

(** The value of a character as a digit of [int]: [0-9], then the
    letters in either case for [10] to [35]. *)
Definition digit_value (c : ascii) : option Z :=
  let n := Z.of_nat (nat_of_ascii c) in
  if (48 <=? n)%Z && (n <=? 57)%Z then Some (n - 48)%Z
  else if (97 <=? n)%Z && (n <=? 122)%Z then Some (n - 87)%Z
  else if (65 <=? n)%Z && (n <=? 90)%Z then Some (n - 55)%Z
  else None.

(** The digits of [n >= 0] in [base], most significant first, without
    leading zeros; [fuel] bounds the number of digits. *)
Fixpoint to_digits (fuel : nat) (base n : Z) : string :=
  match fuel with
  | O => EmptyString
  | S fuel' =>
      if (n <? base)%Z then String (digit_char n) EmptyString
      else String.append (to_digits fuel' base (n / base))
                         (String (digit_char (n mod base)) EmptyString)
  end.

Definition digits (base n : Z) : string :=
  to_digits (S (Z.to_nat (Z.log2 n))) base n.

(** [hex(n)] *)
Definition hex (n : Z) : string :=
  if (n <? 0)%Z then String.append "-0x" (digits 16 (- n))
  else String.append "0x" (digits 16 n).

(** [str(n)] *)
Definition str (n : Z) : string :=
  if (n <? 0)%Z then String.append "-" (digits 10 (- n)) else digits 10 n.

(** [c * n] for a one-character string [c] *)
Fixpoint repeat_char (c : ascii) (n : nat) : string :=
  match n with
  | O => EmptyString
  | S n' => String c (repeat_char c n')
  end.

(** [s.zfill(width)]: zeros on the left up to [width] characters, after
    the sign when [s] starts with one. *)
Definition zfill (width : nat) (s : string) : string :=
  let zeros := repeat_char "0" (width - String.length s) in
  match s with
  | String c s' =>
      if Ascii.eqb c "+" || Ascii.eqb c "-" then String c (String.append zeros s')
      else String.append zeros s
  | EmptyString => zeros
  end.

(** [s[:b]] for a literal [b >= 0]; ['{0:.2}'.format(s)] is [s[:2]]. *)
Definition slice_to (b : nat) (s : string) : string := String.substring 0 b s.

(** White space as [int] and [str.strip()] see it, within ASCII. *)
Definition is_space (c : ascii) : bool :=
  let n := nat_of_ascii c in
  (n =? 32)%nat || ((9 <=? n)%nat && (n <=? 13)%nat) || ((28 <=? n)%nat && (n <=? 31)%nat).

Fixpoint lstrip (p : ascii -> bool) (s : string) : string :=
  match s with
  | String c s' => if p c then lstrip p s' else s
  | EmptyString => EmptyString
  end.

Fixpoint rstrip (p : ascii -> bool) (s : string) : string :=
  match s with
  | String c s' =>
      match rstrip p s' with
      | EmptyString => if p c then EmptyString else String c EmptyString
      | r => String c r
      end
  | EmptyString => EmptyString
  end.

(** [s.strip(' ')] is [strip (Ascii.eqb " ") s]. *)
Definition strip (p : ascii -> bool) (s : string) : string := rstrip p (lstrip p s).

(** The digits of an [int] literal in [base]: single underscores may
    stand between digits. *)
Fixpoint int_digits (base acc : Z) (after_digit : bool) (s : string) : option Z :=
  match s with
  | EmptyString => if after_digit then Some acc else None
  | String c s' =>
      if Ascii.eqb c "_" then
        if after_digit then int_digits base acc false s' else None
      else
        match digit_value c with
        | Some d =>
            if (d <? base)%Z then int_digits base (acc * base + d) true s' else None
        | None => None
        end
  end.

(** The literal without its sign: a prefix [0x], [0o] or [0b] is read
    when [base] is the base it announces or [0]; one underscore may follow
    it.  In base [0] a number without prefix is decimal and has no
    leading zero unless it is zero. *)
Definition int_unsigned (base : Z) (s : string) : option Z :=
  let after_prefix b rest :=
    int_digits b 0 false
      match rest with
      | String c r => if Ascii.eqb c "_" then r else rest
      | EmptyString => rest
      end in
  match s with
  | String z (String c rest) =>
      if negb (Ascii.eqb z "0") then int_digits (if (base =? 0)%Z then 10 else base) 0 false s
      else if (Ascii.eqb c "x" || Ascii.eqb c "X") && ((base =? 0)%Z || (base =? 16)%Z)
      then after_prefix 16%Z rest
      else if (Ascii.eqb c "o" || Ascii.eqb c "O") && ((base =? 0)%Z || (base =? 8)%Z)
      then after_prefix 8%Z rest
      else if (Ascii.eqb c "b" || Ascii.eqb c "B") && ((base =? 0)%Z || (base =? 2)%Z)
      then after_prefix 2%Z rest
      else if (base =? 0)%Z then
        match int_digits 10 0 false s with
        | Some 0%Z => Some 0%Z
        | _ => None
        end
      else int_digits base 0 false s
  | _ => int_digits (if (base =? 0)%Z then 10 else base) 0 false s
  end.

(** [int(s, base)] for [base] 0 or 2 to 36, on ASCII text: [None] stands
    for [ValueError]. *)
Definition int (s : string) (base : Z) : option Z :=
  match strip is_space s with
  | String c r =>
      if Ascii.eqb c "-" then Z.opp <$> int_unsigned base r
      else if Ascii.eqb c "+" then int_unsigned base r
      else int_unsigned base (String c r)
  | EmptyString => None
  end.

(** [\w] of [re] within ASCII: letters, digits and the underscore.  The
    texts handled here are ASCII; a character beyond is taken as part of
    a word. *)
Definition is_word (c : ascii) : bool :=
  let n := nat_of_ascii c in
  ((48 <=? n)%nat && (n <=? 57)%nat) || ((65 <=? n)%nat && (n <=? 90)%nat)
  || ((97 <=? n)%nat && (n <=? 122)%nat) || (n =? 95)%nat || (128 <=? n)%nat.

(** [re.compile(r'\W+').split(s)]: the pieces between the runs of
    characters that are not word characters. *)
Fixpoint split_nonword (s : string) : list string :=
  match s with
  | EmptyString => [EmptyString]
  | String c s' =>
      if is_word c then
        match split_nonword s' with
        | w :: ws => String c w :: ws
        | [] => [String c EmptyString]
        end
      else
        match s' with
        | String c' _ => if is_word c' then EmptyString :: split_nonword s' else split_nonword s'
        | EmptyString => [EmptyString; EmptyString]
        end
  end.

(** [s.split(sep)] for a one-character [sep] *)
Fixpoint split (sep : ascii) (s : string) : list string :=
  match s with
  | EmptyString => [EmptyString]
  | String c s' =>
      if Ascii.eqb c sep then EmptyString :: split sep s'
      else
        match split sep s' with
        | w :: ws => String c w :: ws
        | [] => [String c EmptyString]
        end
  end.

(** [s.upper()] on ASCII text *)
Definition upper_char (c : ascii) : ascii :=
  let n := nat_of_ascii c in
  if (97 <=? n)%nat && (n <=? 122)%nat then ascii_of_nat (n - 32) else c.

Fixpoint upper (s : string) : string :=
  match s with
  | EmptyString => EmptyString
  | String c s' => String (upper_char c) (upper s')
  end.

(** [s.translate(str.maketrans(symbols, c * len(symbols)))] *)
Fixpoint translate (symbols : string) (c : ascii) (s : string) : string :=
  match s with
  | EmptyString => EmptyString
  | String a s' =>
      String (if existsb (Ascii.eqb a) (list_ascii_of_string symbols) then c else a)
             (translate symbols c s')
  end.

(** The [width] low digits of [n] in [base], most significant first:
    what [zfill(width)] makes of the digits of a number below
    [base ^ width]. *)
Fixpoint fixed_digits (base : Z) (width : nat) (n : Z) : string :=
  match width with
  | O => EmptyString
  | S w => String (digit_char (n / base ^ Z.of_nat w mod base)) (fixed_digits base w n)
  end.

(** A word: one character at least, word characters only. *)
Fixpoint word_chars (s : string) : bool :=
  match s with
  | EmptyString => true
  | String c s' => is_word c && word_chars s'
  end.

Definition is_word_string (s : string) : bool :=
  match s with
  | EmptyString => false
  | String _ _ => word_chars s
  end.

(** [s[:b]] for an integer [b] of either sign: a negative [b] counts
    from the end. *)
Definition slice_upto (b : Z) (s : string) : string :=
  if (b <? 0)%Z then String.substring 0 (Z.to_nat (Z.of_nat (String.length s) + b)) s
  else String.substring 0 (Z.to_nat b) s.

(** [range(a, b)] *)
Definition range (a b : Z) : list Z :=
  map (fun i => (a + Z.of_nat i)%Z) (seq 0 (Z.to_nat (b - a))).

End Py.

(** ** [nif_common.py] *)

Module NifCommon.

Local Open Scope string_scope.

(** [VERTEX_RESOLUTION = 1000], [NORMAL_RESOLUTION = 100] *)
Definition VERTEX_RESOLUTION : Z := 1000.
Definition NORMAL_RESOLUTION : Z := 100.

(** Messages sent to [operator.report]; [warning] reports at level
    ['WARNING'] and lets the caller carry on. *)
Inductive report_level := DEBUG | INFO | WARNING | ERROR.
Definition report : Type := (report_level * string)%type.

Definition warning (message : string) : list report := [(WARNING, message)].

(** *** Bone names *)

(** [get_bone_name_for_blender], on a [str] argument (a [bytes] argument
    is decoded first and then takes the same path). *)
Definition get_bone_name_for_blender (name : string) : string :=
  if Py.startswith name "Bip01 L " then
    "Bip01 " ++ Py.slice_from 8 name ++ ".L"
  else if Py.startswith name "Bip01 R " then
    "Bip01 " ++ Py.slice_from 8 name ++ ".R"
  else if Py.startswith name "NPC L " && Py.endswith name "]" then
    let name := Py.replace name "NPC L" "NPC" in
    let name := Py.replace name "[L" "[" in
    let name := Py.replace name "]" "].L" in
    name
  else if Py.startswith name "NPC R " && Py.endswith name "]" then
    let name := Py.replace name "NPC R" "NPC" in
    let name := Py.replace name "[R" "[" in
    let name := Py.replace name "]" "].R" in
    name
  else name.

(** [get_bone_name_for_nif].  The [NPC] tests hang off the outer
    [if name.startswith("Bip01 ")]: a [Bip01] name without a side suffix
    falls through to the final [return name]. *)
Definition get_bone_name_for_nif (name : string) : string :=
  if Py.startswith name "Bip01 " then
    if Py.endswith name ".L" then
      "Bip01 L " ++ Py.slice_between 6 2 name
    else if Py.endswith name ".R" then
      "Bip01 R " ++ Py.slice_between 6 2 name
    else name
  else if Py.startswith name "NPC " && Py.endswith name "].L" then
    let name := Py.replace name "NPC " "NPC L" in
    let name := Py.replace name "[" "[L" in
    let name := Py.replace name "].L" "]" in
    name
  else if Py.startswith name "NPC " && Py.endswith name "].R" then
    let name := Py.replace name "NPC " "NPC R" in
    let name := Py.replace name "[" "[R" in
    let name := Py.replace name "].R" "]" in
    name
  else name.

(** *** Cycle mode of a controller *)

(** What the function needs of a Blender F-curve: its modifier stack. *)
Record FCurve := { modifiers : list string }.

(** [b_fcurve.modifiers.new('CYCLES')] *)
Definition modifiers_new (kind : string) (c : FCurve) : FCurve :=
  {| modifiers := modifiers c ++ [kind] |}.

(** The function returns the curve in two branches and the value of
    [bpy.types.FCurve.extrapolation("CONSTANT")] in the third. *)
Inductive extend_value :=
| Curve (c : FCurve)
| Extrapolation (mode : string).

(** [get_extend_from_flags]: the returned value and the reports made.
    In Python [&] binds tighter than [==]: the tests read
    [(flags & 6) == 4] and [(flags & 6) == 0]. *)
Definition get_extend_from_flags (b_fcurve : FCurve) (flags : Z)
  : extend_value * list report :=
  if (Z.land flags 6 =? 4)%Z then
    (Curve b_fcurve, [])
  else if (Z.land flags 6 =? 0)%Z then
    (Curve (modifiers_new "CYCLES" b_fcurve), [])
  else
    (Extrapolation "CONSTANT",
     warning "Unsupported cycle mode in nif, using clamped.").

(** The cycle mode a returned value stands for: a curve repeats when it
    carries a ['CYCLES'] modifier and is clamped (constant extrapolation)
    otherwise. *)
Inductive cycle_mode := Clamp | Repeat.

(** A freshly created curve: no modifier yet. *)
Definition plain_curve : FCurve := {| modifiers := [] |}.

Definition has_cycles (c : FCurve) : bool :=
  existsb (String.eqb "CYCLES") (modifiers c).

Definition cycle_mode_of (v : extend_value) : cycle_mode :=
  match v with
  | Curve c => if has_cycles c then Repeat else Clamp
  | Extrapolation _ => Clamp
  end.

(** The mapping as the specification words it, on the flag value itself:
    bit [0b100] set gives [Clamp], the value [0b000] gives [Repeat], any
    other value gives [Clamp] together with a warning. *)
Definition extend_mapping_as_specified (b_fcurve : FCurve) (flags : Z) : Prop :=
  let '(v, reports) := get_extend_from_flags b_fcurve flags in
  (Z.testbit flags 2 = true -> cycle_mode_of v = Clamp /\ reports = []) /\
  (flags = 0%Z -> cycle_mode_of v = Repeat /\ reports = []) /\
  (Z.testbit flags 2 = false -> flags <> 0%Z ->
   cycle_mode_of v = Clamp /\ reports <> []).

(** *** Bone names without special characters *)

(** A text is free of the characters [N], [[] and []], which the
    replacements of the [NPC] names look for. *)
Definition plain (s : string) : Prop :=
  forall c, In c (list_ascii_of_string s) -> c <> "N"%char /\ c <> "["%char /\ c <> "]"%char.

(** *** Version numbers *)

Inductive exn :=
| ValueError.

Definition raising {A} (e : exn) (r : option A) : exn + A :=
  match r with
  | Some a => inr a
  | None => inl e
  end.

(** [int('0x{0:.2}'.format(digits), 0)]: the number written by the first
    two characters of [digits]. *)
Definition hex_pair (digits : string) : exn + Z :=
  raising ValueError (Py.int ("0x" ++ Py.slice_to 2 digits) 0).

(** [hex_to_dec]: the four parts of [hex(nif_ver_hex)[2:].zfill(8)], two
    characters each, as decimal numbers joined by dots. *)
Definition hex_to_dec (nif_ver_hex : Z) : exn + string :=
  let padded := Py.zfill 8 (Py.slice_from 2 (Py.hex nif_ver_hex)) in
  match hex_pair padded,
        hex_pair (Py.slice_from 2 padded),
        hex_pair (Py.slice_from 4 padded),
        hex_pair (Py.slice_from 6 padded) with
  | inr n1, inr n2, inr n3, inr n4 =>
      inr (Py.str n1 ++ "." ++ Py.str n2 ++ "." ++ Py.str n3 ++ "." ++ Py.str n4)
  | inl e, _, _, _ => inl e
  | _, inl e, _, _ => inl e
  | _, _, inl e, _ => inl e
  | _, _, _, inl e => inl e
  end.

(** [hex(int(part, 10))[2:].zfill(2)] *)
Definition hex_part (part : string) : exn + string :=
  match Py.int part 10 with
  | Some n => inr (Py.zfill 2 (Py.slice_from 2 (Py.hex n)))
  | None => inl ValueError
  end.

(** [dec_to_hex]: the text is cut at the runs of non-word characters and
    must give four parts (the tuple assignment raises [ValueError]
    otherwise); their hexadecimal forms, two digits at least, are joined
    and read as one number. *)
Definition dec_to_hex (nif_ver_dec : string) : exn + Z :=
  match Py.split_nonword nif_ver_dec with
  | [nif_ver_dec_1; nif_ver_dec_2; nif_ver_dec_3; nif_ver_dec_4] =>
      match hex_part nif_ver_dec_1, hex_part nif_ver_dec_2,
            hex_part nif_ver_dec_3, hex_part nif_ver_dec_4 with
      | inr h1, inr h2, inr h3, inr h4 =>
          raising ValueError (Py.int (h1 ++ h2 ++ h3 ++ h4) 16)
      | inl e, _, _, _ => inl e
      | _, inl e, _, _ => inl e
      | _, _, inl e, _ => inl e
      | _, _, _, inl e => inl e
      end
  | _ => inl ValueError
  end.

(** *** Game names *)

(** The characters of [symbols]: colon, comma, apostrophe, double quote,
    blank, plus, minus, star, exclamation and question mark, semicolon,
    dot, slash and the equals sign. *)
Definition symbols : string :=
  ":,'" ++ String (ascii_of_nat 34) " +-*!?;./=".

(** [get_game_to_trans] *)
Definition get_game_to_trans (gname : string) : string :=
  Py.replace (Py.translate symbols "_" (Py.upper gname)) "__" "_".

(** *** Havok materials *)

Module Havok.

Inductive exn :=
| IndexError
| ValueError
| UnboundLocalError.

(** [l[i]], a negative [i] counting from the end. *)
Definition item {A} (l : list A) (i : Z) : exn + A :=
  let j := if (i <? 0)%Z then (i + Z.of_nat (length l))%Z else i in
  if (j <? 0)%Z then inl IndexError
  else match l !! Z.to_nat j with
       | Some a => inr a
       | None => inl IndexError
       end.

(** [l.index(x)]: the first place of [x]. *)
Fixpoint index (x : string) (l : list string) : exn + nat :=
  match l with
  | [] => inl ValueError
  | y :: l' =>
      if String.eqb y x then inr 0%nat
      else match index x l' with
           | inl e => inl e
           | inr n => inr (S n)
           end
  end.

(** [Nif_Version] of [NifCommon]: the number [0] of the class, or the
    text [import_root] stores. *)
Inductive version :=
| Number (n : Z)
| Text (s : string).

(** [v == s] for a text [s], and [v != 0]. *)
Definition version_is (v : version) (s : string) : bool :=
  match v with
  | Text t => String.eqb t s
  | Number _ => false
  end.

Definition version_not_zero (v : version) : bool :=
  match v with
  | Text _ => true
  | Number n => negb (n =? 0)%Z
  end.

Record Common := {
  Nif_Version : version;
  Nif_User_Version : Z;
  Nif_User_Version_2 : Z
}.

(** [b_obj.niftools] *)
Record niftools := {
  nif_version : string;
  user_version : Z;
  user_version_2 : Z
}.

(** [b_obj.nifcollision], the fields read and written here; an
    assignment to a field stores the text. *)
Record nifcollision := {
  skyrim_havok_material : string;
  fallout3_havok_material : string;
  oblivion_havok_material : string;
  skyrim_layer : string;
  fallout3_layer : string;
  oblivion_layer : string
}.

(** An enumeration of [NifFormat]. *)
Record enum := { enumkeys : list string; enumvalues : list Z }.

Section Materials.

Variables SkyrimHavokMaterial Fallout3HavokMaterial OblivionHavokMaterial : enum.

Definition get_havok_material (self : Common) (material_item : Z)
           (collision_item : nifcollision) : exn + nifcollision :=
  if version_is (Nif_Version self) "20.2.0.7" then
    if (Nif_User_Version self =? 12)%Z && (Nif_User_Version_2 self =? 83)%Z then
      match item (enumkeys SkyrimHavokMaterial) material_item with
      | inl e => inl e
      | inr nif_havok_material =>
          inr {| skyrim_havok_material := nif_havok_material;
                 fallout3_havok_material := fallout3_havok_material collision_item;
                 oblivion_havok_material := oblivion_havok_material collision_item;
                 skyrim_layer := skyrim_layer collision_item;
                 fallout3_layer := fallout3_layer collision_item;
                 oblivion_layer := oblivion_layer collision_item |}
      end
    else if (Nif_User_Version self =? 11)%Z && (Nif_User_Version_2 self =? 34)%Z then
      match item (enumkeys Fallout3HavokMaterial) material_item with
      | inl e => inl e
      | inr nif_havok_material =>
          inr {| skyrim_havok_material := skyrim_havok_material collision_item;
                 fallout3_havok_material := nif_havok_material;
                 oblivion_havok_material := oblivion_havok_material collision_item;
                 skyrim_layer := skyrim_layer collision_item;
                 fallout3_layer := fallout3_layer collision_item;
                 oblivion_layer := oblivion_layer collision_item |}
      end
    else inr collision_item
  else if version_not_zero (Nif_Version self) then
    match item (enumkeys OblivionHavokMaterial) material_item with
    | inl e => inl e
    | inr nif_havok_material =>
        inr {| skyrim_havok_material := skyrim_havok_material collision_item;
               fallout3_havok_material := fallout3_havok_material collision_item;
               oblivion_havok_material := nif_havok_material;
               skyrim_layer := skyrim_layer collision_item;
               fallout3_layer := fallout3_layer collision_item;
               oblivion_layer := oblivion_layer collision_item |}
    end
  else inr collision_item.

(** The value of the material named [key], and the layer beside it. *)
Definition material_of (e : enum) (key layer : string) : exn + (Z * string) :=
  match index key (enumkeys e) with
  | inl e => inl e
  | inr nif_havok_material_index =>
      match item (enumvalues e) (Z.of_nat nif_havok_material_index) with
      | inl e => inl e
      | inr nif_havok_material => inr (nif_havok_material, layer)
      end
  end.

(** The names [nif_havok_material] and [nif_havok_col_layer] are bound
    in the three branches only. *)
Definition set_havok_material (niftools_item : niftools) (collision_item : nifcollision)
  : exn + (Z * string) :=
  if String.eqb (nif_version niftools_item) "20.2.0.7" then
    if (user_version niftools_item =? 12)%Z && (user_version_2 niftools_item =? 83)%Z then
      material_of SkyrimHavokMaterial (skyrim_havok_material collision_item)
        (skyrim_layer collision_item)
    else if (user_version niftools_item =? 11)%Z && (user_version_2 niftools_item =? 34)%Z then
      material_of Fallout3HavokMaterial (fallout3_havok_material collision_item)
        (fallout3_layer collision_item)
    else inl UnboundLocalError
  else if negb (String.eqb (nif_version niftools_item) "") then
    material_of OblivionHavokMaterial (oblivion_havok_material collision_item)
      (oblivion_layer collision_item)
  else inl UnboundLocalError.

End Materials.

(** An enumeration names each value once. *)
Definition well_formed (e : enum) : Prop :=
  NoDup (enumkeys e) /\ length (enumvalues e) = length (enumkeys e).

(** [import_root] and [import_version_set] store the same version. *)
Definition same_version (self : Common) (niftools_item : niftools) : Prop :=
  Nif_Version self = Text (nif_version niftools_item) /\
  Nif_User_Version self = user_version niftools_item /\
  Nif_User_Version_2 self = user_version_2 niftools_item.

(** Sample data. *)
Definition sample_materials : enum :=
  {| enumkeys := ["MAT_WOOD"; "MAT_STONE"]; enumvalues := [10; 20]%Z |}.
Definition skyrim : Common :=
  {| Nif_Version := Text "20.2.0.7"; Nif_User_Version := 12; Nif_User_Version_2 := 83 |}.
Definition skyrim_object : niftools :=
  {| nif_version := "20.2.0.7"; user_version := 12; user_version_2 := 83 |}.
Definition unknown_object : niftools :=
  {| nif_version := "20.2.0.7"; user_version := 0; user_version_2 := 0 |}.
Definition no_collision : nifcollision :=
  {| skyrim_havok_material := ""; fallout3_havok_material := "";
     oblivion_havok_material := ""; skyrim_layer := "STATIC";
     fallout3_layer := ""; oblivion_layer := "" |}.

End Havok.

End NifCommon.

(** ** [animationsys/animation_export.py] *)

Module AnimationExport.

Local Open Scope string_scope.

Record Vector3 := { x3 : float; y3 : float; z3 : float }.
Record Quaternion := { qw : float; qx : float; qy : float; qz : float }.

(** [context.scene]: frame range and [render.fps]. *)
Record Scene := { frame_start : Z; frame_end : Z; fps : Z }.

(** Exceptions that end an export. *)
Inductive exn :=
| NifError (message : string)
| AttributeError (message : string)
| NameError (message : string)
| UnboundLocalError (message : string)
| AssertionError.

(** *** [AnimationHelper.export_keyframes] *)

(** A sample of the rotation curve is a [mathutils.Euler] or a
    [mathutils.Quaternion]. *)
Inductive rotation :=
| Euler (x y z : float)
| Quat (q : Quaternion).

(** [scale_curve], [rot_curve], [trans_curve] are dictionaries from frame
    to value; a dictionary keeps its keys in insertion order. *)
Definition curve (A : Type) : Type := list (float * A).

Definition curve_get {A} (frame : float) (c : curve A) : option A :=
  snd <$> List.find (fun fv => PrimFloat.eqb (fst fv) frame) c.

(** [sorted(curve.keys())] *)
Fixpoint insert_sorted (f : float) (l : list float) : list float :=
  match l with
  | [] => [f]
  | g :: l' => if PrimFloat.leb f g then f :: l else g :: insert_sorted f l'
  end.

Definition sorted_frames {A} (c : curve A) : list float :=
  fold_right insert_sorted [] (map fst c).

(** The key arrays of a [NiKeyframeData] / [NiTransformData] block. *)
Inductive key_type := LINEAR | XYZ_ROTATION.

Record KeyframeData := {
  block_type : string;
  rotation_type : key_type;
  num_rotation_keys : nat;
  xyz_rotations : list (float * float) * list (float * float) * list (float * float);
  quaternion_keys : list (float * Quaternion);
  translations : list (float * Vector3);
  scales : list (float * float)
}.

(** [NiTransformInterpolator]: the default pose and the optional data. *)
Record Interpolator := {
  translation : Vector3;
  rotation_ : Quaternion;
  scale : float;
  kfi_data : option KeyframeData
}.

(** The controller: what [export_keyframes] assigns to it, [None] for
    what it has not assigned. *)
Record Controller := {
  controller_type : string;
  kfc_flags : option Z;
  kfc_frequency : option float;
  kfc_phase : option float;
  kfc_start_time : option float;
  kfc_stop_time : option float;
  kfc_data : option KeyframeData
}.

Definition supports_interpolators (version : Z) : bool := (0x0A020000 <=? version)%Z.

(** What a call leaves behind: the controller and the interpolator
    (versions from 10.2.0.0 on have one), once they are created, and the
    types of the blocks created by [create_block], in creation order. *)
Record Exported := {
  kfc : option Controller;
  kfi : option Interpolator;
  created : list string
}.

(** A frame number: an [int] of the scene or a [float] of a curve. *)
Inductive number :=
| Int (n : Z)
| Float (f : float).

Section Keyframes.

(** [Euler.toQuat()] of [mathutils]. *)
Variable toQuat : float -> float -> float -> Quaternion.

(** The action and the matrices are objects of Blender; their classes
    are not part of the scripts.  What the function reads from them it
    reads through these:
    - [truth]: [bool(b_action)];
    - [action_cycle]: the loop [for curve in b_action], which takes the
      cycle mode from [curve.extend] and the first and last frame from
      [curve.bezierPoints];
    - [CYCLIC]: [bpy.types.FCurve.ExtendTypes.CYCLIC];
    - [is_constant], [modifier]: the tests
      [extend == bpy.types.FCurve.extrapolation("CONSTANT")] and
      [extend.modifier] of [get_flags_from_extend];
    - [bind_transforms]: what the decomposition of [bind_matrix] and
      [extra_mat_inv] raises, if it raises. *)
Variable Action : Type.
Variable Extend : Type.
Variable Transform : Type.
Variable truth : Action -> bool.
Variable action_cycle : Action -> exn + (option Extend * number * number).
Variable CYCLIC : exn + Extend.
Variable is_constant : option Extend -> exn + bool.
Variable modifier : option Extend -> exn + string.
Variable bind_transforms : option Transform -> option Transform -> option exn.

Definition as_quaternion (r : rotation) : Quaternion :=
  match r with
  | Euler x y z => toQuat x y z
  | Quat q => q
  end.

Definition key_time (scene : Scene) (frame : float) : float :=
  PrimFloat.mul (PrimFloat.sub frame 1) (Py.float_of_Z (fps scene)).

(** [(start_frame - 1) * self.context.scene.render.fps] *)
Definition frame_time (scene : Scene) (frame : number) : float :=
  match frame with
  | Int n => Py.float_of_Z ((n - 1) * fps scene)
  | Float f => key_time scene f
  end.

(** [rot_curve[frame].x * 3.14159265358979323846 / 180.0] *)
Definition radians (deg : float) : float :=
  PrimFloat.div (PrimFloat.mul deg 3.14159265358979323846) 180.

Definition euler_axis (axis : nat) (r : rotation) : float :=
  match r, axis with
  | Euler x _ _, 0%nat => x
  | Euler _ y _, 1%nat => y
  | Euler _ _ z, _ => z
  | Quat q, 0%nat => qx q
  | Quat q, 1%nat => qy q
  | Quat q, _ => qz q
  end.

(** Keys of one Euler axis, in ascending frame order. *)
Definition euler_keys (scene : Scene) (rot_curve : curve rotation)
           (axis : nat) : list (float * float) :=
  omap (fun frame =>
          (fun r => (key_time scene frame, radians (euler_axis axis r)))
            <$> curve_get frame rot_curve)
       (sorted_frames rot_curve).

(** Quaternion keys; an Euler sample has no [w] attribute. *)
Definition quaternion_key (scene : Scene) (rot_curve : curve rotation)
           (frame : float) : exn + (float * Quaternion) :=
  match curve_get frame rot_curve with
  | Some (Quat q) => inr (key_time scene frame, q)
  | _ => inl (AttributeError "'Euler' object has no attribute 'w'")
  end.

(** The keys written until one raises. *)
Fixpoint collect {E A} (l : list (E + A)) : list A * option E :=
  match l with
  | [] => ([], None)
  | inl e :: _ => ([], Some e)
  | inr a :: l' => let '(r, e) := collect l' in (a :: r, e)
  end.

Definition keys_of {A} (scene : Scene) (c : curve A) : list (float * A) :=
  omap (fun frame => (fun v => (key_time scene frame, v)) <$> curve_get frame c)
       (sorted_frames c).

(** The block filled in when there is more than one key (or the version
    has no interpolators), as far as it is filled when an exception ends
    the export. *)
Definition keyframe_data (scene : Scene) (kind : string)
           (rot_curve : curve rotation) (trans_curve : curve Vector3)
           (scale_curve : curve float) : KeyframeData * option exn :=
  let frames := sorted_frames rot_curve in
  let euler :=
    match frames, rot_curve with
    | _ :: _, (_, Euler _ _ _) :: _ => true
    | _, _ => false
    end in
  if euler then
    ({| block_type := kind;
        rotation_type := XYZ_ROTATION;
        num_rotation_keys := 1;
        xyz_rotations := (euler_keys scene rot_curve 0,
                          euler_keys scene rot_curve 1,
                          euler_keys scene rot_curve 2);
        quaternion_keys := [];
        translations := keys_of scene trans_curve;
        scales := keys_of scene scale_curve |}, None)
  else
    match collect (map (quaternion_key scene rot_curve) frames) with
    | (qkeys, Some e) =>
        ({| block_type := kind;
            rotation_type := LINEAR;
            num_rotation_keys := length frames;
            xyz_rotations := ([], [], []);
            quaternion_keys := qkeys;
            translations := [];
            scales := [] |}, Some e)
    | (qkeys, None) =>
        ({| block_type := kind;
            rotation_type := LINEAR;
            num_rotation_keys := length frames;
            xyz_rotations := ([], [], []);
            quaternion_keys := qkeys;
            translations := keys_of scene trans_curve;
            scales := keys_of scene scale_curve |}, None)
    end.

Definition with_data (c : Controller) (kfd : KeyframeData) : Controller :=
  {| controller_type := controller_type c;
     kfc_flags := kfc_flags c; kfc_frequency := kfc_frequency c;
     kfc_phase := kfc_phase c;
     kfc_start_time := kfc_start_time c; kfc_stop_time := kfc_stop_time c;
     kfc_data := Some kfd |}.

(** [export_keyframes] from the comment [# -> now comes the real export]
    on, [st] being what the statements before it have created and the
    three curves the dictionaries they have built.

    With at most one key per curve and a version that has interpolators,
    the keys go into the interpolator and the function returns;
    [kfi.scale] is set to [1.0] whatever the scale curve holds
    (["ignore scale for now..."]). *)
Definition export_keys (version : Z) (scene : Scene) (st : Exported)
           (rot_curve : curve rotation) (trans_curve : curve Vector3)
           (scale_curve : curve float) : Exported * option exn :=
  if (Nat.max (length rot_curve) (Nat.max (length trans_curve) (length scale_curve))
        <=? 1)%nat
     && supports_interpolators version
  then
    match kfi st with
    | None => (st, Some (UnboundLocalError "kfi"))
    | Some i =>
        let i :=
          match trans_curve with
          | (_, trans) :: _ =>
              {| translation := trans; rotation_ := rotation_ i;
                 scale := scale i; kfi_data := kfi_data i |}
          | [] => i
          end in
        let i :=
          match rot_curve with
          | (_, rot) :: _ =>
              {| translation := translation i; rotation_ := as_quaternion rot;
                 scale := scale i; kfi_data := kfi_data i |}
          | [] => i
          end in
        let i :=
          {| translation := translation i; rotation_ := rotation_ i;
             scale := 1; kfi_data := kfi_data i |} in
        ({| kfc := kfc st; kfi := Some i; created := created st |}, None)
    end
  else if supports_interpolators version then
    let '(kfd, raised) :=
      keyframe_data scene "NiTransformData" rot_curve trans_curve scale_curve in
    match kfi st with
    | None => ({| kfc := kfc st; kfi := None;
                  created := created st ++ ["NiTransformData"] |},
               Some (UnboundLocalError "kfi"))
    | Some i =>
        ({| kfc := kfc st;
            kfi := Some {| translation := translation i; rotation_ := rotation_ i;
                           scale := scale i; kfi_data := Some kfd |};
            created := created st ++ ["NiTransformData"] |}, raised)
    end
  else
    let '(kfd, raised) :=
      keyframe_data scene "NiKeyframeData" rot_curve trans_curve scale_curve in
    ({| kfc := (fun c => with_data c kfd) <$> kfc st;
        kfi := kfi st;
        created := created st ++ ["NiKeyframeData"] |}, raised).

(** The controller and the interpolator as the function creates them, the
    interpolator with the transform of the parent block as default
    pose. *)
Definition new_controller (version : Z) (trans : Vector3) (quat : Quaternion)
           (parent_scale : float) : Exported :=
  let controller kind :=
    {| controller_type := kind; kfc_flags := None; kfc_frequency := None;
       kfc_phase := None; kfc_start_time := None; kfc_stop_time := None;
       kfc_data := None |} in
  if supports_interpolators version then
    {| kfc := Some (controller "NiTransformController");
       kfi := Some {| translation := trans; rotation_ := quat;
                      scale := parent_scale; kfi_data := None |};
       created := ["NiTransformController"; "NiTransformInterpolator"] |}
  else
    {| kfc := Some (controller "NiKeyframeController");
       kfi := None;
       created := ["NiKeyframeController"] |}.

(** The cycle mode and the first and last frame: those of the curves of
    an action that is true, the defaults of the scene otherwise. *)
Definition cycle (scene : Scene) (b_action : option Action)
  : exn + (option Extend * number * number) :=
  let dummy :=
    match CYCLIC with
    | inl e => inl e
    | inr extend => inr (Some extend, Int (frame_start scene), Int (frame_end scene))
    end in
  match b_action with
  | Some a => if truth a then action_cycle a else dummy
  | None => dummy
  end.

(** [get_flags_from_extend]: the flags and whether the warning
    ["Unsupported extend type in blend, using clamped."] was issued. *)
Definition get_flags_from_extend (extend : option Extend) : exn + (Z * bool) :=
  match is_constant extend with
  | inl e => inl e
  | inr false => inr (4%Z, true)
  | inr true =>
      match modifier extend with
      | inl e => inl e
      | inr m =>
          if negb (String.eqb m "CYCLES") then inr (4%Z, false)
          else
            (* the [elif] makes both tests again *)
            match is_constant extend with
            | inl e => inl e
            | inr false => inr (4%Z, true)
            | inr true =>
                match modifier extend with
                | inl e => inl e
                | inr m => if String.eqb m "CYCLES" then inr (0%Z, false)
                           else inr (4%Z, true)
                end
            end
      end
  end.

(** The curves the action is merged into.  For an action other than
    [None] the first statement reads the name [Ipo], which the module
    neither defines nor imports. *)
Definition merge_curves (b_action : option Action)
  : exn + (curve rotation * curve Vector3 * curve float) :=
  match b_action with
  | None => inr ([], [], [])
  | Some _ => inl (NameError "name 'Ipo' is not defined")
  end.

(** [export_keyframes]: what the call leaves behind and the exception it
    ends with, if any.  [animation] is [self.properties.animation],
    [version] is [self.nif_export.version], [parent_is_NiNode] the test
    of the second assertion, and [trans], [quat], [parent_scale] the
    transform of the parent block. *)
Definition export_keyframes (animation : string) (version : Z) (scene : Scene)
           (b_action : option Action) (space : string) (parent_is_NiNode : bool)
           (trans : Vector3) (quat : Quaternion) (parent_scale : float)
           (bind_matrix extra_mat_inv : option Transform)
  : Exported * option exn :=
  let nothing := {| kfc := None; kfi := None; created := [] |} in
  if String.eqb animation "GEOM_NIF" && negb (supports_interpolators version) then
    (nothing, None)
  else if negb (String.eqb space "localspace") then (nothing, Some AssertionError)
  else if negb parent_is_NiNode then (nothing, Some AssertionError)
  else
    let st := new_controller version trans quat parent_scale in
    match cycle scene b_action with
    | inl e => (st, Some e)
    | inr (extend, start_frame, stop_frame) =>
        match get_flags_from_extend extend with
        | inl e =>
            (* [kfc.flags = 8] is done *)
            ({| kfc := (fun c =>
                          {| controller_type := controller_type c;
                             kfc_flags := Some 8%Z;
                             kfc_frequency := kfc_frequency c;
                             kfc_phase := kfc_phase c;
                             kfc_start_time := kfc_start_time c;
                             kfc_stop_time := kfc_stop_time c;
                             kfc_data := kfc_data c |}) <$> kfc st;
                kfi := kfi st; created := created st |}, Some e)
        | inr (flags, _) =>
            let st :=
              {| kfc := (fun c =>
                           {| controller_type := controller_type c;
                              kfc_flags := Some (Z.lor 8 flags);
                              kfc_frequency := Some 1%float;
                              kfc_phase := Some 0%float;
                              kfc_start_time := Some (frame_time scene start_frame);
                              kfc_stop_time := Some (frame_time scene stop_frame);
                              kfc_data := kfc_data c |}) <$> kfc st;
                 kfi := kfi st; created := created st |} in
            if String.eqb animation "GEOM_NIF" then (st, None)
            else
              match bind_transforms bind_matrix extra_mat_inv with
              | Some e => (st, Some e)
              | None =>
                  match merge_curves b_action with
                  | inl e => (st, Some e)
                  | inr (rot_curve, trans_curve, scale_curve) =>
                      export_keys version scene st rot_curve trans_curve scale_curve
                  end
              end
        end
    end.

End Keyframes.

(** No keyframe-data block: none created, none linked. *)
Definition no_keyframe_data (r : Exported) : Prop :=
  ~ In "NiKeyframeData" (created r) /\ ~ In "NiTransformData" (created r) /\
  match kfc r with Some c => kfc_data c = None | None => True end /\
  match kfi r with Some i => kfi_data i = None | None => True end.

(** Sample data: a scene at 30 frames per second, a parent block at the
    origin, and an action of three location curves with one key each,
    at frame 1: the translation [(1, 2, 3)]. *)
Definition sample_scene : Scene :=
  {| frame_start := 1; frame_end := 100; fps := 30 |}.
Definition sample_translation : Vector3 := {| x3 := 0; y3 := 0; z3 := 0 |}.
Definition sample_quaternion : Quaternion := {| qw := 1; qx := 0; qy := 0; qz := 0 |}.
Definition sample_action : list (string * list (float * float)) :=
  [("LocX", [(1%float, 1%float)]); ("LocY", [(1%float, 2%float)]);
   ("LocZ", [(1%float, 3%float)])].

(** *** [TextureAnimation.export_flip_controller] *)

Record NiFlipController := {
  flags : Z;
  frequency : float;
  start_time : float;
  stop_time : float;
  texture_slot : Z;
  num_sources : nat;
  sources : list string;
  delta : float
}.

(** The attributes of a [TextureAnimation] object other than
    [nif_export]: [context], when the object has one. *)
Record TextureAnimation := { context : option Scene }.

(** [TextureAnimation.__init__] sets [self.nif_export] and nothing else
    ([AnimationHelper.__init__] does set [self.context]). *)
Definition TextureAnimation_init : TextureAnimation := {| context := None |}.

(** The lines of the flip text that name a texture: empty lines are
    skipped. *)
Definition flip_textures (tlist : list string) : list string :=
  filter (fun t => negb (String.length t =? 0)%nat) tlist.

(** [export_flip_controller]: the controller as the function leaves it
    (it is attached to [target] from the start) and the exception raised,
    if any.  [block] is the block [create_block] returns,
    [export_source_texture] is the texture writer's. *)
Definition export_flip_controller (self : TextureAnimation)
           (block : NiFlipController)
           (export_source_texture : string -> string)
           (fliptxt_name : string) (tlist : list string)
           (target_tex : Z) : NiFlipController * option exn :=
  let flip :=
    {| flags := 8; frequency := 1;
       start_time := start_time block; stop_time := stop_time block;
       texture_slot := texture_slot block;
       num_sources := num_sources block; sources := sources block;
       delta := delta block |} in
  match context self with
  | None =>
      (flip, Some (AttributeError "'TextureAnimation' object has no attribute 'context'"))
  | Some scene =>
      let start := Py.float_of_Z ((frame_start scene - 1) * fps scene) in
      let stop := Py.float_of_Z ((frame_end scene - frame_start scene) * fps scene) in
      let texs := map export_source_texture (flip_textures tlist) in
      let count := length texs in
      let flip :=
        {| flags := 8; frequency := 1; start_time := start; stop_time := stop;
           texture_slot := target_tex;
           num_sources := (num_sources block + count)%nat;
           sources := sources block ++ texs;
           delta := delta block |} in
      if (count <? 2)%nat then
        (flip,
         Some (NifError ("Error in Texture Flip buffer '" ++ fliptxt_name
                         ++ "': must define at least two textures")))
      else
        ({| flags := flags flip; frequency := frequency flip;
            start_time := start_time flip; stop_time := stop_time flip;
            texture_slot := texture_slot flip;
            num_sources := num_sources flip; sources := sources flip;
            delta := PrimFloat.div (PrimFloat.sub (stop_time flip) (start_time flip))
                                   (Py.float_of_Z (Z.of_nat count)) |},
         None)
  end.

(** *** [AnimationHelper.export_anim_groups] *)

(** What ends the export of the animation groups: an exception of the
    export, or the [ValueError] of [int]. *)
Inductive failure :=
| Raised (e : exn)
| ValueError.

(** ['\r\n'] *)
Definition crlf : string := String (ascii_of_nat 13) (String (ascii_of_nat 10) "").

(** [d]: the fields after the frame number, blanks stripped at both
    ends, joined by ['\r\n']. *)
Definition frame_text (first : string) (more : list string) : string :=
  fold_left (fun d field => d ++ crlf ++ Py.strip (Ascii.eqb " ") field) more
            (Py.strip (Ascii.eqb " ") first).

(** One round of [for s in slist] on a line that is not empty: the
    frame number and the text.  [AnimationHelper] has no method
    [warning] (the other methods report through [self.nif_export]), so
    that the report of a frame out of range fails on the attribute. *)
Definition parse_line (scene : Scene) (s : string) : failure + (Z * string) :=
  match Py.split "/" s with
  | number :: first :: more =>
      match Py.int number 10 with
      | None => inl ValueError
      | Some f =>
          if (f <? frame_start scene)%Z || (frame_end scene <? f)%Z then
            inl (Raised (AttributeError
                           "'AnimationHelper' object has no attribute 'warning'"))
          else inr (f, frame_text first more)
      end
  | _ => inl (Raised (NifError ("Syntax error in Anim buffer ('" ++ s ++ "')")))
  end.

(** [flist] and [dlist], side by side; empty lines are ignored. *)
Fixpoint parse_lines (scene : Scene) (slist : list string) : failure + list (Z * string) :=
  match slist with
  | [] => inr []
  | s :: rest =>
      if String.eqb s "" then parse_lines scene rest
      else
        match parse_line scene s with
        | inl e => inl e
        | inr fd =>
            match parse_lines scene rest with
            | inl e => inl e
            | inr fds => inr (fd :: fds)
            end
        end
  end.

(** [export_anim_groups]: the text keys (time and value) of the
    [NiTextKeyExtraData] block, [None] when nothing is exported
    ([animation == 'GEOM_NIF']).  [slist] holds the lines of [animtxt]. *)
Definition export_anim_groups (animation : string) (scene : Scene) (slist : list string)
  : failure + option (list (Z * string)) :=
  if String.eqb animation "GEOM_NIF" then inr None
  else
    match parse_lines scene slist with
    | inl e => inl e
    | inr fds => inr (Some (map (fun fd => (fps scene * (fst fd - 1), snd fd)%Z) fds))
    end.

(** The lines of the comment in the source, for a scene of 100 frames. *)
Definition sample_anim_text : list string :=
  ["001/Idle: Start/Idle: Stop/Idle2: Start/Idle2: Loop Start";
   "";
   "051/Idle2: Stop/Idle3: Start";
   "101/Idle3: Loop Start/Idle3: Stop"].

End AnimationExport.

(** ** [armaturesys/armature_import.py]: the bone tree *)

Module ArmatureImport.

(** Blocks of the NIF tree are Python objects compared by identity; a
    block is named here by a number. *)
Definition block : Type := nat.

(** [niBlock._parent] for every block that has a parent; the root of the
    tree has [_parent = None] and no entry. *)
Abbreviation parents := (gmap block block).

(** [dict_armatures]: skeleton root to the list of its bones, in the order
    in which they were marked. *)
Abbreviation armatures := (gmap block (list block)).

Inductive exn :=
| AssertionError
| AttributeError
| KeyError.

(** How a call ends.  [Unfinished] stands for a chain of nested calls
    longer than the depth explored: the recursion has not come to an end
    by itself (CPython cuts such a run off with [RecursionError] when its
    recursion limit is hit). *)
Inductive outcome :=
| Done (dict_armatures : armatures)
| Raised (e : exn)
| Unfinished.

(** [complete_bone_tree(bone, skelroot)].  When [bone._parent] is [None],
    [None] is appended to the bone list and the nested call fails on
    [None._parent]. *)
Fixpoint complete_bone_tree (depth : nat) (parent : parents)
         (dict_armatures : armatures) (bone skelroot : block) : outcome :=
  match depth with
  | O => Unfinished
  | S depth' =>
      match dict_armatures !! skelroot with
      | None => Raised AssertionError
      | Some bones =>
          if negb (bool_decide (bone ∈ bones)) then Raised AssertionError
          else
            match parent !! bone with
            | None => Raised AttributeError
            | Some boneparent =>
                if bool_decide (boneparent = skelroot) then Done dict_armatures
                else
                  let dict_armatures :=
                    if bool_decide (boneparent ∈ bones) then dict_armatures
                    else <[skelroot := bones ++ [boneparent]]> dict_armatures in
                  complete_bone_tree depth' parent dict_armatures boneparent skelroot
            end
      end
  end.

(** [mark_armatures_bones] on a skinned geometry block, import policy
    [EVERYTHING]: the skeleton root becomes an armature, then every bone of
    the skin instance ([None] entries are skipped) is marked and its tree
    completed, and then, [IMPORT_EXTRANODES] being [True], every other
    node of the tree of the skeleton root. *)
Definition mark_armature (dict_armatures : armatures) (skelroot : block) : armatures :=
  match dict_armatures !! skelroot with
  | Some _ => dict_armatures
  | None => <[skelroot := []]> dict_armatures
  end.

Fixpoint mark_skin_bones (depth : nat) (parent : parents)
         (dict_armatures : armatures) (skelroot : block)
         (skin_bones : list (option block)) : outcome :=
  match skin_bones with
  | [] => Done dict_armatures
  | None :: rest => mark_skin_bones depth parent dict_armatures skelroot rest
  | Some boneBlock :: rest =>
      match dict_armatures !! skelroot with
      | None => Raised KeyError
      | Some bones =>
          let dict_armatures :=
            if bool_decide (boneBlock ∈ bones) then dict_armatures
            else <[skelroot := bones ++ [boneBlock]]> dict_armatures in
          match complete_bone_tree depth parent dict_armatures boneBlock skelroot with
          | Done dict_armatures =>
              mark_skin_bones depth parent dict_armatures skelroot rest
          | other => other
          end
      end
  end.

(** A block as the loop [for bone in skelroot.tree()] finds it: the
    block, the tests [isinstance(bone, NifFormat.NiNode)] and
    [isinstance(bone, NifFormat.NiLODNode)], and whether
    [self.nif_import.is_grouping_node(bone)] returns children. *)
Record tree_block := {
  tree_node : block;
  is_NiNode : bool;
  is_NiLODNode : bool;
  is_grouping_node : bool
}.

(** The blocks of the tree the loop does not skip. *)
Definition extra_node (skelroot : block) (bone : tree_block) : bool :=
  negb (bool_decide (tree_node bone = skelroot))
  && is_NiNode bone
  && negb (is_NiLODNode bone)
  && negb (is_grouping_node bone).

(** The loop under [if self.nif_import.IMPORT_EXTRANODES:]: a node that
    is not yet in the bone list is appended and its tree completed. *)
Fixpoint mark_extra_nodes (depth : nat) (parent : parents)
         (dict_armatures : armatures) (skelroot : block)
         (tree : list tree_block) : outcome :=
  match tree with
  | [] => Done dict_armatures
  | bone :: rest =>
      if negb (extra_node skelroot bone) then
        mark_extra_nodes depth parent dict_armatures skelroot rest
      else
        match dict_armatures !! skelroot with
        | None => Raised KeyError
        | Some bones =>
            if bool_decide (tree_node bone ∈ bones) then
              mark_extra_nodes depth parent dict_armatures skelroot rest
            else
              match complete_bone_tree depth parent
                      (<[skelroot := bones ++ [tree_node bone]]> dict_armatures)
                      (tree_node bone) skelroot with
              | Done dict_armatures =>
                  mark_extra_nodes depth parent dict_armatures skelroot rest
              | other => other
              end
        end
  end.

(** [skin_bones] is [skininst.bones], [tree] what [skelroot.tree()]
    yields. *)
Definition mark_skin (depth : nat) (parent : parents) (dict_armatures : armatures)
           (skelroot : block) (skin_bones : list (option block))
           (tree : list tree_block) : outcome :=
  match mark_skin_bones depth parent (mark_armature dict_armatures skelroot)
          skelroot skin_bones with
  | Done dict_armatures => mark_extra_nodes depth parent dict_armatures skelroot tree
  | other => other
  end.

(** [chain parent skelroot b l]: following [_parent] from [b] reaches
    [skelroot], and [l] lists the blocks met on the way, [b] first,
    [skelroot] left out. *)
Inductive chain (parent : parents) (skelroot : block) : block -> list block -> Prop :=
| chain_root b :
    parent !! b = Some skelroot -> chain parent skelroot b [b]
| chain_step b p l :
    parent !! b = Some p -> p <> skelroot -> chain parent skelroot p l ->
    chain parent skelroot b (b :: l).

(** [ends_within parent skelroot b k]: following [_parent] from [b] comes
    to the skeleton root, or to a block without parent, in [k] steps. *)
Inductive ends_within (parent : parents) (skelroot : block) : block -> nat -> Prop :=
| ends_root b :
    parent !! b = Some skelroot -> ends_within parent skelroot b 1
| ends_orphan b :
    parent !! b = None -> ends_within parent skelroot b 1
| ends_step b p k :
    parent !! b = Some p -> p <> skelroot -> ends_within parent skelroot p k ->
    ends_within parent skelroot b (S k).

(** The recursion comes to an end by itself. *)
Definition terminates (parent : parents) (dict_armatures : armatures)
           (bone skelroot : block) : Prop :=
  exists depth, complete_bone_tree depth parent dict_armatures bone skelroot <> Unfinished.

(** Scenario D: A (skeleton root) -> B -> C, the skin binds C only. *)
Definition A : block := 1.
Definition B : block := 2.
Definition C : block := 3.
Definition scenario_parent : parents := {[ B := A; C := B ]}.
Definition NiNode (b : block) : tree_block :=
  {| tree_node := b; is_NiNode := true; is_NiLODNode := false;
     is_grouping_node := false |}.
Definition scenario_tree : list tree_block := [NiNode A; NiNode B; NiNode C].

(** The specification's reading of scenario D: A, B and C are all in the
    bone set of the armature. *)
Definition scenario_bone_set_as_specified : Prop :=
  exists depth dict_armatures bones,
    mark_skin depth scenario_parent ∅ A [Some C] scenario_tree = Done dict_armatures /\
    dict_armatures !! A = Some bones /\
    A ∈ bones /\ B ∈ bones /\ C ∈ bones /\
    scenario_parent !! B = Some A /\ scenario_parent !! C = Some B.

(** A parent chain that runs in a circle below the skeleton root [A]. *)
Definition cyclic_parent : parents := {[ B := C; C := B ]}.
Definition cyclic_armatures : armatures := {[ A := [B] ]}.

(** *** Bones and their ancestors *)

(** [is_bone] over the lists of [dict_armatures.values()]; [None] is not
    a bone. *)
Definition is_bone_in (values : list (list block)) (niBlock : option block) : bool :=
  match niBlock with
  | None => false
  | Some b => existsb (fun bones => bool_decide (b ∈ bones)) values
  end.

Definition is_bone (dict_armatures : armatures) (niBlock : option block) : bool :=
  is_bone_in (map snd (map_to_list dict_armatures)) niBlock.

(** The loop of [get_closest_bone], [par] being the block looked at;
    [None] at the top level stands for a walk longer than [fuel] steps. *)
Fixpoint closest_bone_from (fuel : nat) (parent : parents) (dict_armatures : armatures)
         (skelroot : block) (par : option block) : option (option block) :=
  match par with
  | None => Some None
  | Some p =>
      if bool_decide (p = skelroot) then Some None
      else if is_bone dict_armatures (Some p) then Some (Some p)
      else
        match fuel with
        | O => None
        | S fuel' => closest_bone_from fuel' parent dict_armatures skelroot (parent !! p)
        end
  end.

(** [get_closest_bone(niBlock, skelroot)] *)
Definition get_closest_bone (fuel : nat) (parent : parents) (dict_armatures : armatures)
           (niBlock skelroot : block) : option (option block) :=
  closest_bone_from fuel parent dict_armatures skelroot (parent !! niBlock).

(** [path parent b l a]: following [_parent] from [b] one passes the
    blocks of [l] in turn and comes to [a] next. *)
Inductive path (parent : parents) : block -> list block -> block -> Prop :=
| path_parent b a :
    parent !! b = Some a -> path parent b [] a
| path_step b p l a :
    parent !! b = Some p -> path parent p l a -> path parent b (p :: l) a.

(** [top parent b l]: following [_parent] from [b] one passes the blocks
    of [l] and finds no parent after them. *)
Inductive top (parent : parents) : block -> list block -> Prop :=
| top_orphan b :
    parent !! b = None -> top parent b []
| top_step b p l :
    parent !! b = Some p -> top parent p l -> top parent b (p :: l).

(** The blocks met on the way up are neither the skeleton root nor
    bones. *)
Definition passed (dict_armatures : armatures) (skelroot : block) (l : list block) : Prop :=
  Forall (fun x => x <> skelroot /\ is_bone dict_armatures (Some x) = false) l.

(** *** [get_blender_object] *)

Inductive failure :=
| Builtin (e : exn)
| NifError (message : string).

(** What is handed to Blender: the bone [bone_name] of the armature
    object [armatureName], or the object of the given name. *)
Inductive blender_object :=
| Bone (armatureName bone_name : string)
| Object (name : string).

(** The loop over [dict_armatures.items()]: the first item settles the
    matter, its [else] raising at once. *)
Definition armature_of (items : list (block * list block)) (dict_names : gmap block string)
           (niBlock : block) (bone_name : string) : failure + option string :=
  match items with
  | [] => inr None
  | (armatureBlock, boneBlocks) :: _ =>
      if bool_decide (niBlock ∈ boneBlocks) then
        match dict_names !! armatureBlock with
        | Some armatureName => inr (Some armatureName)
        | None => inl (Builtin KeyError)
        end
      else inl (NifError (String.append "cannot find bone '" (String.append bone_name "'")))
  end.

(** [get_blender_object], [items] being [dict_armatures.items()] in the
    order of the dictionary.  A bone belongs to some item, so that the
    loop makes a round and [armatureName] is bound or the error raised;
    the last case of the inner [match] does not occur. *)
Definition get_blender_object (items : list (block * list block))
           (dict_names : gmap block string) (niBlock : block)
  : failure + blender_object :=
  if is_bone_in (map snd items) (Some niBlock) then
    match dict_names !! niBlock with
    | None => inl (Builtin KeyError)
    | Some bone_name =>
        match armature_of items dict_names niBlock bone_name with
        | inl e => inl e
        | inr (Some armatureName) => inr (Bone armatureName bone_name)
        | inr None => inl (Builtin AttributeError)
        end
    end
  else
    match dict_names !! niBlock with
    | None => inl (Builtin KeyError)
    | Some name => inr (Object name)
    end.

End ArmatureImport.

(** ** [nif_import.py]: vertices and polygons of [import_mesh] *)

Module NifImport.

Inductive exn :=
| IndexError
| ValueError
| NameError.

(** Statements that may raise, in sequence. *)
Definition bind {A B : Type} (m : exn + A) (k : A -> exn + B) : exn + B :=
  match m with
  | inl e => inl e
  | inr a => k a
  end.

Notation "'do' x <- m ; k" := (bind m (fun x => k))
  (at level 10, x name, m at level 100, k at level 200).

(** [f <$> m]: the result of [m], when it returns, through [f]. *)
#[global] Instance exn_fmap : FMap (sum exn) :=
  fun A B f m => match m with inl e => inl e | inr a => inr (f a) end.

(** [l[i]] for [i >= 0] *)
Definition item {A : Type} (l : list A) (i : nat) : exn + A :=
  match l !! i with
  | Some a => inr a
  | None => inl IndexError
  end.

(** *** The vertex map *)

(** A vertex or a normal of the NIF geometry data. *)
Record Vector := { x : float; y : float; z : float }.

(** [int(c * resolution)] *)
Definition quantize (c : float) (resolution : Z) : exn + Z :=
  match Py.int_of_float (PrimFloat.mul c (Py.float_of_Z resolution)) with
  | Some n => inr n
  | None => inl ValueError
  end.

(** The key [k] of vertex [i]: a tuple of six integers when the block has
    normals, of three when it has none. *)
Definition vertex_key (n_norms : list Vector) (i : nat) (v : Vector) : exn + list Z :=
  do kx <- quantize (x v) NifCommon.VERTEX_RESOLUTION;
  do ky <- quantize (y v) NifCommon.VERTEX_RESOLUTION;
  do kz <- quantize (z v) NifCommon.VERTEX_RESOLUTION;
  match n_norms with
  | [] => inr [kx; ky; kz]
  | _ :: _ =>
      do n <- item n_norms i;
      do nx <- quantize (x n) NifCommon.NORMAL_RESOLUTION;
      do ny <- quantize (y n) NifCommon.NORMAL_RESOLUTION;
      do nz <- quantize (z n) NifCommon.NORMAL_RESOLUTION;
      inr [kx; ky; kz; nx; ny; nz]
  end.

(** The variables of the vertex loop: [n_map] (key to NIF index), [v_map]
    (NIF index to Blender index), [b_v_index], and the coordinates of
    [b_mesh.vertices]. *)
Record vertex_state := {
  n_map : gmap (list Z) nat;
  v_map : list nat;
  b_v_index : nat;
  vertices : list Vector
}.

(** The lookup of the key: [None] when vertices are not combined or the
    key is new. *)
Definition lookup_key (combine_vertices : bool) (st : vertex_state) (k : list Z)
  : option nat :=
  if negb combine_vertices then None else n_map st !! k.

(** [not n_map_k]: true for [None], and for the index [0] as well. *)
Definition not_ (n_map_k : option nat) : bool :=
  match n_map_k with
  | None => true
  | Some O => true
  | Some (S _) => false
  end.

Section Vertices.

(** [self.properties.combine_vertices], [applytransform], and the product
    with [transform]. *)
Variable combine_vertices : bool.
Variable applytransform : bool.
Variable transform : Vector -> Vector.

(** [n_norms]; empty when the block has no normals. *)
Variable n_norms : list Vector.

(** One round of [for i, v in enumerate(n_verts)]. *)
Definition import_vertex (st : vertex_state) (i : nat) (v : Vector)
  : exn + vertex_state :=
  do k <- vertex_key n_norms i v;
  let n_map_k := lookup_key combine_vertices st k in
  if not_ n_map_k then
    inr {| n_map := <[k := i]> (n_map st);
           v_map := <[i := b_v_index st]> (v_map st);
           b_v_index := S (b_v_index st);
           vertices := vertices st ++ [if applytransform then transform v else v] |}
  else
    do b <- item (v_map st) (default O n_map_k);
    inr {| n_map := n_map st;
           v_map := <[i := b]> (v_map st);
           b_v_index := b_v_index st;
           vertices := vertices st |}.

Fixpoint import_vertices_from (i : nat) (n_verts : list Vector) (st : vertex_state)
  : exn + vertex_state :=
  match n_verts with
  | [] => inr st
  | v :: rest =>
      do st <- import_vertex st i v;
      import_vertices_from (S i) rest st
  end.

(** The vertex loop of [import_mesh], on a mesh that holds
    [b_mesh_vertices] already. *)
Definition import_vertices (b_mesh_vertices : list Vector) (n_verts : list Vector)
  : exn + vertex_state :=
  import_vertices_from 0 n_verts
    {| n_map := ∅;
       v_map := seq 0 (length n_verts);
       b_v_index := length b_mesh_vertices;
       vertices := b_mesh_vertices |}.

End Vertices.

(** Two source vertices are merged when they map to one Blender vertex. *)
Definition merged (st : vertex_state) (i j : nat) : Prop :=
  exists b, v_map st !! i = Some b /\ v_map st !! j = Some b.

(** What the vertex loop maintains when vertices are combined: [i]
    vertices have been handled, [ks] lists the keys of the source vertices,
    [b0] is the number of vertices the mesh had and [n] the number of
    source vertices. *)
Record vertices_invariant (b0 n : nat) (ks : list (list Z)) (i : nat)
       (st : vertex_state) : Prop := {
  vi_length : length (v_map st) = n;
  vi_index : (i = 0 -> b_v_index st = b0) /\ (1 <= i -> b0 < b_v_index st);
  vi_n_map : forall k idx, n_map st !! k = Some idx -> idx < i /\ ks !! idx = Some k;
  vi_present : forall j k, j < i -> ks !! j = Some k ->
                           exists idx, n_map st !! k = Some idx /\ (1 <= j -> 1 <= idx);
  vi_range : forall j b, j < i -> v_map st !! j = Some b -> b0 <= b < b_v_index st;
  vi_only_if : forall j j' b, j < i -> j' < i ->
                              v_map st !! j = Some b -> v_map st !! j' = Some b ->
                              ks !! j = ks !! j';
  vi_if : forall k idx j, n_map st !! k = Some idx -> 1 <= idx -> 1 <= j -> j < i ->
                          ks !! j = Some k -> v_map st !! j = v_map st !! idx;
  vi_first : forall j b, 1 <= j -> j < i -> v_map st !! j = Some b -> b0 < b;
  vi_zero : 1 <= i -> v_map st !! 0 = Some b0
}.

(** [ks] lists the keys of the vertices [n_verts]. *)
Definition vertex_keys (n_norms n_verts : list Vector) (ks : list (list Z)) : Prop :=
  length ks = length n_verts /\
  forall i v, n_verts !! i = Some v ->
              exists k, ks !! i = Some k /\ vertex_key n_norms i v = inr k.

(** Two vertices at the origin, no normals. *)
Definition origin : Vector := {| x := 0; y := 0; z := 0 |}.
Definition twin_vertices : list Vector := [origin; origin].

(** *** The polygons *)

Record Polygon := { loop_start : nat; loop_total : nat }.
Record Loop := { vertex_index : nat }.

(** [b_mesh.polygons] and [b_mesh.loops]. *)
Record Mesh := { polygons : list Polygon; loops : list Loop }.

(** [collection.add(n)]: [n] new elements. *)
Definition polygons_add (n : nat) (m : Mesh) : Mesh :=
  {| polygons := polygons m ++ replicate n {| loop_start := 0; loop_total := 0 |};
     loops := loops m |}.

Definition loops_add (n : nat) (m : Mesh) : Mesh :=
  {| polygons := polygons m;
     loops := loops m ++ replicate n {| vertex_index := 0 |} |}.

(** [[v_map[vert_index] for vert_index in f]] *)
Fixpoint remap (v_map : list nat) (f : list nat) : exn + list nat :=
  match f with
  | [] => inr []
  | vert_index :: rest =>
      do b <- item v_map vert_index;
      do bs <- remap v_map rest;
      inr (b :: bs)
  end.

(** The variables of the first polygon loop. *)
Record face_state := {
  f_map : list (option nat);
  b_f_index : nat;
  num_new_faces : nat;
  unique_faces : list (list nat);
  tri_point_list : list nat;
  ls_list_defined : bool
}.

(** One round of [for i, f in enumerate(poly_gens)]: a polygon whose
    remapped tuple is in [unique_faces] already is skipped ([continue]). *)
Definition import_face (v_map : list nat) (st : face_state) (i : nat) (f : list nat)
  : exn + face_state :=
  do f_verts <- remap v_map f;
  if bool_decide (f_verts ∈ unique_faces st) then inr st
  else
    inr {| f_map := <[i := Some (b_f_index st)]> (f_map st);
           b_f_index := S (b_f_index st);
           num_new_faces := S (num_new_faces st);
           unique_faces := unique_faces st ++ [f_verts];
           tri_point_list := tri_point_list st ++ [length f];
           ls_list_defined := true |}.

Fixpoint import_faces_from (v_map : list nat) (i : nat) (poly_gens : list (list nat))
         (st : face_state) : exn + face_state :=
  match poly_gens with
  | [] => inr st
  | f :: rest =>
      do st <- import_face v_map st i f;
      import_faces_from v_map (S i) rest st
  end.

(** [ls_list]: [range(0, num_new_faces * t, t)] shifted by [bl_index],
    with [t = tri_point_list[len(ls_list)]] read while [ls_list] is the
    empty list of the last round; the name is unbound when the first loop
    made no round, and a zero step is refused by [range]. *)
Definition loop_starts (st : face_state) (bl_index : nat) : exn + list nat :=
  if negb (ls_list_defined st) then inl NameError
  else
    do t <- item (tri_point_list st) 0;
    match t with
    | O => inl ValueError
    | S _ => inr (map (fun n => n * t + bl_index) (seq 0 (num_new_faces st)))
    end.

(** [b_mesh.polygons[p].loop_start = s; .loop_total = t] *)
Definition set_polygon (p s t : nat) (m : Mesh) : exn + Mesh :=
  do _ <- item (polygons m) p;
  inr {| polygons := <[p := {| loop_start := s; loop_total := t |}]> (polygons m);
         loops := loops m |}.

(** [b_mesh.loops[l].vertex_index = b] *)
Definition set_loop (l b : nat) (m : Mesh) : exn + Mesh :=
  do _ <- item (loops m) l;
  inr {| polygons := polygons m;
         loops := <[l := {| vertex_index := b |}]> (loops m) |}.

(** The [while l < len(...)] loop, [l] running over the loop points. *)
Fixpoint set_loops (bl_index l : nat) (lp_points : list nat) (m : Mesh) : exn + Mesh :=
  match lp_points with
  | [] => inr m
  | b :: rest =>
      do m <- set_loop (l + bl_index) b m;
      set_loops bl_index (S l) rest m
  end.

(** One round of [for i in range(len(unique_faces))]; [bl_index] is
    threaded through. *)
Definition fill_polygon (v_map : list nat) (poly_gens : list (list nat))
           (st : face_state) (ls_list : list nat) (bf2_index : nat)
           (acc : Mesh * nat) (i : nat) : exn + (Mesh * nat) :=
  let '(m, bl_index) := acc in
  do entry <- item (f_map st) i;
  match entry with
  | None => inr (m, bl_index)
  | Some b =>
      do s <- item ls_list (b - bf2_index);
      do face <- item (unique_faces st) (b - bf2_index);
      do m <- set_polygon b s (length face) m;
      do poly <- item poly_gens (b - bf2_index);
      do lp_points <- remap v_map poly;
      do m <- set_loops bl_index 0 lp_points m;
      inr (m, bl_index + length poly)
  end.

Fixpoint fill_polygons (v_map : list nat) (poly_gens : list (list nat))
         (st : face_state) (ls_list : list nat) (bf2_index : nat)
         (acc : Mesh * nat) (indices : list nat) : exn + (Mesh * nat) :=
  match indices with
  | [] => inr acc
  | i :: rest =>
      do acc <- fill_polygon v_map poly_gens st ls_list bf2_index acc i;
      fill_polygons v_map poly_gens st ls_list bf2_index acc rest
  end.

(** The polygon part of [import_mesh]: the mesh, [f_map], [unique_faces]
    and [num_new_faces] as they stand at the debug report
    ["%i unique polygons"]. *)
Record imported_polygons := {
  mesh : Mesh;
  face_map : list (option nat);
  faces : list (list nat);
  new_faces : nat
}.

Definition import_polygons (v_map : list nat) (b_mesh : Mesh)
           (poly_gens : list (list nat)) : exn + imported_polygons :=
  let bf2_index := length (polygons b_mesh) in
  let bl_index := length (loops b_mesh) in
  let poly_count := length poly_gens in
  let m := loops_add (poly_count * 3) (polygons_add poly_count b_mesh) in
  do st <- import_faces_from v_map 0 poly_gens
             {| f_map := replicate poly_count None;
                b_f_index := bf2_index;
                num_new_faces := 0;
                unique_faces := [];
                tri_point_list := [];
                ls_list_defined := false |};
  do ls_list <- loop_starts st bl_index;
  do filled <- fill_polygons v_map poly_gens st ls_list bf2_index (m, bl_index)
                 (seq 0 (length (unique_faces st)));
  inr {| mesh := fst filled;
         face_map := f_map st;
         faces := unique_faces st;
         new_faces := num_new_faces st |}.


(** Source polygon [i] repeats the remapped tuple of an earlier one. *)
Definition repeats (v_map : list nat) (poly_gens : list (list nat)) (i : nat) : Prop :=
  exists j f g t,
    (j < i)%nat /\ poly_gens !! i = Some f /\ poly_gens !! j = Some g /\
    remap v_map f = inr t /\ remap v_map g = inr t.

(** What the first polygon loop maintains, [done] being the remapped
    tuples of the polygons seen so far, [bf2_index] the number of polygons
    the mesh had and [poly_count] the number of source polygons. *)
Record faces_invariant (bf2_index poly_count : nat) (done : list (list nat))
       (st : face_state) : Prop := {
  unique_NoDup : NoDup (unique_faces st);
  unique_done : forall t, t ∈ unique_faces st <-> t ∈ done;
  count_unique : num_new_faces st = length (unique_faces st);
  index_unique : b_f_index st = bf2_index + length (unique_faces st);
  f_map_length : length (f_map st) = poly_count;
  f_map_emitted : length (omap id (f_map st)) = length (unique_faces st);
  f_map_ahead : forall j, length done <= j -> j < poly_count -> f_map st !! j = Some None;
  f_map_dropped : forall j t, done !! j = Some t ->
                              (f_map st !! j = Some None <-> t ∈ take j done);
  f_map_range : forall j b, f_map st !! j = Some (Some b) ->
                            bf2_index <= b < bf2_index + length (unique_faces st);
  ls_list_bound : done <> [] -> ls_list_defined st = true;
  tri_points : Forall (fun t => t = 3) (tri_point_list st);
  tri_points_first : done <> [] -> tri_point_list st <> []
}.

(** *** [select_layer] *)

(** [tuple(i == layer_nr for i in range(0, 20))] *)
Definition select_layer (layer_nr : Z) : list bool :=
  map (fun i => (i =? layer_nr)%Z) (Py.range 0 20).

(** *** [import_name] *)

(** A named block: its identity, [niBlock.name.decode()] and whether it
    is a [RootCollisionNode]. *)
Record NiObjectNET := {
  block_id : ArmatureImport.block;
  name : string;
  is_RootCollisionNode : bool
}.

(** The names taken in [bpy.data]. *)
Record BlendData := {
  objects : list string;
  materials : list string;
  meshes : list string
}.

(** [dict_names] (block to Blender name) and [dict_blocks] (Blender name
    to block). *)
Record names := {
  dict_names : gmap ArmatureImport.block string;
  dict_blocks : gmap string ArmatureImport.block
}.

Inductive name_error :=
| RuntimeError (message : string).

(** [shortName] in round [uniqueInt] of the loop, bone naming convention
    applied; ['%02d'] writes two digits at least. *)
Definition short_name (niName : string) (max_length uniqueInt : Z) : string :=
  NifCommon.get_bone_name_for_blender
    (if (uniqueInt =? -1)%Z then Py.slice_upto (max_length - 1) niName
     else String.append (Py.slice_upto (max_length - 4) niName)
                        (String.append "." (Py.zfill 2 (Py.str uniqueInt)))).

(** [shortName] is in use nowhere in [bpy.data]. *)
Definition not_in_use (data : BlendData) (shortName : string) : bool :=
  negb (bool_decide (shortName ∈ objects data))
  && negb (bool_decide (shortName ∈ materials data))
  && negb (bool_decide (shortName ∈ meshes data)).

(** The loop [for uniqueInt in range(-1, 1000)]: the name at which it
    breaks, [None] when it runs to its [else].  [dict_names] is keyed by
    blocks, so that [niName not in self.dict_names] holds for the text
    [niName]: for ["InvMarker"] the loop breaks in its first round. *)
Fixpoint unique_name (data : BlendData) (niName : string) (max_length : Z)
         (uniqueInts : list Z) : option string :=
  match uniqueInts with
  | [] => None
  | uniqueInt :: rest =>
      let shortName := short_name niName max_length uniqueInt in
      if String.eqb niName "InvMarker" then Some shortName
      else if not_in_use data shortName then Some shortName
      else unique_name data niName max_length rest
  end.

(** [niName]: the name of the block, or a name made up for a block
    without one. *)
Definition ni_name (b : NiObjectNET) : string :=
  if String.eqb (name b) "" then
    if is_RootCollisionNode b then "collision"%string else "noname"%string
  else name b.

(** [import_name(niBlock, max_length)]: the name returned and the two
    dictionaries afterwards. *)
Definition import_name (data : BlendData) (st : names)
           (niBlock : option NiObjectNET) (max_length : Z)
  : name_error + (option string * names) :=
  match niBlock with
  | None => inr (None, st)
  | Some b =>
      match dict_names st !! block_id b with
      | Some shortName => inr (Some shortName, st)
      | None =>
          match unique_name data (ni_name b) max_length (Py.range (-1) 1000) with
          | None => inl (RuntimeError "Ran out of names.")
          | Some shortName =>
              inr (Some shortName,
                   {| dict_names := <[block_id b := shortName]> (dict_names st);
                      dict_blocks := <[shortName := block_id b]> (dict_blocks st) |})
          end
      end
  end.

(** Sample data: two blocks named [Scene Root], Blender data that holds
    an object and a mesh of that name already, and the dictionaries
    before and after the first block is named. *)
Definition scene_root : NiObjectNET :=
  {| block_id := 1; name := "Scene Root"; is_RootCollisionNode := false |}.
Definition scene_root_twin : NiObjectNET :=
  {| block_id := 2; name := "Scene Root"; is_RootCollisionNode := false |}.
Definition scene_data : BlendData :=
  {| objects := ["Scene Root"%string]; materials := []; meshes := ["Scene Root"%string] |}.
Definition no_names : names := {| dict_names := ∅; dict_blocks := ∅ |}.
Definition scene_root_named : names :=
  {| dict_names := {[ 1%nat := "Scene Root.00"%string ]};
     dict_blocks := {[ "Scene Root.00"%string := 1%nat ]} |}.

(** *** The second polygon loop *)

(** The number of polygons that were given an index of the mesh among
    the first [i] source polygons. *)
Definition rank (f_map : list (option nat)) (i : nat) : nat :=
  length (omap id (take i f_map)).

(** The polygon [b_mesh.polygons.add] creates, and the loop
    [b_mesh.loops.add] creates. *)
Definition empty_polygon : Polygon := {| loop_start := 0; loop_total := 0 |}.
Definition empty_loop : Loop := {| vertex_index := 0 |}.

(** The mesh [m] when the second loop has filled [c] polygons of the
    [poly_count] that were added to [b_mesh]: the polygons and loops
    [b_mesh] had are as they were, the first [c] added polygons have
    three loops each, one after the other, which hold the Blender
    vertices of the source polygon of the same number, and what was added
    beyond them is as it was created. *)
Record filled (v_map : list nat) (poly_gens : list (list nat)) (b_mesh m : Mesh)
       (c : nat) : Prop := {
  polygons_length : length (polygons m) = length (polygons b_mesh) + length poly_gens;
  loops_length : length (loops m) = length (loops b_mesh) + length poly_gens * 3;
  polygons_kept : forall p, p < length (polygons b_mesh) ->
                            polygons m !! p = polygons b_mesh !! p;
  loops_kept : forall q, q < length (loops b_mesh) -> loops m !! q = loops b_mesh !! q;
  polygons_filled : forall k, k < c ->
      polygons m !! (length (polygons b_mesh) + k)
      = Some {| loop_start := length (loops b_mesh) + 3 * k; loop_total := 3 |};
  loops_filled : forall k f l vert_index,
      k < c -> poly_gens !! k = Some f -> f !! l = Some vert_index ->
      exists b, v_map !! vert_index = Some b /\
                loops m !! (length (loops b_mesh) + 3 * k + l)
                = Some {| vertex_index := b |};
  polygons_empty : forall k, c <= k < length poly_gens ->
      polygons m !! (length (polygons b_mesh) + k) = Some empty_polygon;
  loops_empty : forall q, 3 * c <= q < length poly_gens * 3 ->
      loops m !! (length (loops b_mesh) + q) = Some empty_loop
}.

(** The indices are handed out in order: the polygon of source polygon
    [i] comes after those of the source polygons before [i]. *)
Definition ranked (bf2_index : nat) (st : face_state) : Prop :=
  forall i b, f_map st !! i = Some (Some b) -> b = bf2_index + rank (f_map st) i.

(** *** The vertices of the mesh *)

(** What the vertex loop maintains about [b_mesh.vertices], the first [i]
    source vertices being handled: [old] lists the vertices the mesh had,
    [ks] the keys of the source vertices, and [co] is what a new vertex is
    given for a source vertex. *)
Record positions_invariant (co : Vector -> Vector) (old n_verts : list Vector)
       (ks : list (list Z)) (i : nat) (st : vertex_state) : Prop := {
  v_map_length : length (v_map st) = length n_verts;
  vertices_length : length (vertices st) = b_v_index st;
  vertices_kept : take (length old) (vertices st) = old;
  vertices_grow : length old <= length (vertices st);
  n_map_keys : forall k idx, n_map st !! k = Some idx -> idx < i /\ ks !! idx = Some k;
  vertex_position : forall j, j < i ->
      exists b j' v,
        v_map st !! j = Some b /\ length old <= b /\
        j' <= j /\ n_verts !! j' = Some v /\ ks !! j' = ks !! j /\
        v_map st !! j' = Some b /\ vertices st !! b = Some (co v)
}.

(** Three vertices less than a thousandth apart, no normals. *)
Definition near_vertices : list Vector :=
  [ {| x := 1; y := 2; z := 3 |};
    {| x := 1.0001; y := 2; z := 3 |};
    {| x := 1.0002; y := 2; z := 3 |} ].

(** *** [set_parents] *)

(** A block of the NIF tree as [set_parents] sees it: its identity,
    whether it is a [NiNode], and [niBlock.children], where [None] stands
    for an empty reference.  Blocks that are no [NiNode] are given no
    children: theirs are not looked at. *)
#[warnings="-register-all"] Inductive NiBlock :=
| Block (block : ArmatureImport.block) (is_NiNode : bool)
        (children : list (option NiBlock)).

Definition block_of (niBlock : NiBlock) : ArmatureImport.block :=
  match niBlock with Block b _ _ => b end.

(** [set_parents(niBlock)], on the [_parent] attributes set so far. *)
Fixpoint set_parents (niBlock : NiBlock) (parent : ArmatureImport.parents)
  : ArmatureImport.parents :=
  match niBlock with
  | Block b is_NiNode children =>
      if is_NiNode then
        foldl (fun parent child =>
                 match child with
                 | None => parent
                 | Some child => set_parents child (<[block_of child := b]> parent)
                 end) parent children
      else parent
  end.

(** [root_block._parent = None; self.set_parents(root_block)], on blocks
    just read, none of which has a [_parent] yet. *)
Definition import_root_parents (root_block : NiBlock) : ArmatureImport.parents :=
  set_parents root_block ∅.

(** The pairs of a block and the [NiNode] that lists it among its
    children, in the order in which [set_parents] comes to them. *)
Fixpoint edges (niBlock : NiBlock) : list (ArmatureImport.block * ArmatureImport.block) :=
  match niBlock with
  | Block b is_NiNode children =>
      if is_NiNode then
        flat_map (fun child =>
                    match child with
                    | None => []
                    | Some child => (block_of child, b) :: edges child
                    end) children
      else []
  end.

(** The blocks [set_parents] comes to, the root first. *)
Definition blocks (niBlock : NiBlock) : list ArmatureImport.block :=
  block_of niBlock :: (edges niBlock).*1.

(** A root with two children, the first of which has a child of its
    own and an empty reference. *)
Definition sample_tree : NiBlock :=
  Block 1 true [Some (Block 2 true [None; Some (Block 3 false [])]);
                Some (Block 4 false [])].

End NifImport.

(** ** [armaturesys/armature_import.py]: [decompose_srt]

    The numbers of this module are real numbers: the function is read
    with exact arithmetic, rounding left out. *)

Module TransformMath.

Import Reals.
Local Open Scope R_scope.

Record Vector := { vx : R; vy : R; vz : R }.

(** [M[i][j]] is the entry in row [i], column [j]. *)
Record Matrix := {
  m00 : R; m01 : R; m02 : R;
  m10 : R; m11 : R; m12 : R;
  m20 : R; m21 : R; m22 : R
}.

Inductive exn :=
| TypeError.

(** *** [mathutils] *)

(** [mathutils.Matrix().to_3x3()] *)
Definition identity : Matrix :=
  {| m00 := 1; m01 := 0; m02 := 0;
     m10 := 0; m11 := 1; m12 := 0;
     m20 := 0; m21 := 0; m22 := 1 |}.

(** [m * s] with a number [s] *)
Definition scaled (m : Matrix) (s : R) : Matrix :=
  {| m00 := m00 m * s; m01 := m01 m * s; m02 := m02 m * s;
     m10 := m10 m * s; m11 := m11 m * s; m12 := m12 m * s;
     m20 := m20 m * s; m21 := m21 m * s; m22 := m22 m * s |}.

(** [m.determinant()] *)
Definition determinant (m : Matrix) : R :=
  m00 m * (m11 m * m22 m - m12 m * m21 m)
  - m01 m * (m10 m * m22 m - m12 m * m20 m)
  + m02 m * (m10 m * m21 m - m11 m * m20 m).

(** *** [Armature.decompose_srt] *)

Record Quaternion := { qw : R; qx : R; qy : R; qz : R }.

(** A Blender transform matrix: the 3x3 part and the translation column
    (the last row is [0 0 0 1]). *)
Record Matrix4 := { linear : Matrix; translation : Vector }.

(** The transform with scale [s], rotation [r] and translation [t]. *)
Definition compose_srt (s : R) (r : Matrix) (t : Vector) : Matrix4 :=
  {| linear := scaled r s; translation := t |}.

Section Decompose.

(** [matrix.decompose()] and [quat.to_matrix()] of [mathutils];
    [self.properties.epsilon]. *)
Variable decompose : Matrix4 -> Vector * Quaternion * Vector.
Variable to_matrix : Quaternion -> Matrix.
Variable epsilon : R.

(** [x ** 0.5]: the square root of a number that is not negative; a
    complex number otherwise, which [mathutils.Vector] refuses. *)
Definition pow_half (a : R) : exn + R :=
  if Rlt_dec a 0 then inl TypeError else inr (sqrt a).

Definition ge (a b : R) : bool := if Rle_dec b a then true else false.

(** [decompose_srt]: the list [[b_scale, b_rot, b_trans]] and whether the
    warning ["Corrupt rotation matrix in nif: geometry errors may result."]
    was issued. *)
Definition decompose_srt (matrix : Matrix4) : exn + (R * Matrix * Vector * bool) :=
  let '(trans_vec, rot_quat, scale_vec) := decompose matrix in
  let scale_rot := to_matrix rot_quat in
  match pow_half (vx scale_vec), pow_half (vy scale_vec), pow_half (vz scale_vec) with
  | inr sx, inr sy, inr sz =>
      let b_scale :=
        if Rlt_dec (determinant scale_rot) 0
        then {| vx := - sx; vy := - sy; vz := - sz |}
        else {| vx := sx; vy := sy; vz := sz |} in
      let warned :=
        ge (Rabs (vx scale_vec - vy scale_vec)) epsilon
        || ge (Rabs (vy scale_vec - vz scale_vec)) epsilon in
      let b_scale := vx b_scale in
      let b_rot := scaled scale_rot b_scale in
      let b_trans := trans_vec in
      inr (b_scale, b_rot, b_trans, warned)
  | inl e, _, _ => inl e
  | _, inl e, _ => inl e
  | _, _, inl e => inl e
  end.

End Decompose.

(** What [decompose] and [to_matrix] give on a transform whose 3x3 part is
    diagonal with positive entries: the translation column, the unit
    quaternion and the diagonal; the unit quaternion is the unit matrix. *)
Definition decompose_diagonal (m : Matrix4) : Vector * Quaternion * Vector :=
  (translation m,
   {| qw := 1; qx := 0; qy := 0; qz := 0 |},
   {| vx := m00 (linear m); vy := m11 (linear m); vz := m22 (linear m) |}).

Definition unit_to_matrix (q : Quaternion) : Matrix := identity.

Definition origin : Vector := {| vx := 0; vy := 0; vz := 0 |}.

End TransformMath.

(* ===================================================================== *)
(** * Part II: properties *)
(* ===================================================================== *)

(** ** Strings *)

Module PyFacts.

Local Open Scope string_scope.

Lemma length_app (a b : string) :
  String.length (a ++ b) = (String.length a + String.length b)%nat.
Proof. induction a as [|c a IH]; simpl; [reflexivity | now rewrite IH]. Qed.

Lemma substring_whole (s : string) : String.substring 0 (String.length s) s = s.
Proof. induction s as [|c s IH]; simpl; [reflexivity | now rewrite IH]. Qed.

Lemma substring_head (a b : string) :
  String.substring 0 (String.length a) (a ++ b) = a.
Proof.
  induction a as [|c a IH]; simpl.
  - now destruct b.
  - now rewrite IH.
Qed.

Lemma substring_tail (a b : string) :
  String.substring (String.length a) (String.length b) (a ++ b) = b.
Proof. induction a as [|c a IH]; simpl; [apply substring_whole | exact IH]. Qed.

(** A string ends with [p] exactly when its last [length p] characters
    are [p]. *)
Lemma endswith_app (a b p : string) :
  String.length b = String.length p ->
  Py.endswith (a ++ b) p = String.eqb b p.
Proof.
  intros Hlen. unfold Py.endswith.
  rewrite length_app, <- Hlen.
  replace (String.length b <=? String.length a + String.length b)%nat with true
    by (symmetry; apply Nat.leb_le; lia).
  replace (String.length a + String.length b - String.length b)%nat
    with (String.length a) by lia.
  now rewrite substring_tail.
Qed.

Lemma app_assoc (a b c : string) : (a ++ b) ++ c = a ++ b ++ c.
Proof.
  induction a as [|x a IH]; [reflexivity|].
  change (String x ((a ++ b) ++ c) = String x (a ++ b ++ c)). now rewrite IH.
Qed.

Lemma endswith_app3 (a b c p : string) :
  String.length c = String.length p ->
  Py.endswith (a ++ b ++ c) p = String.eqb c p.
Proof. intros Hlen. rewrite <- app_assoc. now apply endswith_app. Qed.

(** [(a + b)[len(a):] == b] *)
Lemma slice_from_app (n : nat) (a b : string) :
  String.length a = n -> Py.slice_from n (a ++ b) = b.
Proof.
  intros <-. unfold Py.slice_from. rewrite length_app.
  replace (String.length a + String.length b - String.length a)%nat
    with (String.length b) by lia.
  apply substring_tail.
Qed.

(** [(a + b + c)[len(a):-len(c)] == b] *)
Lemma slice_between_app (n m : nat) (a b c : string) :
  String.length a = n -> String.length c = m ->
  Py.slice_between n m (a ++ b ++ c) = b.
Proof.
  intros <- <-. unfold Py.slice_between. rewrite !length_app.
  replace (String.length a + (String.length b + String.length c)
           - String.length c - String.length a)%nat
    with (String.length b) by lia.
  induction a as [|x a IH]; [exact (substring_head b c) | exact IH].
Qed.

Lemma startswith_app (a b : string) : Py.startswith (a ++ b) a = true.
Proof.
  unfold Py.startswith.
  induction a as [|x a IH]; simpl.
  - now destruct b.
  - destruct (ascii_dec x x) as [_|Hne]; [exact IH | now elim Hne].
Qed.

(** *** Digits *)

Lemma append_cons (c : ascii) (a b : string) : String c a ++ b = String c (a ++ b).
Proof. reflexivity. Qed.

Lemma append_nil_r (a : string) : a ++ "" = a.
Proof. induction a as [|c a IH]; [reflexivity|]. rewrite append_cons. now rewrite IH. Qed.

Lemma length_repeat_char (c : ascii) (n : nat) : String.length (Py.repeat_char c n) = n.
Proof. induction n as [|n IH]; simpl; [reflexivity | now rewrite IH]. Qed.

Lemma repeat_char_snoc (c : ascii) (n : nat) :
  Py.repeat_char c (S n) = Py.repeat_char c n ++ String c "".
Proof.
  induction n as [|n IH]; [reflexivity|].
  change (String c (Py.repeat_char c (S n)) = String c (Py.repeat_char c n ++ String c "")).
  now rewrite <- IH.
Qed.

(** A property of the numbers below [k], decided by running through them. *)
Lemma below_forallb (p : Z -> bool) (k : nat) :
  forallb p (map Z.of_nat (seq 0 k)) = true ->
  forall a, (0 <= a < Z.of_nat k)%Z -> p a = true.
Proof.
  intros H a Ha.
  rewrite forallb_forall in H. apply H.
  apply in_map_iff. exists (Z.to_nat a). split; [lia|].
  apply in_seq. lia.
Qed.

Lemma digit_value_char (d : Z) :
  (0 <= d < 36)%Z -> Py.digit_value (Py.digit_char d) = Some d.
Proof.
  intros Hd.
  pose proof (below_forallb
                (fun d => match Py.digit_value (Py.digit_char d) with
                          | Some d' => (d' =? d)%Z
                          | None => false
                          end) 36 eq_refl d Hd) as H.
  cbv beta in H. destruct (Py.digit_value (Py.digit_char d)); [|discriminate].
  apply Z.eqb_eq in H. now subst.
Qed.

Lemma digit_char_plain (d : Z) :
  (0 <= d < 36)%Z -> Ascii.eqb (Py.digit_char d) "_" = false.
Proof.
  intros Hd.
  apply negb_true_iff.
  exact (below_forallb (fun d => negb (Ascii.eqb (Py.digit_char d) "_")) 36 eq_refl d Hd).
Qed.

Lemma digit_char_unsigned (d : Z) :
  (0 <= d < 36)%Z ->
  Ascii.eqb (Py.digit_char d) "+" || Ascii.eqb (Py.digit_char d) "-" = false.
Proof.
  intros Hd. apply negb_true_iff.
  exact (below_forallb
           (fun d => negb (Ascii.eqb (Py.digit_char d) "+" || Ascii.eqb (Py.digit_char d) "-"))
           36 eq_refl d Hd).
Qed.

Section Digits.

Variable base : Z.
Hypothesis base_range : (2 <= base <= 36)%Z.

Lemma pow_base_pos (k : nat) : (0 < base ^ Z.of_nat k)%Z.
Proof. apply Z.pow_pos_nonneg; lia. Qed.

Lemma pow_base_succ (k : nat) : (base ^ Z.of_nat (S k) = base * base ^ Z.of_nat k)%Z.
Proof. rewrite Nat2Z.inj_succ. apply Z.pow_succ_r. lia. Qed.

Lemma length_fixed_digits (k : nat) (n : Z) :
  String.length (Py.fixed_digits base k n) = k.
Proof. induction k as [|k IH]; simpl; [reflexivity | now rewrite IH]. Qed.

(** The last of [k + 1] digits is the digit of the units. *)
Lemma fixed_digits_snoc (k : nat) (n : Z) :
  Py.fixed_digits base (S k) n
  = Py.fixed_digits base k (n / base) ++ String (Py.digit_char (n mod base)) "".
Proof.
  induction k as [|k IH].
  - change (String (Py.digit_char (n / base ^ 0 mod base)) ""
            = String (Py.digit_char (n mod base)) "").
    now rewrite Z.pow_0_r, Z.div_1_r.
  - change (Py.fixed_digits base (S (S k)) n)
      with (String (Py.digit_char (n / base ^ Z.of_nat (S k) mod base))
                   (Py.fixed_digits base (S k) n)).
    rewrite IH.
    change (Py.fixed_digits base (S k) (n / base))
      with (String (Py.digit_char (n / base / base ^ Z.of_nat k mod base))
                   (Py.fixed_digits base k (n / base))).
    rewrite append_cons. f_equal. f_equal. f_equal.
    rewrite pow_base_succ, Z.div_div; [reflexivity | lia | apply pow_base_pos].
Qed.

Lemma fixed_digits_small (k : nat) (n : Z) :
  (0 <= n < base)%Z ->
  Py.fixed_digits base (S k) n = Py.repeat_char "0" k ++ String (Py.digit_char n) "".
Proof.
  intros Hn. induction k as [|k IH].
  - change (String (Py.digit_char (n / base ^ 0 mod base)) "" = String (Py.digit_char n) "").
    rewrite Z.pow_0_r, Z.div_1_r, Z.mod_small by lia. reflexivity.
  - change (Py.fixed_digits base (S (S k)) n)
      with (String (Py.digit_char (n / base ^ Z.of_nat (S k) mod base))
                   (Py.fixed_digits base (S k) n)).
    rewrite IH.
    rewrite Z.div_small.
    + rewrite Z.mod_small by lia. reflexivity.
    + rewrite pow_base_succ. pose proof (pow_base_pos k). nia.
Qed.

Lemma fixed_digits_app (j k : nat) (n : Z) :
  Py.fixed_digits base (j + k) n
  = Py.fixed_digits base j (n / base ^ Z.of_nat k) ++ Py.fixed_digits base k n.
Proof.
  induction j as [|j IH]; [reflexivity|].
  change (String (Py.digit_char (n / base ^ Z.of_nat (j + k) mod base))
                 (Py.fixed_digits base (j + k) n)
          = String (Py.digit_char (n / base ^ Z.of_nat k / base ^ Z.of_nat j mod base))
                   (Py.fixed_digits base j (n / base ^ Z.of_nat k) ++ Py.fixed_digits base k n)).
  rewrite IH. f_equal. f_equal. f_equal.
  rewrite Z.div_div.
  - rewrite <- Z.pow_add_r by lia. f_equal. f_equal. lia.
  - pose proof (pow_base_pos k). lia.
  - apply pow_base_pos.
Qed.

(** [zfill] on the digits of a number gives the digits at fixed width. *)
Lemma pad_to_digits (f k : nat) (n : Z) :
  (0 <= n)%Z -> (n < base ^ Z.of_nat (S k))%Z -> (n < base ^ Z.of_nat (S f))%Z ->
  Py.repeat_char "0" (S k - String.length (Py.to_digits (S f) base n))
  ++ Py.to_digits (S f) base n
  = Py.fixed_digits base (S k) n.
Proof.
  revert k n. induction f as [|f IH]; intros k n Hn Hk Hf.
  - assert (n < base)%Z as Hlt by (rewrite pow_base_succ, Z.pow_0_r in Hf; lia).
    unfold Py.to_digits. apply Z.ltb_lt in Hlt as Hb. rewrite Hb.
    change (String.length (String (Py.digit_char n) "")) with 1%nat.
    replace (S k - 1)%nat with k by lia.
    symmetry. apply fixed_digits_small. lia.
  - change (Py.to_digits (S (S f)) base n)
      with (if (n <? base)%Z then String (Py.digit_char n) ""
            else Py.to_digits (S f) base (n / base) ++ String (Py.digit_char (n mod base)) "").
    destruct (n <? base)%Z eqn:Hb.
    + apply Z.ltb_lt in Hb.
      change (String.length (String (Py.digit_char n) "")) with 1%nat.
      replace (S k - 1)%nat with k by lia.
      symmetry. apply fixed_digits_small. lia.
    + apply Z.ltb_ge in Hb.
      destruct k as [|k].
      { rewrite pow_base_succ, Z.pow_0_r in Hk. lia. }
      rewrite length_app.
      change (String.length (String (Py.digit_char (n mod base)) "")) with 1%nat.
      replace (S (S k) - (String.length (Py.to_digits (S f) base (n / base)) + 1))%nat
        with (S k - String.length (Py.to_digits (S f) base (n / base)))%nat by lia.
      rewrite <- app_assoc, IH.
      * symmetry. apply fixed_digits_snoc.
      * apply Z.div_pos; lia.
      * apply Z.div_lt_upper_bound; [lia|]. now rewrite <- pow_base_succ.
      * apply Z.div_lt_upper_bound; [lia|]. now rewrite <- pow_base_succ.
Qed.

Lemma digits_fuel (n : Z) :
  (0 <= n)%Z -> (n < base ^ Z.of_nat (S (Z.to_nat (Z.log2 n))))%Z.
Proof.
  intros Hn.
  destruct (Z.eq_dec n 0%Z) as [->|Hne].
  - apply pow_base_pos.
  - pose proof (Z.log2_spec n ltac:(lia)) as [_ Hlog].
    pose proof (Z.log2_nonneg n).
    rewrite Nat2Z.inj_succ, Z2Nat.id by lia.
    eapply Z.lt_le_trans; [exact Hlog|].
    apply Z.pow_le_mono_l. lia.
Qed.

Lemma to_digits_head (f : nat) (n : Z) :
  (0 <= n)%Z ->
  exists d s, (0 <= d < base)%Z /\ Py.to_digits (S f) base n = String (Py.digit_char d) s.
Proof.
  revert n. induction f as [|f IH]; intros n Hn.
  - unfold Py.to_digits. destruct (n <? base)%Z eqn:Hb.
    + apply Z.ltb_lt in Hb. exists n, "". split; [lia | reflexivity].
    + exists (n mod base)%Z, "". split; [apply Z.mod_pos_bound; lia | reflexivity].
  - change (Py.to_digits (S (S f)) base n)
      with (if (n <? base)%Z then String (Py.digit_char n) ""
            else Py.to_digits (S f) base (n / base) ++ String (Py.digit_char (n mod base)) "").
    destruct (n <? base)%Z eqn:Hb.
    + apply Z.ltb_lt in Hb. exists n, "". split; [lia | reflexivity].
    + destruct (IH (n / base)%Z) as (d & s & Hd & ->); [apply Z.div_pos; lia|].
      exists d, (s ++ String (Py.digit_char (n mod base)) ""). split; [exact Hd | reflexivity].
Qed.

(** [digits(n).zfill(k + 1)] for a number of [k + 1] digits at most. *)
Lemma zfill_digits (k : nat) (n : Z) :
  (0 <= n)%Z -> (n < base ^ Z.of_nat (S k))%Z ->
  Py.zfill (S k) (Py.digits base n) = Py.fixed_digits base (S k) n.
Proof.
  intros Hn Hk. unfold Py.digits.
  rewrite <- (pad_to_digits (Z.to_nat (Z.log2 n)) k n Hn Hk (digits_fuel n Hn)).
  destruct (to_digits_head (Z.to_nat (Z.log2 n)) n Hn) as (d & s & Hd & Hs).
  unfold Py.zfill. rewrite Hs.
  rewrite digit_char_unsigned by lia. reflexivity.
Qed.

(** Reading digits at fixed width. *)
Lemma int_digits_fixed (k : nat) (n acc : Z) (after_digit : bool) (rest : string) :
  (0 <= n)%Z ->
  Py.int_digits base acc after_digit (Py.fixed_digits base (S k) n ++ rest)
  = Py.int_digits base (acc * base ^ Z.of_nat (S k) + n mod base ^ Z.of_nat (S k)) true rest.
Proof.
  intros Hn. revert acc after_digit. induction k as [|k IH]; intros acc after_digit.
  - change (Py.fixed_digits base 1 n ++ rest)
      with (String (Py.digit_char (n / base ^ 0 mod base)) rest).
    rewrite Z.pow_0_r, Z.div_1_r.
    pose proof (Z.mod_pos_bound n base ltac:(lia)) as Hd.
    unfold Py.int_digits; fold Py.int_digits.
    rewrite digit_char_plain, digit_value_char by lia.
    rewrite (proj2 (Z.ltb_lt _ _) (proj2 Hd)).
    rewrite pow_base_succ, Z.pow_0_r, Z.mul_1_r. reflexivity.
  - change (Py.fixed_digits base (S (S k)) n ++ rest)
      with (String (Py.digit_char (n / base ^ Z.of_nat (S k) mod base))
                   (Py.fixed_digits base (S k) n ++ rest)).
    pose proof (Z.mod_pos_bound (n / base ^ Z.of_nat (S k)) base ltac:(lia)) as Hd.
    unfold Py.int_digits; fold Py.int_digits.
    rewrite digit_char_plain, digit_value_char by lia.
    rewrite (proj2 (Z.ltb_lt _ _) (proj2 Hd)).
    rewrite IH. f_equal.
    rewrite (pow_base_succ (S k)).
    rewrite (Z.mul_comm base (base ^ Z.of_nat (S k))).
    rewrite (Z.rem_mul_r n (base ^ Z.of_nat (S k)) base);
      [|pose proof (pow_base_pos (S k)); lia | lia].
    ring.
Qed.

End Digits.

Lemma digit_char_not_space (d : Z) :
  (0 <= d < 36)%Z -> Py.is_space (Py.digit_char d) = false.
Proof.
  intros Hd. apply negb_true_iff.
  exact (below_forallb (fun d => negb (Py.is_space (Py.digit_char d))) 36 eq_refl d Hd).
Qed.

Lemma digit_char_not_x (d : Z) :
  (0 <= d < 16)%Z ->
  Ascii.eqb (Py.digit_char d) "x" || Ascii.eqb (Py.digit_char d) "X" = false.
Proof.
  intros Hd. apply negb_true_iff.
  exact (below_forallb
           (fun d => negb (Ascii.eqb (Py.digit_char d) "x" || Ascii.eqb (Py.digit_char d) "X"))
           16 eq_refl d Hd).
Qed.

Lemma rstrip_fixed_digits (base : Z) (k : nat) (n : Z) :
  (2 <= base <= 36)%Z ->
  Py.rstrip Py.is_space (Py.fixed_digits base k n) = Py.fixed_digits base k n.
Proof.
  intros Hbase. induction k as [|k IH]; [reflexivity|].
  change (Py.fixed_digits base (S k) n)
    with (String (Py.digit_char (n / base ^ Z.of_nat k mod base)) (Py.fixed_digits base k n)).
  unfold Py.rstrip; fold Py.rstrip. rewrite IH.
  pose proof (Z.mod_pos_bound (n / base ^ Z.of_nat k) base ltac:(lia)).
  destruct k as [|k].
  - change (Py.fixed_digits base 0 n) with "".
    rewrite digit_char_not_space by lia. reflexivity.
  - reflexivity.
Qed.

(** [int] on the sixteen-based digits of a number, at fixed width. *)
Lemma int_fixed_hex (k : nat) (n : Z) :
  (0 <= n)%Z ->
  Py.int (Py.fixed_digits 16 (S (S k)) n) 16 = Some (n mod 16 ^ Z.of_nat (S (S k)))%Z.
Proof.
  intros Hn. unfold Py.int, Py.strip.
  pose proof (Z.mod_pos_bound (n / 16 ^ Z.of_nat (S k)) 16 ltac:(lia)) as H1.
  pose proof (Z.mod_pos_bound (n / 16 ^ Z.of_nat k) 16 ltac:(lia)) as H2.
  assert (Py.lstrip Py.is_space (Py.fixed_digits 16 (S (S k)) n)
          = Py.fixed_digits 16 (S (S k)) n) as ->.
  { change (Py.fixed_digits 16 (S (S k)) n)
      with (String (Py.digit_char (n / 16 ^ Z.of_nat (S k) mod 16))
                   (Py.fixed_digits 16 (S k) n)).
    unfold Py.lstrip. now rewrite digit_char_not_space by lia. }
  rewrite rstrip_fixed_digits by lia.
  assert (Py.int_digits 16 0 false (Py.fixed_digits 16 (S (S k)) n)
          = Some (n mod 16 ^ Z.of_nat (S (S k)))%Z) as Hdigits.
  { rewrite <- (append_nil_r (Py.fixed_digits 16 (S (S k)) n)).
    now rewrite (int_digits_fixed 16 ltac:(lia) (S k) n 0 false "" Hn). }
  change (Py.fixed_digits 16 (S (S k)) n)
    with (String (Py.digit_char (n / 16 ^ Z.of_nat (S k) mod 16))
                 (String (Py.digit_char (n / 16 ^ Z.of_nat k mod 16))
                         (Py.fixed_digits 16 k n))) in *.
  pose proof (digit_char_unsigned (n / 16 ^ Z.of_nat (S k) mod 16) ltac:(lia)) as Hs.
  apply orb_false_iff in Hs as [Hplus Hminus].
  rewrite Hplus, Hminus.
  unfold Py.int_unsigned.
  pose proof (digit_char_not_x (n / 16 ^ Z.of_nat k mod 16) ltac:(lia)) as Hx.
  rewrite Hx.
  destruct (Ascii.eqb (Py.digit_char (n / 16 ^ Z.of_nat (S k) mod 16)) "0");
    cbn [negb andb orb Z.eqb]; [|exact Hdigits].
  rewrite !andb_false_r. exact Hdigits.
Qed.

(** *** Words *)

Lemma split_nonword_word (w : string) :
  Py.is_word_string w = true -> Py.split_nonword w = [w].
Proof.
  destruct w as [|c w]; [discriminate|].
  revert c. induction w as [|c' w IH]; intros c H.
  - cbn in H. rewrite andb_true_r in H. cbn. now rewrite H.
  - change (Py.is_word c && Py.word_chars (String c' w) = true) in H.
    apply andb_true_iff in H as [Hc Hw].
    change (Py.split_nonword (String c (String c' w)))
      with (if Py.is_word c then
              match Py.split_nonword (String c' w) with
              | w0 :: ws => String c w0 :: ws
              | [] => [String c ""]
              end
            else
              if Py.is_word c' then "" :: Py.split_nonword (String c' w)
              else Py.split_nonword (String c' w)).
    rewrite Hc, (IH c' Hw). reflexivity.
Qed.

(** A word, a separator, and a text that starts with a word character. *)
Lemma split_nonword_sep (w rest : string) (sep c : ascii) :
  Py.is_word_string w = true -> Py.is_word sep = false -> Py.is_word c = true ->
  Py.split_nonword (w ++ String sep (String c rest))
  = w :: Py.split_nonword (String c rest).
Proof.
  intros Hw Hsep Hc.
  destruct w as [|a w]; [discriminate|].
  revert a Hw. induction w as [|a' w IH]; intros a Hw.
  - cbn in Hw. rewrite andb_true_r in Hw.
    change (String a "" ++ String sep (String c rest))
      with (String a (String sep (String c rest))).
    change (Py.split_nonword (String a (String sep (String c rest))))
      with (if Py.is_word a then
              match (if Py.is_word sep then
                       match Py.split_nonword (String c rest) with
                       | w0 :: ws => String sep w0 :: ws
                       | [] => [String sep ""]
                       end
                     else
                       if Py.is_word c then "" :: Py.split_nonword (String c rest)
                       else Py.split_nonword (String c rest)) with
              | w0 :: ws => String a w0 :: ws
              | [] => [String a ""]
              end
            else
              if Py.is_word sep then "" :: Py.split_nonword (String sep (String c rest))
              else Py.split_nonword (String sep (String c rest))).
    now rewrite Hw, Hsep, Hc.
  - change (Py.is_word a && Py.word_chars (String a' w) = true) in Hw.
    apply andb_true_iff in Hw as [Ha Hw].
    change (String a (String a' w) ++ String sep (String c rest))
      with (String a (String a' w ++ String sep (String c rest))).
    change (String a' w ++ String sep (String c rest))
      with (String a' (w ++ String sep (String c rest))) at 1.
    change (Py.split_nonword (String a (String a' (w ++ String sep (String c rest)))))
      with (if Py.is_word a then
              match Py.split_nonword (String a' (w ++ String sep (String c rest))) with
              | w0 :: ws => String a w0 :: ws
              | [] => [String a ""]
              end
            else
              if Py.is_word a' then "" :: Py.split_nonword (String a' (w ++ String sep (String c rest)))
              else Py.split_nonword (String a' (w ++ String sep (String c rest)))).
    rewrite Ha.
    change (String a' (w ++ String sep (String c rest)))
      with (String a' w ++ String sep (String c rest)).
    rewrite (IH a' Hw). reflexivity.
Qed.

Lemma split_nonword_words (w1 w2 rest : string) :
  Py.is_word_string w1 = true -> Py.is_word_string w2 = true ->
  Py.split_nonword (w1 ++ "." ++ w2 ++ rest) = w1 :: Py.split_nonword (w2 ++ rest).
Proof.
  intros H1 H2.
  destruct w2 as [|c w2]; [discriminate|].
  assert (Py.is_word c = true) as Hc.
  { change (Py.is_word c && Py.word_chars w2 = true) in H2.
    now apply andb_true_iff in H2. }
  change (w1 ++ "." ++ String c w2 ++ rest) with (w1 ++ String "." (String c (w2 ++ rest))).
  change (String c w2 ++ rest) with (String c (w2 ++ rest)).
  now apply split_nonword_sep.
Qed.

(** *** [replace] *)

Lemma chars_app (a b : string) :
  list_ascii_of_string (a ++ b) = (list_ascii_of_string a ++ list_ascii_of_string b)%list.
Proof.
  induction a as [|c a IH]; [reflexivity|].
  rewrite append_cons. cbn [list_ascii_of_string]. now rewrite IH.
Qed.

(** [replace] brings in no character other than those of [new]. *)
Lemma replace_from_chars (old new : string) (skip : nat) (s : string) (c : ascii) :
  In c (list_ascii_of_string (Py.replace_from old new skip s)) ->
  In c (list_ascii_of_string s) \/ In c (list_ascii_of_string new).
Proof.
  revert skip. induction s as [|a s IH]; intros skip H.
  - now left.
  - destruct skip as [|k].
    + unfold Py.replace_from in H; fold Py.replace_from in H.
      destruct (String.prefix old (String a s)).
      * change (String.append new ?r) with (new ++ r) in H.
        rewrite chars_app in H. apply in_app_or in H as [H|H]; [now right|].
        destruct (IH _ H) as [H'|H']; [left; now right | now right].
      * destruct H as [->|H]; [left; now left|].
        destruct (IH _ H) as [H'|H']; [left; now right | now right].
    + cbn [Py.replace_from] in H.
      destruct (IH _ H) as [H'|H']; [left; now right | now right].
Qed.

(** The characters of an occurrence are dropped one by one. *)
Lemma replace_from_skip (old new a s : string) :
  Py.replace_from old new (String.length a) (a ++ s) = Py.replace_from old new 0 s.
Proof.
  induction a as [|c a IH]; [reflexivity|].
  rewrite append_cons. exact IH.
Qed.

(** An occurrence at the head is replaced. *)
Lemma replace_head (c : ascii) (old new s : string) :
  Py.replace (String c old ++ s) (String c old) new = new ++ Py.replace s (String c old) new.
Proof.
  unfold Py.replace.
  pose proof (startswith_app (String c old) s) as Hp. unfold Py.startswith in Hp.
  rewrite append_cons in *.
  unfold Py.replace_from at 1; fold Py.replace_from. rewrite Hp.
  change (String.length (String c old) - 1)%nat with (String.length old - 0)%nat.
  rewrite Nat.sub_0_r, replace_from_skip. reflexivity.
Qed.

(** A text without the first character of [old] passes unchanged. *)
Lemma replace_apart (c : ascii) (old new a s : string) :
  ~ In c (list_ascii_of_string a) ->
  Py.replace (a ++ s) (String c old) new = a ++ Py.replace s (String c old) new.
Proof.
  unfold Py.replace. induction a as [|x a IH]; intros Hc; [reflexivity|].
  rewrite !append_cons.
  unfold Py.replace_from at 1; fold Py.replace_from.
  assert (String.prefix (String c old) (String x (a ++ s)) = false) as ->.
  { cbn [String.prefix]. destruct (ascii_dec c x) as [->|_]; [|reflexivity].
    elim Hc. now left. }
  rewrite IH; [reflexivity|]. intros H. apply Hc. now right.
Qed.

Lemma replace_nothing (c : ascii) (old new a : string) :
  ~ In c (list_ascii_of_string a) -> Py.replace a (String c old) new = a.
Proof.
  intros Hc. rewrite <- (append_nil_r a) at 1.
  rewrite replace_apart by exact Hc. now rewrite append_nil_r.
Qed.

(** One occurrence, between two texts without the first character of
    [old]. *)
Lemma replace_once (c : ascii) (old new p s : string) :
  ~ In c (list_ascii_of_string p) -> ~ In c (list_ascii_of_string s) ->
  Py.replace (p ++ String c old ++ s) (String c old) new = p ++ new ++ s.
Proof.
  intros Hp Hs.
  rewrite replace_apart by exact Hp.
  rewrite replace_head, replace_nothing by exact Hs.
  reflexivity.
Qed.

Lemma upper_char_twice (a : ascii) : Py.upper_char (Py.upper_char a) = Py.upper_char a.
Proof. destruct a as [[] [] [] [] [] [] [] []]; reflexivity. Qed.

Lemma chars_upper (s : string) (c : ascii) :
  In c (list_ascii_of_string (Py.upper s)) -> Py.upper_char c = c.
Proof.
  induction s as [|a s IH]; [intros []|].
  cbn [Py.upper list_ascii_of_string In]. intros [<-|H]; [apply upper_char_twice | now apply IH].
Qed.

Lemma chars_translate (symbols : string) (u : ascii) (s : string) (c : ascii) :
  In c (list_ascii_of_string (Py.translate symbols u s)) ->
  c = u \/ (In c (list_ascii_of_string s) /\ ~ In c (list_ascii_of_string symbols)).
Proof.
  induction s as [|a s IH]; [intros []|].
  cbn [Py.translate list_ascii_of_string In]. intros [H|H].
  - destruct (existsb (Ascii.eqb a) (list_ascii_of_string symbols)) eqn:E; [now left|].
    right. subst c. split; [now left|].
    intros Hin. apply not_true_iff_false in E. apply E.
    apply existsb_exists. exists a. split; [exact Hin | apply Ascii.eqb_refl].
  - destruct (IH H) as [->|[H1 H2]]; [now left|]. right. split; [now right | exact H2].
Qed.

Lemma substring_app_skip (x s : string) (n m : nat) :
  String.substring (String.length x + n) m (x ++ s) = String.substring n m s.
Proof. induction x as [|c x IH]; [reflexivity | exact IH]. Qed.

(** What a text ends with is decided by its tail. *)
Lemma endswith_tail (x s p : string) :
  (String.length p <= String.length s)%nat ->
  Py.endswith (x ++ s) p = Py.endswith s p.
Proof.
  intros Hlen. unfold Py.endswith. rewrite length_app.
  replace (String.length p <=? String.length x + String.length s)%nat with true
    by (symmetry; apply Nat.leb_le; lia).
  replace (String.length p <=? String.length s)%nat with true
    by (symmetry; apply Nat.leb_le; lia).
  replace (String.length x + String.length s - String.length p)%nat
    with (String.length x + (String.length s - String.length p))%nat by lia.
  now rewrite substring_app_skip.
Qed.

(** *** [range] *)

Lemma range_lookup (a b : Z) (i : nat) :
  (i < Z.to_nat (b - a))%nat -> Py.range a b !! i = Some (a + Z.of_nat i)%Z.
Proof.
  intros Hi. unfold Py.range.
  change (map ?f ?l) with (f <$> l).
  rewrite list_lookup_fmap, lookup_seq_lt by exact Hi. reflexivity.
Qed.

Lemma map_seq_from {A} (f : nat -> A) (m n : nat) :
  map f (seq m n) = map (fun k => f (m + k)%nat) (seq 0 n).
Proof.
  revert m. induction n as [|n IH]; intros m; [reflexivity|].
  cbn [seq map]. f_equal; [f_equal; lia|].
  rewrite IH, <- seq_shift, map_map.
  apply map_ext. intros k. f_equal. lia.
Qed.

Lemma range_split (a b i : Z) :
  (a <= i < b)%Z -> Py.range a b = (Py.range a i ++ i :: Py.range (i + 1) b)%list.
Proof.
  intros Hi. unfold Py.range.
  replace (Z.to_nat (b - a)) with (Z.to_nat (i - a) + S (Z.to_nat (b - (i + 1))))%nat by lia.
  rewrite seq_app, map_app. f_equal.
  rewrite map_seq_from. cbn [seq map]. f_equal; [lia|].
  rewrite <- seq_shift, map_map.
  apply map_ext. intros k. lia.
Qed.

Lemma range_elem (a b j : Z) : In j (Py.range a b) <-> (a <= j < b)%Z.
Proof.
  unfold Py.range. rewrite in_map_iff. split.
  - intros (k & <- & Hk). apply in_seq in Hk. lia.
  - intros Hj. exists (Z.to_nat (j - a)). split; [lia|]. apply in_seq. lia.
Qed.

End PyFacts.

(** ** [nif_common.py] *)

Module NifCommonFacts.

Import NifCommon.
Local Open Scope string_scope.

Lemma startswith_differs (a b p : string) :
  String.length a = String.length p -> a <> p -> Py.startswith (a ++ b) p = false.
Proof.
  unfold Py.startswith. revert p.
  induction a as [|x a IH]; intros [|y p] Hlen Hne; simpl in *; try discriminate.
  - now elim Hne.
  - destruct (ascii_dec y x) as [->|_]; [|reflexivity].
    apply IH; [lia | congruence].
Qed.

Lemma blender_name_of_left (rest : string) :
  get_bone_name_for_blender ("Bip01 L " ++ rest) = "Bip01 " ++ rest ++ ".L".
Proof.
  unfold get_bone_name_for_blender.
  rewrite PyFacts.startswith_app.
  now rewrite (PyFacts.slice_from_app 8 "Bip01 L " rest).
Qed.

Lemma blender_name_of_right (rest : string) :
  get_bone_name_for_blender ("Bip01 R " ++ rest) = "Bip01 " ++ rest ++ ".R".
Proof.
  unfold get_bone_name_for_blender.
  rewrite (startswith_differs "Bip01 R " rest "Bip01 L ") by (reflexivity || discriminate).
  rewrite PyFacts.startswith_app.
  now rewrite (PyFacts.slice_from_app 8 "Bip01 R " rest).
Qed.

Lemma nif_name_of_left (rest : string) :
  get_bone_name_for_nif ("Bip01 " ++ rest ++ ".L") = "Bip01 L " ++ rest.
Proof.
  unfold get_bone_name_for_nif.
  rewrite PyFacts.startswith_app.
  rewrite (PyFacts.endswith_app3 "Bip01 " rest ".L" ".L") by reflexivity.
  cbn [String.eqb Ascii.eqb Bool.eqb].
  now rewrite (PyFacts.slice_between_app 6 2 "Bip01 " rest ".L").
Qed.

Lemma nif_name_of_right (rest : string) :
  get_bone_name_for_nif ("Bip01 " ++ rest ++ ".R") = "Bip01 R " ++ rest.
Proof.
  unfold get_bone_name_for_nif.
  rewrite PyFacts.startswith_app.
  rewrite (PyFacts.endswith_app3 "Bip01 " rest ".R" ".L") by reflexivity.
  rewrite (PyFacts.endswith_app3 "Bip01 " rest ".R" ".R") by reflexivity.
  cbn [String.eqb Ascii.eqb Bool.eqb].
  now rewrite (PyFacts.slice_between_app 6 2 "Bip01 " rest ".R").
Qed.

(** C10.  A bone name of the form ['Bip01 L <rest>'] or ['Bip01 R <rest>']
    is returned unchanged by [get_bone_name_for_blender] followed by
    [get_bone_name_for_nif], whatever [<rest>] is (the empty string
    included). *)
Theorem bip01_name_round_trip (rest : string) :
  get_bone_name_for_nif (get_bone_name_for_blender ("Bip01 L " ++ rest))
    = "Bip01 L " ++ rest
  /\
  get_bone_name_for_nif (get_bone_name_for_blender ("Bip01 R " ++ rest))
    = "Bip01 R " ++ rest.
Proof.
  split.
  - rewrite blender_name_of_left. apply nif_name_of_left.
  - rewrite blender_name_of_right. apply nif_name_of_right.
Qed.

Example bone_names_computed :
  get_bone_name_for_blender "Bip01 L Forearm" = "Bip01 Forearm.L" /\
  get_bone_name_for_nif "Bip01 Forearm.L" = "Bip01 L Forearm" /\
  get_bone_name_for_blender "NPC L Hand [LHnd]" = "NPC Hand [Hnd].L" /\
  get_bone_name_for_nif "NPC Hand [Hnd].L" = "NPC LHand [LHnd]".
Proof. repeat split; vm_compute; reflexivity. Qed.

(** *** Cycle mode *)

(** Only bits 1 and 2 of [flags] take part: [flags & 6] is one of 0, 2, 4, 6. *)
Lemma land_6_cases (flags : Z) :
  Z.land flags 6 = 0%Z \/ Z.land flags 6 = 2%Z \/
  Z.land flags 6 = 4%Z \/ Z.land flags 6 = 6%Z.
Proof.
  replace (Z.land flags 6) with (Z.land (flags mod 8) 6).
  - assert (Hr : (0 <= flags mod 8 < 8)%Z) by (apply Z.mod_pos_bound; lia).
    assert (Hc : (flags mod 8 = 0 \/ flags mod 8 = 1 \/ flags mod 8 = 2 \/
                  flags mod 8 = 3 \/ flags mod 8 = 4 \/ flags mod 8 = 5 \/
                  flags mod 8 = 6 \/ flags mod 8 = 7)%Z) by lia.
    destruct Hc as [H|[H|[H|[H|[H|[H|[H|H]]]]]]]; rewrite H; simpl; auto.
  - change 8%Z with (2 ^ 3)%Z. rewrite <- Z.land_ones by lia.
    rewrite <- Z.land_assoc. reflexivity.
Qed.

(** C8 (as amended).  [get_extend_from_flags] looks at [flags & 6] only.
    On a curve without a ['CYCLES'] modifier: [flags & 6 == 4] gives a
    clamped curve and no report; [flags & 6 == 0] gives a repeating curve
    and no report; the two remaining cases ([flags & 6] is 2 or 6) give
    constant extrapolation (clamped) and exactly one warning. *)
Theorem get_extend_from_flags_by_mask (b_fcurve : FCurve) (flags : Z) :
  has_cycles b_fcurve = false ->
  let '(v, reports) := get_extend_from_flags b_fcurve flags in
  (Z.land flags 6 = 4%Z -> cycle_mode_of v = Clamp /\ reports = []) /\
  (Z.land flags 6 = 0%Z -> cycle_mode_of v = Repeat /\ reports = []) /\
  (Z.land flags 6 = 2%Z \/ Z.land flags 6 = 6%Z ->
   cycle_mode_of v = Clamp /\
   reports = [(WARNING, "Unsupported cycle mode in nif, using clamped.")]).
Proof.
  intros Hplain. unfold get_extend_from_flags.
  assert (Hcyc : has_cycles (modifiers_new "CYCLES" b_fcurve) = true).
  { unfold has_cycles, modifiers_new. simpl. rewrite existsb_app. simpl.
    apply orb_true_r. }
  destruct (land_6_cases flags) as [H|[H|[H|H]]]; rewrite H; simpl;
    (split; [|split]); intros Hcase;
    try (exfalso; lia); try (destruct Hcase; exfalso; lia).
  - now rewrite Hcyc.
  - now split.
  - now rewrite Hplain.
  - now split.
Qed.

Lemma get_extend_from_flags_by_mask_witness :
  has_cycles plain_curve = false /\
  let '(v, reports) := get_extend_from_flags plain_curve 12 in
  (Z.land 12 6 = 4%Z -> cycle_mode_of v = Clamp /\ reports = []) /\
  (Z.land 12 6 = 0%Z -> cycle_mode_of v = Repeat /\ reports = []) /\
  (Z.land 12 6 = 2%Z \/ Z.land 12 6 = 6%Z ->
   cycle_mode_of v = Clamp /\
   reports = [(WARNING, "Unsupported cycle mode in nif, using clamped.")]).
Proof.
  split; [reflexivity|].
  apply (get_extend_from_flags_by_mask plain_curve 12). reflexivity.
Defined.

(** The mapping does not hold on the flag value as such: with [flags = 1]
    (bit [0b100] clear, value not [0b000]) the curve is made to repeat and
    nothing is reported; with [flags = 6] (bit [0b100] set) a warning is
    reported. *)
Lemma extend_mapping_as_specified_fails :
  ~ extend_mapping_as_specified plain_curve 1 /\
  ~ extend_mapping_as_specified plain_curve 6.
Proof.
  split; unfold extend_mapping_as_specified; simpl.
  - intros (_ & _ & H). destruct H as [H _]; [reflexivity | lia | discriminate H].
  - intros (H & _). destruct H as [_ H]; [reflexivity | discriminate H].
Qed.

Example get_extend_from_flags_computed :
  get_extend_from_flags plain_curve 4 = (Curve plain_curve, []) /\
  get_extend_from_flags plain_curve 8
    = (Curve {| modifiers := ["CYCLES"] |}, []) /\
  fst (get_extend_from_flags plain_curve 2) = Extrapolation "CONSTANT".
Proof. repeat split. Qed.

(** *** Version numbers *)

(** The two hexadecimal digits of a byte. *)
Lemma fixed_pair_congr (m m' : Z) :
  (m mod 256 = m' mod 256)%Z -> Py.fixed_digits 16 2 m = Py.fixed_digits 16 2 m'.
Proof.
  intros H.
  change (String (Py.digit_char (m / 16 ^ 1 mod 16))
                 (String (Py.digit_char (m / 16 ^ 0 mod 16)) "")
          = String (Py.digit_char (m' / 16 ^ 1 mod 16))
                   (String (Py.digit_char (m' / 16 ^ 0 mod 16)) "")).
  change (16 ^ 1)%Z with 16%Z. change (16 ^ 0)%Z with 1%Z.
  assert (m / 16 mod 16 = m' / 16 mod 16)%Z as -> by (Z.div_mod_to_equations; lia).
  assert (m / 1 mod 16 = m' / 1 mod 16)%Z as -> by (Z.div_mod_to_equations; lia).
  reflexivity.
Qed.

Lemma fixed_8_bytes (n : Z) :
  Py.fixed_digits 16 8 n
  = Py.fixed_digits 16 2 (n / 16777216) ++ Py.fixed_digits 16 2 (n / 65536)
    ++ Py.fixed_digits 16 2 (n / 256) ++ Py.fixed_digits 16 2 n.
Proof.
  change (Py.fixed_digits 16 8 n) with (Py.fixed_digits 16 (2 + 6) n).
  rewrite (PyFacts.fixed_digits_app 16 ltac:(lia) 2 6 n).
  change (Py.fixed_digits 16 6 n) with (Py.fixed_digits 16 (2 + 4) n).
  rewrite (PyFacts.fixed_digits_app 16 ltac:(lia) 2 4 n).
  change (Py.fixed_digits 16 4 n) with (Py.fixed_digits 16 (2 + 2) n).
  rewrite (PyFacts.fixed_digits_app 16 ltac:(lia) 2 2 n).
  reflexivity.
Qed.

Lemma byte_str_int (a : Z) : (0 <= a < 256)%Z -> Py.int (Py.str a) 10 = Some a.
Proof.
  intros Ha.
  pose proof (PyFacts.below_forallb
                (fun a => match Py.int (Py.str a) 10 with
                          | Some a' => (a' =? a)%Z
                          | None => false
                          end) 256 eq_refl a Ha) as H.
  cbv beta in H. destruct (Py.int (Py.str a) 10); [|discriminate].
  apply Z.eqb_eq in H. now subst.
Qed.

Lemma byte_hex_zfill (a : Z) :
  (0 <= a < 256)%Z ->
  Py.zfill 2 (Py.slice_from 2 (Py.hex a)) = Py.fixed_digits 16 2 a.
Proof.
  intros Ha. apply String.eqb_eq.
  exact (PyFacts.below_forallb
           (fun a => String.eqb (Py.zfill 2 (Py.slice_from 2 (Py.hex a)))
                                (Py.fixed_digits 16 2 a)) 256 eq_refl a Ha).
Qed.

Lemma byte_str_word (a : Z) : (0 <= a < 256)%Z -> Py.is_word_string (Py.str a) = true.
Proof.
  intros Ha.
  exact (PyFacts.below_forallb (fun a => Py.is_word_string (Py.str a)) 256 eq_refl a Ha).
Qed.

Lemma byte_hex_pair (a : Z) :
  (0 <= a < 256)%Z -> Py.int ("0x" ++ Py.fixed_digits 16 2 a) 0 = Some a.
Proof.
  intros Ha.
  pose proof (PyFacts.below_forallb
                (fun a => match Py.int ("0x" ++ Py.fixed_digits 16 2 a) 0 with
                          | Some a' => (a' =? a)%Z
                          | None => false
                          end) 256 eq_refl a Ha) as H.
  cbv beta in H. destruct (Py.int ("0x" ++ Py.fixed_digits 16 2 a) 0); [|discriminate].
  apply Z.eqb_eq in H. now subst.
Qed.

Lemma hex_pair_byte (m : Z) (rest : string) :
  hex_pair (Py.fixed_digits 16 2 m ++ rest) = inr (m mod 256)%Z.
Proof.
  unfold hex_pair.
  assert (Py.slice_to 2 (Py.fixed_digits 16 2 m ++ rest) = Py.fixed_digits 16 2 m) as ->.
  { change (Py.fixed_digits 16 2 m)
      with (String (Py.digit_char (m / 16 ^ 1 mod 16))
                   (String (Py.digit_char (m / 16 ^ 0 mod 16)) "")).
    unfold Py.slice_to. now destruct rest. }
  rewrite (fixed_pair_congr m (m mod 256)) by (now rewrite Z.mod_mod).
  rewrite byte_hex_pair by (apply Z.mod_pos_bound; lia).
  reflexivity.
Qed.

(** The version number below [2^32] as text: its four bytes in decimal. *)
Lemma hex_to_dec_bytes (n : Z) :
  (0 <= n < 4294967296)%Z ->
  hex_to_dec n
  = inr (Py.str (n / 16777216 mod 256) ++ "." ++ Py.str (n / 65536 mod 256)
         ++ "." ++ Py.str (n / 256 mod 256) ++ "." ++ Py.str (n mod 256)).
Proof.
  intros Hn. unfold hex_to_dec, Py.hex.
  replace (n <? 0)%Z with false by (symmetry; apply Z.ltb_ge; lia).
  change (String.append "0x" (Py.digits 16 n)) with ("0x" ++ Py.digits 16 n).
  rewrite (PyFacts.slice_from_app 2 "0x" (Py.digits 16 n) eq_refl).
  rewrite (PyFacts.zfill_digits 16 ltac:(lia) 7 n) by (change (16 ^ Z.of_nat 8)%Z with 4294967296%Z; lia).
  rewrite fixed_8_bytes.
  set (P := Py.fixed_digits 16 2).
  rewrite (hex_pair_byte (n / 16777216)).
  rewrite (PyFacts.slice_from_app 2 (P (n / 16777216)%Z) _ (PyFacts.length_fixed_digits 16 2 _)).
  rewrite (hex_pair_byte (n / 65536)).
  rewrite <- (PyFacts.app_assoc (P (n / 16777216)%Z) (P (n / 65536)%Z)).
  rewrite (PyFacts.slice_from_app 4 (P (n / 16777216)%Z ++ P (n / 65536)%Z) _)
    by (rewrite PyFacts.length_app; unfold P; now rewrite !PyFacts.length_fixed_digits).
  rewrite (hex_pair_byte (n / 256)).
  rewrite <- (PyFacts.app_assoc (P (n / 16777216)%Z ++ P (n / 65536)%Z) (P (n / 256)%Z)).
  rewrite (PyFacts.slice_from_app 6 ((P (n / 16777216)%Z ++ P (n / 65536)%Z) ++ P (n / 256)%Z) _)
    by (rewrite !PyFacts.length_app; unfold P; now rewrite !PyFacts.length_fixed_digits).
  rewrite <- (PyFacts.append_nil_r (P n)).
  rewrite (hex_pair_byte n).
  reflexivity.
Qed.

(** The text of four bytes as a version number. *)
Lemma dec_to_hex_bytes (a b c d : Z) :
  (0 <= a < 256)%Z -> (0 <= b < 256)%Z -> (0 <= c < 256)%Z -> (0 <= d < 256)%Z ->
  dec_to_hex (Py.str a ++ "." ++ Py.str b ++ "." ++ Py.str c ++ "." ++ Py.str d)
  = inr (a * 16777216 + b * 65536 + c * 256 + d)%Z.
Proof.
  intros Ha Hb Hc Hd. unfold dec_to_hex.
  pose proof (byte_str_word a Ha) as Wa. pose proof (byte_str_word b Hb) as Wb.
  pose proof (byte_str_word c Hc) as Wc. pose proof (byte_str_word d Hd) as Wd.
  rewrite (PyFacts.split_nonword_words (Py.str a) (Py.str b) _ Wa Wb).
  rewrite (PyFacts.split_nonword_words (Py.str b) (Py.str c) _ Wb Wc).
  rewrite <- (PyFacts.append_nil_r (Py.str d)).
  rewrite (PyFacts.split_nonword_words (Py.str c) (Py.str d) _ Wc Wd).
  rewrite PyFacts.append_nil_r, (PyFacts.split_nonword_word _ Wd).
  unfold hex_part.
  rewrite !byte_str_int, !byte_hex_zfill by assumption.
  set (N := (a * 16777216 + b * 65536 + c * 256 + d)%Z).
  assert (Py.fixed_digits 16 2 a ++ Py.fixed_digits 16 2 b
          ++ Py.fixed_digits 16 2 c ++ Py.fixed_digits 16 2 d
          = Py.fixed_digits 16 8 N) as ->.
  { rewrite fixed_8_bytes.
    rewrite (fixed_pair_congr (N / 16777216) a) by (unfold N; Z.div_mod_to_equations; lia).
    rewrite (fixed_pair_congr (N / 65536) b) by (unfold N; Z.div_mod_to_equations; lia).
    rewrite (fixed_pair_congr (N / 256) c) by (unfold N; Z.div_mod_to_equations; lia).
    rewrite (fixed_pair_congr N d) by (unfold N; Z.div_mod_to_equations; lia).
    reflexivity. }
  rewrite (PyFacts.int_fixed_hex 6 N) by (unfold N; lia).
  change (16 ^ Z.of_nat 8)%Z with 4294967296%Z.
  rewrite Z.mod_small by (unfold N; lia).
  reflexivity.
Qed.

(** X3.  A version number that fits four bytes ([0 <= n < 2^32]) is
    turned into text by [hex_to_dec], and [dec_to_hex] reads the number
    back from that text. *)
Theorem version_number_round_trip (n : Z) :
  (0 <= n < 4294967296)%Z ->
  exists text, hex_to_dec n = inr text /\ dec_to_hex text = inr n.
Proof.
  intros Hn. eexists. split; [apply hex_to_dec_bytes; exact Hn|].
  rewrite dec_to_hex_bytes by (apply Z.mod_pos_bound; lia).
  f_equal. Z.div_mod_to_equations. lia.
Qed.

Lemma version_number_round_trip_witness :
  exists text, hex_to_dec 0x14020007 = inr text /\ dec_to_hex text = inr 0x14020007%Z.
Proof. apply (version_number_round_trip 0x14020007). lia. Defined.

(** X4.  The text [a.b.c.d] of four numbers between 0 and 255, each
    written as [str] writes it, is read as a number by [dec_to_hex], and
    [hex_to_dec] turns that number into the same text again. *)
Theorem version_text_round_trip (a b c d : Z) :
  (0 <= a < 256)%Z -> (0 <= b < 256)%Z -> (0 <= c < 256)%Z -> (0 <= d < 256)%Z ->
  exists n,
    dec_to_hex (Py.str a ++ "." ++ Py.str b ++ "." ++ Py.str c ++ "." ++ Py.str d) = inr n /\
    hex_to_dec n = inr (Py.str a ++ "." ++ Py.str b ++ "." ++ Py.str c ++ "." ++ Py.str d).
Proof.
  intros Ha Hb Hc Hd. eexists. split; [now apply dec_to_hex_bytes|].
  rewrite hex_to_dec_bytes by lia.
  replace ((a * 16777216 + b * 65536 + c * 256 + d) / 16777216 mod 256)%Z with a
    by (Z.div_mod_to_equations; lia).
  replace ((a * 16777216 + b * 65536 + c * 256 + d) / 65536 mod 256)%Z with b
    by (Z.div_mod_to_equations; lia).
  replace ((a * 16777216 + b * 65536 + c * 256 + d) / 256 mod 256)%Z with c
    by (Z.div_mod_to_equations; lia).
  replace ((a * 16777216 + b * 65536 + c * 256 + d) mod 256)%Z with d
    by (Z.div_mod_to_equations; lia).
  reflexivity.
Qed.

Lemma version_text_round_trip_witness :
  exists n, dec_to_hex "20.2.0.7" = inr n /\ hex_to_dec n = inr "20.2.0.7".
Proof. apply (version_text_round_trip 20 2 0 7); lia. Defined.

Example version_numbers_computed :
  hex_to_dec 0x14020007 = inr "20.2.0.7" /\
  dec_to_hex "20.2.0.7" = inr 0x14020007%Z /\
  hex_to_dec (-1) = inl ValueError /\
  hex_to_dec 0x100000000 = inr "16.0.0.0" /\
  dec_to_hex "20.2.0" = inl ValueError /\
  dec_to_hex "256.0.0.0" = inr 0x100000000%Z.
Proof. repeat split; vm_compute; reflexivity. Qed.

(** *** Game names *)

(** X5.  The name that [get_game_to_trans] makes of a game name holds
    none of the characters of [symbols] and no small ASCII letter. *)
Theorem game_name_has_no_symbol (gname : string) :
  List.Forall (fun c => ~ In c (list_ascii_of_string symbols) /\ Py.upper_char c = c)
              (list_ascii_of_string (get_game_to_trans gname)).
Proof.
  apply List.Forall_forall. intros c Hc.
  unfold get_game_to_trans, Py.replace in Hc.
  assert (c = "_"%char \/
          In c (list_ascii_of_string (Py.translate symbols "_" (Py.upper gname)))) as [->|H].
  { apply PyFacts.replace_from_chars in Hc as [H|H]; [now right|].
    left. cbn in H. now destruct H as [<-|[]]. }
  - split; [|reflexivity].
    vm_compute. intuition discriminate.
  - apply PyFacts.chars_translate in H as [->|[H1 H2]].
    + split; [|reflexivity]. vm_compute. intuition discriminate.
    + split; [exact H2 | now apply PyFacts.chars_upper in H1].
Qed.

Example game_names_computed :
  get_game_to_trans "Sid Meier's Railroads" = "SID_MEIER_S_RAILROADS" /\
  get_game_to_trans "Fallout 3" = "FALLOUT_3" /\
  get_game_to_trans "a - b" = "A__B".
Proof. repeat split; vm_compute; reflexivity. Qed.

(** *** Bone names, the other way round *)

(** X6.  A Blender bone name of the form ['Bip01 <rest>.L'] or
    ['Bip01 <rest>.R'] is returned unchanged by [get_bone_name_for_nif]
    followed by [get_bone_name_for_blender]. *)
Theorem bip01_blender_name_round_trip (rest : string) :
  get_bone_name_for_blender (get_bone_name_for_nif ("Bip01 " ++ rest ++ ".L"))
    = "Bip01 " ++ rest ++ ".L"
  /\
  get_bone_name_for_blender (get_bone_name_for_nif ("Bip01 " ++ rest ++ ".R"))
    = "Bip01 " ++ rest ++ ".R".
Proof.
  split.
  - rewrite nif_name_of_left. apply blender_name_of_left.
  - rewrite nif_name_of_right. apply blender_name_of_right.
Qed.

Ltac no_char :=
  rewrite ?PyFacts.chars_app, ?in_app_iff;
  cbn [list_ascii_of_string In];
  rewrite ?PyFacts.chars_app, ?in_app_iff;
  cbn [list_ascii_of_string In];
  intuition (try discriminate);
  match goal with
  | H : plain ?s, H' : In _ (list_ascii_of_string ?s) |- _ =>
      destruct (H _ H') as (? & ? & ?); congruence
  end.

Lemma npc_blender_name_of_left (a b : string) :
  plain a -> plain b ->
  get_bone_name_for_blender ("NPC L " ++ a ++ " [L" ++ b ++ "]")
  = "NPC " ++ a ++ " [" ++ b ++ "].L".
Proof.
  intros Ha Hb. unfold get_bone_name_for_blender.
  change (Py.startswith ("NPC L " ++ a ++ " [L" ++ b ++ "]") "Bip01 L ") with false.
  change (Py.startswith ("NPC L " ++ a ++ " [L" ++ b ++ "]") "Bip01 R ") with false.
  rewrite PyFacts.startswith_app.
  assert (Py.endswith ("NPC L " ++ a ++ " [L" ++ b ++ "]") "]" = true) as ->.
  { rewrite !PyFacts.endswith_tail by (rewrite ?PyFacts.length_app; cbn [String.length]; lia).
    reflexivity. }
  cbv beta iota zeta. cbn [andb].
  assert (Py.replace ("NPC L " ++ a ++ " [L" ++ b ++ "]") "NPC L" "NPC"
          = "NPC " ++ a ++ " [L" ++ b ++ "]") as ->.
  { exact (PyFacts.replace_once "N" "PC L" "NPC" "" (" " ++ a ++ " [L" ++ b ++ "]")
             ltac:(no_char) ltac:(no_char)). }
  assert (Py.replace ("NPC " ++ a ++ " [L" ++ b ++ "]") "[L" "["
          = "NPC " ++ a ++ " [" ++ b ++ "]") as ->.
  { pose proof (PyFacts.replace_once "[" "L" "[" ("NPC " ++ a ++ " ") (b ++ "]")
                  ltac:(no_char) ltac:(no_char)) as H.
    rewrite !PyFacts.app_assoc in H. exact H. }
  pose proof (PyFacts.replace_once "]" "" "].L" ("NPC " ++ a ++ " [" ++ b) ""
                ltac:(no_char) ltac:(intros [])) as H.
  rewrite !PyFacts.app_assoc in H. exact H.
Qed.

Lemma npc_blender_name_of_right (a b : string) :
  plain a -> plain b ->
  get_bone_name_for_blender ("NPC R " ++ a ++ " [R" ++ b ++ "]")
  = "NPC " ++ a ++ " [" ++ b ++ "].R".
Proof.
  intros Ha Hb. unfold get_bone_name_for_blender.
  change (Py.startswith ("NPC R " ++ a ++ " [R" ++ b ++ "]") "Bip01 L ") with false.
  change (Py.startswith ("NPC R " ++ a ++ " [R" ++ b ++ "]") "Bip01 R ") with false.
  change (Py.startswith ("NPC R " ++ a ++ " [R" ++ b ++ "]") "NPC L ") with false.
  rewrite PyFacts.startswith_app.
  assert (Py.endswith ("NPC R " ++ a ++ " [R" ++ b ++ "]") "]" = true) as ->.
  { rewrite !PyFacts.endswith_tail by (rewrite ?PyFacts.length_app; cbn [String.length]; lia).
    reflexivity. }
  cbv beta iota zeta. cbn [andb].
  assert (Py.replace ("NPC R " ++ a ++ " [R" ++ b ++ "]") "NPC R" "NPC"
          = "NPC " ++ a ++ " [R" ++ b ++ "]") as ->.
  { exact (PyFacts.replace_once "N" "PC R" "NPC" "" (" " ++ a ++ " [R" ++ b ++ "]")
             ltac:(no_char) ltac:(no_char)). }
  assert (Py.replace ("NPC " ++ a ++ " [R" ++ b ++ "]") "[R" "["
          = "NPC " ++ a ++ " [" ++ b ++ "]") as ->.
  { pose proof (PyFacts.replace_once "[" "R" "[" ("NPC " ++ a ++ " ") (b ++ "]")
                  ltac:(no_char) ltac:(no_char)) as H.
    rewrite !PyFacts.app_assoc in H. exact H. }
  pose proof (PyFacts.replace_once "]" "" "].R" ("NPC " ++ a ++ " [" ++ b) ""
                ltac:(no_char) ltac:(intros [])) as H.
  rewrite !PyFacts.app_assoc in H. exact H.
Qed.

Lemma npc_nif_name_of_left (a b : string) :
  plain a -> plain b ->
  get_bone_name_for_nif ("NPC " ++ a ++ " [" ++ b ++ "].L")
  = "NPC L" ++ a ++ " [L" ++ b ++ "]".
Proof.
  intros Ha Hb. unfold get_bone_name_for_nif.
  change (Py.startswith ("NPC " ++ a ++ " [" ++ b ++ "].L") "Bip01 ") with false.
  rewrite PyFacts.startswith_app.
  assert (Py.endswith ("NPC " ++ a ++ " [" ++ b ++ "].L") "].L" = true) as ->.
  { rewrite !PyFacts.endswith_tail by (rewrite ?PyFacts.length_app; cbn [String.length]; lia).
    reflexivity. }
  cbv beta iota zeta. cbn [andb].
  assert (Py.replace ("NPC " ++ a ++ " [" ++ b ++ "].L") "NPC " "NPC L"
          = "NPC L" ++ a ++ " [" ++ b ++ "].L") as ->.
  { exact (PyFacts.replace_once "N" "PC " "NPC L" "" (a ++ " [" ++ b ++ "].L")
             ltac:(no_char) ltac:(no_char)). }
  assert (Py.replace ("NPC L" ++ a ++ " [" ++ b ++ "].L") "[" "[L"
          = "NPC L" ++ a ++ " [L" ++ b ++ "].L") as ->.
  { pose proof (PyFacts.replace_once "[" "" "[L" ("NPC L" ++ a ++ " ") (b ++ "].L")
                  ltac:(no_char) ltac:(no_char)) as H.
    rewrite !PyFacts.app_assoc in H. exact H. }
  pose proof (PyFacts.replace_once "]" ".L" "]" ("NPC L" ++ a ++ " [L" ++ b) ""
                ltac:(no_char) ltac:(intros [])) as H.
  rewrite !PyFacts.app_assoc in H. exact H.
Qed.

Lemma npc_nif_name_of_right (a b : string) :
  plain a -> plain b ->
  get_bone_name_for_nif ("NPC " ++ a ++ " [" ++ b ++ "].R")
  = "NPC R" ++ a ++ " [R" ++ b ++ "]".
Proof.
  intros Ha Hb. unfold get_bone_name_for_nif.
  change (Py.startswith ("NPC " ++ a ++ " [" ++ b ++ "].R") "Bip01 ") with false.
  rewrite PyFacts.startswith_app.
  assert (Py.endswith ("NPC " ++ a ++ " [" ++ b ++ "].R") "].L" = false) as ->.
  { rewrite !PyFacts.endswith_tail by (rewrite ?PyFacts.length_app; cbn [String.length]; lia).
    reflexivity. }
  assert (Py.endswith ("NPC " ++ a ++ " [" ++ b ++ "].R") "].R" = true) as ->.
  { rewrite !PyFacts.endswith_tail by (rewrite ?PyFacts.length_app; cbn [String.length]; lia).
    reflexivity. }
  cbv beta iota zeta. cbn [andb].
  assert (Py.replace ("NPC " ++ a ++ " [" ++ b ++ "].R") "NPC " "NPC R"
          = "NPC R" ++ a ++ " [" ++ b ++ "].R") as ->.
  { exact (PyFacts.replace_once "N" "PC " "NPC R" "" (a ++ " [" ++ b ++ "].R")
             ltac:(no_char) ltac:(no_char)). }
  assert (Py.replace ("NPC R" ++ a ++ " [" ++ b ++ "].R") "[" "[R"
          = "NPC R" ++ a ++ " [R" ++ b ++ "].R") as ->.
  { pose proof (PyFacts.replace_once "[" "" "[R" ("NPC R" ++ a ++ " ") (b ++ "].R")
                  ltac:(no_char) ltac:(no_char)) as H.
    rewrite !PyFacts.app_assoc in H. exact H. }
  pose proof (PyFacts.replace_once "]" ".R" "]" ("NPC R" ++ a ++ " [R" ++ b) ""
                ltac:(no_char) ltac:(intros [])) as H.
  rewrite !PyFacts.app_assoc in H. exact H.
Qed.

(** X7.  The [NPC] names of the form ['NPC L <a> [L<b>]'] (and the same
    with [R]), where [<a>] and [<b>] hold none of the characters [N],
    [[] and []], do not come back from [get_bone_name_for_blender]
    followed by [get_bone_name_for_nif]: the blank after the side letter
    is lost (['NPC L Hand [LHnd]'] becomes ['NPC LHand [LHnd]']). *)
Theorem npc_name_loses_blank (a b : string) :
  plain a -> plain b ->
  get_bone_name_for_nif (get_bone_name_for_blender ("NPC L " ++ a ++ " [L" ++ b ++ "]"))
    = "NPC L" ++ a ++ " [L" ++ b ++ "]"
  /\
  get_bone_name_for_nif (get_bone_name_for_blender ("NPC R " ++ a ++ " [R" ++ b ++ "]"))
    = "NPC R" ++ a ++ " [R" ++ b ++ "]".
Proof.
  intros Ha Hb. split.
  - rewrite npc_blender_name_of_left by assumption. now apply npc_nif_name_of_left.
  - rewrite npc_blender_name_of_right by assumption. now apply npc_nif_name_of_right.
Qed.

Lemma npc_name_loses_blank_witness :
  get_bone_name_for_nif (get_bone_name_for_blender "NPC L Hand [LHnd]") = "NPC LHand [LHnd]"
  /\
  get_bone_name_for_nif (get_bone_name_for_blender "NPC R Hand [RHnd]") = "NPC RHand [RHnd]".
Proof.
  apply (npc_name_loses_blank "Hand" "Hnd");
    intros c H; cbn in H; intuition (subst; discriminate).
Defined.

(** *** Havok materials *)

Lemma havok_index_lookup (l : list string) :
  forall j k, NoDup l -> l !! j = Some k -> Havok.index k l = inr j.
Proof.
  induction l as [|y l IH]; intros j k Hnd Hj; [discriminate Hj|].
  apply NoDup_cons in Hnd as [Hy Hnd]. destruct j as [|j]; simpl in *.
  - injection Hj as ->. now rewrite String.eqb_refl.
  - assert (y <> k) as Hne.
    { intros ->. apply Hy. now apply list_elem_of_lookup_2 in Hj. }
    apply String.eqb_neq in Hne. rewrite Hne. now rewrite (IH j k Hnd Hj).
Qed.

(** The place [l[i]] is read from serves every list of that length. *)
Lemma havok_item_place {A} (l : list A) (i : Z) (a : A) :
  Havok.item l i = inr a ->
  exists j, l !! j = Some a /\
            forall B (l' : list B) b,
              length l' = length l -> l' !! j = Some b -> Havok.item l' i = inr b.
Proof.
  unfold Havok.item. intros H.
  destruct (_ <? 0)%Z eqn:Hneg in H; [discriminate|].
  destruct (l !! _) as [a'|] eqn:Hj in H; [|discriminate].
  injection H as ->. eexists. split; [exact Hj|].
  intros B l' b Hlen Hb. rewrite Hlen, Hneg, Hb. reflexivity.
Qed.

(** A material stored from its number is read back as the value of that
    number. *)
Lemma havok_material_of_item (e : Havok.enum) (i : Z) (key layer : string) :
  Havok.well_formed e ->
  Havok.item (Havok.enumkeys e) i = inr key ->
  exists v, Havok.item (Havok.enumvalues e) i = inr v /\
            Havok.material_of e key layer = inr (v, layer).
Proof.
  intros [Hnd Hlen] Hkey.
  destruct (havok_item_place _ _ _ Hkey) as (j & Hj & Hplace).
  destruct (lookup_lt_is_Some_2 (Havok.enumvalues e) j) as [v Hv].
  { rewrite Hlen. now apply lookup_lt_Some in Hj. }
  exists v. split; [now apply (Hplace Z _ v)|].
  unfold Havok.material_of. rewrite (havok_index_lookup _ j key Hnd Hj).
  unfold Havok.item.
  assert ((Z.of_nat j <? 0)%Z = false) as Hplace' by (apply Z.ltb_ge; lia).
  now rewrite !Hplace', Nat2Z.id, Hv.
Qed.

(** X28.  For an object that carries the version of the file it was
    imported from, and enumerations that name each value once:
    [get_havok_material] stores the name of material number
    [material_item] in the field of the game (Skyrim for version 20.2.0.7
    with user versions 12 and 83, Fallout 3 for 20.2.0.7 with 11 and 34,
    Oblivion for any other version), and [set_havok_material] on the
    result returns the value of that number together with the layer of
    the same game. *)
Theorem havok_material_round_trip
        (SkyrimHavokMaterial Fallout3HavokMaterial OblivionHavokMaterial : Havok.enum)
        (self : Havok.Common) (niftools_item : Havok.niftools)
        (material_item : Z) (collision_item : Havok.nifcollision) (key : string) :
  Havok.same_version self niftools_item ->
  Havok.well_formed SkyrimHavokMaterial ->
  Havok.well_formed Fallout3HavokMaterial ->
  Havok.well_formed OblivionHavokMaterial ->
  (Havok.nif_version niftools_item = "20.2.0.7" ->
   Havok.user_version niftools_item = 12%Z ->
   Havok.user_version_2 niftools_item = 83%Z ->
   Havok.item (Havok.enumkeys SkyrimHavokMaterial) material_item = inr key ->
   exists c v,
     Havok.get_havok_material SkyrimHavokMaterial Fallout3HavokMaterial
       OblivionHavokMaterial self material_item collision_item = inr c /\
     Havok.skyrim_havok_material c = key /\
     Havok.item (Havok.enumvalues SkyrimHavokMaterial) material_item = inr v /\
     Havok.set_havok_material SkyrimHavokMaterial Fallout3HavokMaterial
       OblivionHavokMaterial niftools_item c
     = inr (v, Havok.skyrim_layer collision_item)) /\
  (Havok.nif_version niftools_item = "20.2.0.7" ->
   Havok.user_version niftools_item = 11%Z ->
   Havok.user_version_2 niftools_item = 34%Z ->
   Havok.item (Havok.enumkeys Fallout3HavokMaterial) material_item = inr key ->
   exists c v,
     Havok.get_havok_material SkyrimHavokMaterial Fallout3HavokMaterial
       OblivionHavokMaterial self material_item collision_item = inr c /\
     Havok.fallout3_havok_material c = key /\
     Havok.item (Havok.enumvalues Fallout3HavokMaterial) material_item = inr v /\
     Havok.set_havok_material SkyrimHavokMaterial Fallout3HavokMaterial
       OblivionHavokMaterial niftools_item c
     = inr (v, Havok.fallout3_layer collision_item)) /\
  (Havok.nif_version niftools_item <> "20.2.0.7" ->
   Havok.nif_version niftools_item <> "" ->
   Havok.item (Havok.enumkeys OblivionHavokMaterial) material_item = inr key ->
   exists c v,
     Havok.get_havok_material SkyrimHavokMaterial Fallout3HavokMaterial
       OblivionHavokMaterial self material_item collision_item = inr c /\
     Havok.oblivion_havok_material c = key /\
     Havok.item (Havok.enumvalues OblivionHavokMaterial) material_item = inr v /\
     Havok.set_havok_material SkyrimHavokMaterial Fallout3HavokMaterial
       OblivionHavokMaterial niftools_item c
     = inr (v, Havok.oblivion_layer collision_item)).
Proof.
  intros (Hversion & Huser & Huser2) Hskyrim Hfallout Hoblivion.
  unfold Havok.get_havok_material, Havok.set_havok_material.
  rewrite Hversion, Huser, Huser2.
  split; [|split].
  - intros -> -> -> Hkey. simpl. rewrite Hkey.
    destruct (havok_material_of_item _ _ key (Havok.skyrim_layer collision_item)
                Hskyrim Hkey) as (v & Hv & Hset).
    eexists _, v. split; [reflexivity|]. simpl. auto.
  - intros -> -> -> Hkey. simpl. rewrite Hkey.
    destruct (havok_material_of_item _ _ key (Havok.fallout3_layer collision_item)
                Hfallout Hkey) as (v & Hv & Hset).
    eexists _, v. split; [reflexivity|]. simpl. auto.
  - intros Hother Hsome Hkey.
    destruct (havok_material_of_item _ _ key (Havok.oblivion_layer collision_item)
                Hoblivion Hkey) as (v & Hv & Hset).
    apply String.eqb_neq in Hother, Hsome. simpl. rewrite Hother, Hsome, Hkey. simpl.
    eexists _, v. split; [reflexivity|]. simpl. auto.
Qed.

Lemma sample_materials_well_formed : Havok.well_formed Havok.sample_materials.
Proof.
  split; [|reflexivity].
  apply (bool_decide_eq_true_1 (NoDup (Havok.enumkeys Havok.sample_materials))).
  vm_compute. reflexivity.
Qed.

Lemma havok_material_round_trip_witness :
  exists c,
    Havok.get_havok_material Havok.sample_materials Havok.sample_materials
      Havok.sample_materials Havok.skyrim (-1) Havok.no_collision = inr c /\
    Havok.skyrim_havok_material c = "MAT_STONE" /\
    Havok.set_havok_material Havok.sample_materials Havok.sample_materials
      Havok.sample_materials Havok.skyrim_object c = inr (20%Z, "STATIC").
Proof.
  destruct (havok_material_round_trip Havok.sample_materials Havok.sample_materials
              Havok.sample_materials Havok.skyrim Havok.skyrim_object (-1)
              Havok.no_collision "MAT_STONE")
    as (Hskyrim & _).
  - repeat split.
  - exact sample_materials_well_formed.
  - exact sample_materials_well_formed.
  - exact sample_materials_well_formed.
  - destruct Hskyrim as (c & v & Hget & Hkey & Hv & Hset); try reflexivity.
    exists c. split; [exact Hget|]. split; [exact Hkey|].
    vm_compute in Hv. injection Hv as <-. exact Hset.
Defined.

(** X29.  [set_havok_material] binds its two results in three branches
    only: for an object without version, and for one of version 20.2.0.7
    whose user versions are neither 12 and 83 nor 11 and 34, it ends with
    [UnboundLocalError], whatever the collision settings are.
    [get_havok_material] raises nothing in the cases it does not
    recognise: when [Nif_Version] is still the number [0] of the class,
    or is 20.2.0.7 with such user versions, it returns the settings as
    they are. *)
Theorem havok_material_unbound
        (SkyrimHavokMaterial Fallout3HavokMaterial OblivionHavokMaterial : Havok.enum)
        (niftools_item : Havok.niftools) (collision_item : Havok.nifcollision) :
  Havok.nif_version niftools_item = "" \/
  (Havok.nif_version niftools_item = "20.2.0.7" /\
   ~ (Havok.user_version niftools_item = 12%Z /\
      Havok.user_version_2 niftools_item = 83%Z) /\
   ~ (Havok.user_version niftools_item = 11%Z /\
      Havok.user_version_2 niftools_item = 34%Z)) ->
  Havok.set_havok_material SkyrimHavokMaterial Fallout3HavokMaterial
    OblivionHavokMaterial niftools_item collision_item
  = inl Havok.UnboundLocalError /\
  forall self material_item,
    Havok.Nif_Version self = Havok.Number 0 \/
    (Havok.Nif_Version self = Havok.Text "20.2.0.7" /\
     ~ (Havok.Nif_User_Version self = 12%Z /\
        Havok.Nif_User_Version_2 self = 83%Z) /\
     ~ (Havok.Nif_User_Version self = 11%Z /\
        Havok.Nif_User_Version_2 self = 34%Z)) ->
    Havok.get_havok_material SkyrimHavokMaterial Fallout3HavokMaterial
      OblivionHavokMaterial self material_item collision_item = inr collision_item.
Proof.
  intros Hcase.
  assert (Hgame : forall a b : Z,
             ~ (a = 12%Z /\ b = 83%Z) -> ~ (a = 11%Z /\ b = 34%Z) ->
             (a =? 12)%Z && (b =? 83)%Z = false /\
             (a =? 11)%Z && (b =? 34)%Z = false).
  { intros a b Hskyrim Hfallout. split; apply andb_false_iff.
    - destruct (Z.eqb_spec a 12); [|now left].
      destruct (Z.eqb_spec b 83); [|now right]. now elim Hskyrim.
    - destruct (Z.eqb_spec a 11); [|now left].
      destruct (Z.eqb_spec b 34); [|now right]. now elim Hfallout. }
  split.
  - unfold Havok.set_havok_material.
    destruct Hcase as [Hempty|(Hversion & Hskyrim & Hfallout)].
    + rewrite Hempty. reflexivity.
    + destruct (Hgame _ _ Hskyrim Hfallout) as [-> ->]. now rewrite Hversion.
  - intros self material_item [Hzero|(Hversion & Hskyrim & Hfallout)];
      unfold Havok.get_havok_material.
    + rewrite Hzero. reflexivity.
    + destruct (Hgame _ _ Hskyrim Hfallout) as [-> ->]. now rewrite Hversion.
Qed.

Lemma havok_material_unbound_witness :
  Havok.set_havok_material Havok.sample_materials Havok.sample_materials
    Havok.sample_materials Havok.unknown_object Havok.no_collision
  = inl Havok.UnboundLocalError.
Proof.
  apply (havok_material_unbound Havok.sample_materials Havok.sample_materials
           Havok.sample_materials Havok.unknown_object Havok.no_collision).
  right. split; [reflexivity|]. split; intros [H _]; discriminate H.
Defined.

End NifCommonFacts.

(** ** [animationsys/animation_export.py] *)

Module AnimationExportFacts.

Import AnimationExport.
Local Open Scope string_scope.

(** *** Flip controller *)

(** C9.  [export_flip_controller] reads [self.context.scene], and a
    [TextureAnimation] object has no [context]: [__init__] sets
    [nif_export] only.  Every call on such an object therefore ends with
    [AttributeError] at the first of these reads, whatever the flip text
    holds: the controller is created and attached with [flags] 8 and
    [frequency] 1.0 and nothing else is written, no texture is counted,
    the [NifError] for fewer than two textures is not raised and [delta]
    is not set. *)
Theorem export_flip_controller_has_no_context
        (block : NiFlipController) (export_source_texture : string -> string)
        (fliptxt_name : string) (tlist : list string) (target_tex : Z) :
  export_flip_controller TextureAnimation_init block export_source_texture
    fliptxt_name tlist target_tex
  = ({| flags := 8; frequency := 1;
        start_time := start_time block; stop_time := stop_time block;
        texture_slot := texture_slot block;
        num_sources := num_sources block; sources := sources block;
        delta := delta block |},
     Some (AttributeError "'TextureAnimation' object has no attribute 'context'")).
Proof. reflexivity. Qed.

(** Scenario E: two textures; the controller is left without sources
    and without [delta]. *)
Example flip_scenario :
  let block := {| flags := 0; frequency := 0; start_time := 0; stop_time := 0;
                  texture_slot := 0; num_sources := 0; sources := []; delta := 0 |} in
  let '(flip, raised) :=
    export_flip_controller TextureAnimation_init block id "flip"
      ["a.dds"; ""; "b.dds"] 0 in
  raised = Some (AttributeError "'TextureAnimation' object has no attribute 'context'")
  /\ sources flip = [] /\ delta flip = 0%float.
Proof. repeat split. Qed.

(** *** Keyframes *)

Section ExportKeyframes.

Variable toQuat : float -> float -> float -> Quaternion.
Variables Action Extend Transform : Type.
Variable truth : Action -> bool.
Variable action_cycle : Action -> exn + (option Extend * number * number).
Variable CYCLIC : exn + Extend.
Variable is_constant : option Extend -> exn + bool.
Variable modifier : option Extend -> exn + string.
Variable bind_transforms : option Transform -> option Transform -> option exn.

Local Abbreviation run :=
  (export_keyframes toQuat Action Extend Transform truth action_cycle CYCLIC
     is_constant modifier bind_transforms).

(** The controller and the interpolator as they are created hold no
    data and the pose of the parent block. *)
Lemma new_controller_pose (version : Z) (trans : Vector3) (quat : Quaternion)
      (parent_scale : float) :
  no_keyframe_data (new_controller version trans quat parent_scale) /\
  forall i, kfi (new_controller version trans quat parent_scale) = Some i ->
            translation i = trans /\ rotation_ i = quat /\ scale i = parent_scale.
Proof.
  unfold new_controller, no_keyframe_data.
  destruct (supports_interpolators version); simpl.
  - split.
    + repeat split; intros H; repeat (destruct H as [H|H]; [discriminate H|]); exact H.
    + intros i H. injection H as <-. auto.
  - split.
    + repeat split; intros H; repeat (destruct H as [H|H]; [discriminate H|]); exact H.
    + intros i H. discriminate H.
Qed.

Local Opaque cycle get_flags_from_extend new_controller.

(** C3.  An action other than [None] never reaches the statements that
    write the keys: the curves are merged by statements that begin with
    [assert(Ipo.PO_SCALEX == Ipo.OB_SCALEX)], and the module neither
    defines nor imports [Ipo].  Whatever the action holds, the call returns
    only where keyframe data is not exported ([GEOM_NIF]); it never
    creates or links a keyframe-data block, and the interpolator, once
    created, keeps the pose of the parent block.  When the statements
    before the merge raise nothing, the call ends with [NameError]. *)
Theorem export_keyframes_needs_Ipo
        (animation : string) (version : Z) (scene : Scene) (b_action : Action)
        (space : string) (parent_is_NiNode : bool)
        (trans : Vector3) (quat : Quaternion) (parent_scale : float)
        (bind_matrix extra_mat_inv : option Transform) :
  let '(r, raised) :=
    run animation version scene (Some b_action) space parent_is_NiNode
        trans quat parent_scale bind_matrix extra_mat_inv in
  (raised = None -> animation = "GEOM_NIF") /\
  no_keyframe_data r /\
  (forall i, kfi r = Some i ->
             translation i = trans /\ rotation_ i = quat /\ scale i = parent_scale) /\
  (animation <> "GEOM_NIF" ->
   space = "localspace" ->
   parent_is_NiNode = true ->
   forall extend start_frame stop_frame flags warned,
     cycle Action Extend truth action_cycle CYCLIC scene (Some b_action)
     = inr (extend, start_frame, stop_frame) ->
     get_flags_from_extend Extend is_constant modifier extend = inr (flags, warned) ->
     bind_transforms bind_matrix extra_mat_inv = None ->
     raised = Some (NameError "name 'Ipo' is not defined")).
Proof.
  unfold export_keyframes.
  destruct (new_controller_pose version trans quat parent_scale) as [Hno Hpose].
  assert (Hnothing : no_keyframe_data {| kfc := None; kfi := None; created := [] |})
    by (repeat split; intros []).
  assert (Hflags : forall f : Controller -> Controller,
             (forall c, kfc_data (f c) = kfc_data c) ->
             no_keyframe_data
               {| kfc := f <$> kfc (new_controller version trans quat parent_scale);
                  kfi := kfi (new_controller version trans quat parent_scale);
                  created := created (new_controller version trans quat parent_scale) |}).
  { intros f Hf. unfold no_keyframe_data in *. cbn [kfc kfi created].
    destruct Hno as (H1 & H2 & H3 & H4). repeat split; try assumption.
    destruct (kfc (new_controller version trans quat parent_scale)) as [c|];
      [|exact I].
    cbn. now rewrite Hf. }
  assert (Hcases :
    forall (r : Exported) (raised : option exn),
      (raised = None -> animation = "GEOM_NIF") ->
      (r = {| kfc := None; kfi := None; created := [] |} \/
       r = new_controller version trans quat parent_scale \/
       exists f : Controller -> Controller,
         (forall c, kfc_data (f c) = kfc_data c) /\
         r = {| kfc := f <$> kfc (new_controller version trans quat parent_scale);
                kfi := kfi (new_controller version trans quat parent_scale);
                created := created (new_controller version trans quat parent_scale) |}) ->
      (animation <> "GEOM_NIF" ->
       space = "localspace" ->
       parent_is_NiNode = true ->
       forall extend start_frame stop_frame flags warned,
         cycle Action Extend truth action_cycle CYCLIC scene (Some b_action)
         = inr (extend, start_frame, stop_frame) ->
         get_flags_from_extend Extend is_constant modifier extend = inr (flags, warned) ->
         bind_transforms bind_matrix extra_mat_inv = None ->
         raised = Some (NameError "name 'Ipo' is not defined")) ->
      (raised = None -> animation = "GEOM_NIF") /\
      no_keyframe_data r /\
      (forall i, kfi r = Some i ->
                 translation i = trans /\ rotation_ i = quat /\ scale i = parent_scale) /\
      (animation <> "GEOM_NIF" ->
       space = "localspace" ->
       parent_is_NiNode = true ->
       forall extend start_frame stop_frame flags warned,
         cycle Action Extend truth action_cycle CYCLIC scene (Some b_action)
         = inr (extend, start_frame, stop_frame) ->
         get_flags_from_extend Extend is_constant modifier extend = inr (flags, warned) ->
         bind_transforms bind_matrix extra_mat_inv = None ->
         raised = Some (NameError "name 'Ipo' is not defined"))).
  { intros r raised Hreturn Hshape Hraise.
    split; [exact Hreturn|]. split; [|split; [|exact Hraise]].
    - destruct Hshape as [->|[->|(f & Hf & ->)]]; auto.
    - destruct Hshape as [->|[->|(f & Hf & ->)]]; auto.
      intros i H. discriminate H. }
  destruct (String.eqb_spec animation "GEOM_NIF") as [Hgeom|Hgeom];
    destruct (supports_interpolators version) eqn:Hversion;
    cbn [andb negb];
    try (apply Hcases; [tauto | now left | tauto]);
    (destruct (String.eqb_spec space "localspace") as [Hspace|Hspace]; cbn [negb];
     [|apply Hcases; [discriminate | now left | tauto]]);
    (destruct parent_is_NiNode; cbn [negb];
     [|apply Hcases; [discriminate | now left | intros _ _ H; discriminate H]]);
    (destruct (cycle Action Extend truth action_cycle CYCLIC scene (Some b_action))
       as [e|[[extend start_frame] stop_frame]];
     [apply Hcases; [discriminate | right; now left
                    | intros _ _ _ ? ? ? ? ? H; discriminate H]|]);
    (destruct (get_flags_from_extend Extend is_constant modifier extend)
       as [e|[flags warned]] eqn:Hf;
     [apply Hcases; [discriminate | right; right; eexists; split; [|reflexivity]; reflexivity
                    | intros _ _ _ ? ? ? ? ? H; injection H as <- <- <-;
                      rewrite Hf; intros H; discriminate H]|]).
  - apply Hcases; [tauto | right; right; eexists; split; [|reflexivity]; reflexivity | tauto].
  - destruct (bind_transforms bind_matrix extra_mat_inv) as [e|] eqn:Hb.
    + apply Hcases; [discriminate | right; right; eexists; split; [|reflexivity]; reflexivity|].
      intros _ _ _ ? ? ? ? ? _ _ H. discriminate H.
    + cbn [merge_curves].
      apply Hcases; [discriminate | right; right; eexists; split; [|reflexivity]; reflexivity|].
      intros. reflexivity.
  - destruct (bind_transforms bind_matrix extra_mat_inv) as [e|] eqn:Hb.
    + apply Hcases; [discriminate | right; right; eexists; split; [|reflexivity]; reflexivity|].
      intros _ _ _ ? ? ? ? ? _ _ H. discriminate H.
    + cbn [merge_curves].
      apply Hcases; [discriminate | right; right; eexists; split; [|reflexivity]; reflexivity|].
      intros. reflexivity.
Qed.

End ExportKeyframes.

(** Scenario B: an action with the single translation key [(1, 2, 3)],
    version 20.0.0.5.  The export ends with [NameError]; the interpolator
    holds the translation of the parent block, not [(1, 2, 3)]. *)
Example translation_key_1_2_3 :
  let '(r, raised) :=
    export_keyframes (fun _ _ _ => sample_quaternion)
      (list (string * list (float * float))) unit unit
      (fun _ => true)
      (fun _ => inr (Some tt, Float 1, Float 1))
      (inr tt) (fun _ => inr true) (fun _ => inr "CYCLES")
      (fun _ _ => None)
      "ALL_NIF" 0x14000005 sample_scene (Some sample_action) "localspace" true
      sample_translation sample_quaternion 1 None None in
  raised = Some (NameError "name 'Ipo' is not defined") /\
  created r = ["NiTransformController"; "NiTransformInterpolator"] /\
  (translation <$> kfi r) = Some sample_translation.
Proof. repeat split. Qed.

(** *** [export_anim_groups] *)

Lemma parse_lines_keys (scene : Scene) (slist : list string) :
  forall fds,
    parse_lines scene slist = inr fds ->
    Forall2 (fun s fd =>
               exists number first more,
                 Py.split "/" s = number :: first :: more /\
                 Py.int number 10 = Some (fst fd) /\
                 (frame_start scene <= fst fd <= frame_end scene)%Z /\
                 snd fd = frame_text first more)
            (List.filter (fun s => negb (String.eqb s "")) slist) fds.
Proof.
  induction slist as [|s rest IH]; intros fds H.
  - injection H as <-. constructor.
  - cbn [parse_lines List.filter] in *.
    destruct (String.eqb s ""); cbn [negb]; [now apply IH|].
    destruct (parse_line scene s) as [e|fd] eqn:Hline; [discriminate|].
    destruct (parse_lines scene rest) as [e|fds'] eqn:Hrest; [discriminate|].
    injection H as <-. constructor; [|now apply IH].
    unfold parse_line in Hline.
    destruct (Py.split "/" s) as [|number [|first more]] eqn:Hsplit; try discriminate.
    destruct (Py.int number 10) as [f|] eqn:Hint; [|discriminate].
    destruct ((f <? frame_start scene)%Z || (frame_end scene <? f)%Z) eqn:Hrange;
      [discriminate|].
    injection Hline as <-. apply orb_false_iff in Hrange as [H1 H2].
    apply Z.ltb_ge in H1, H2.
    exists number, first, more. cbn [fst snd].
    repeat split; (reflexivity || assumption || lia).
Qed.

(** X16.  When [export_anim_groups] returns a block, it holds one text
    key for every line that is not empty, in the order of the lines; the
    line has two fields at least when cut at [/], its first field is read
    by [int] as a frame [f] of the scene ([frame_start <= f <= frame_end]),
    the time of the key is [fps * (f - 1)] and its text is made of the
    further fields, blanks stripped, joined by ['\r\n']. *)
Theorem anim_groups_exported (animation : string) (scene : Scene) (slist : list string)
        (keys : list (Z * string)) :
  export_anim_groups animation scene slist = inr (Some keys) ->
  Forall2 (fun s key =>
             exists number first more f,
               Py.split "/" s = number :: first :: more /\
               Py.int number 10 = Some f /\
               (frame_start scene <= f <= frame_end scene)%Z /\
               key = ((fps scene * (f - 1))%Z, frame_text first more))
          (List.filter (fun s => negb (String.eqb s "")) slist) keys.
Proof.
  unfold export_anim_groups. destruct (String.eqb animation "GEOM_NIF"); [discriminate|].
  destruct (parse_lines scene slist) as [e|fds] eqn:Hparse; [discriminate|].
  intros H. injection H as <-.
  apply parse_lines_keys in Hparse.
  induction Hparse as [|s fd l fds (number & first & more & H1 & H2 & H3 & H4) _ IH];
    cbn [map]; constructor; [|exact IH].
  exists number, first, more, (fst fd). rewrite <- H4. auto.
Qed.

Lemma anim_groups_exported_witness :
  Forall2 (fun s key =>
             exists number first more f,
               Py.split "/" s = number :: first :: more /\
               Py.int number 10 = Some f /\
               (frame_start sample_scene <= f <= frame_end sample_scene)%Z /\
               key = ((fps sample_scene * (f - 1))%Z, frame_text first more))
          (List.filter (fun s => negb (String.eqb s "")) (firstn 3 sample_anim_text))
          [(0%Z, "Idle: Start" ++ crlf ++ "Idle: Stop" ++ crlf ++ "Idle2: Start"
                 ++ crlf ++ "Idle2: Loop Start");
           (1500%Z, "Idle2: Stop" ++ crlf ++ "Idle3: Start")].
Proof.
  apply (anim_groups_exported "ALL_NIF" sample_scene (firstn 3 sample_anim_text)).
  vm_compute. reflexivity.
Defined.

Lemma parse_lines_stops (scene : Scene) (before after : list string) (s : string)
      (fds : list (Z * string)) (e : failure) :
  parse_lines scene before = inr fds ->
  String.eqb s "" = false ->
  parse_line scene s = inl e ->
  parse_lines scene (before ++ s :: after) = inl e.
Proof.
  intros Hbefore Hs Hline. revert fds Hbefore.
  induction before as [|b before IH]; intros fds Hbefore.
  - cbn [app parse_lines]. now rewrite Hs, Hline.
  - cbn [app parse_lines] in *.
    destruct (String.eqb b ""); [now apply (IH fds)|].
    destruct (parse_line scene b); [discriminate|].
    destruct (parse_lines scene before) as [|fds']; [discriminate|].
    now rewrite (IH fds').
Qed.

(** X17.  A frame number outside the scene ends the export of the
    animation groups: the lines before it being in order, a line whose
    first field is read as a frame below [frame_start] or above
    [frame_end] makes [export_anim_groups] raise [AttributeError]
    (the warning it means to give is not a method of [AnimationHelper]);
    no block is created. *)
Theorem anim_group_out_of_range_fails (animation : string) (scene : Scene)
        (before after : list string) (s number first : string) (more : list string)
        (f : Z) (fds : list (Z * string)) :
  String.eqb animation "GEOM_NIF" = false ->
  parse_lines scene before = inr fds ->
  String.eqb s "" = false ->
  Py.split "/" s = number :: first :: more ->
  Py.int number 10 = Some f ->
  (f < frame_start scene \/ frame_end scene < f)%Z ->
  export_anim_groups animation scene (before ++ s :: after)
  = inl (Raised (AttributeError "'AnimationHelper' object has no attribute 'warning'")).
Proof.
  intros Hanim Hbefore Hs Hsplit Hint Hrange. unfold export_anim_groups. rewrite Hanim.
  rewrite (parse_lines_stops scene before after s fds
             (Raised (AttributeError "'AnimationHelper' object has no attribute 'warning'"))
             Hbefore Hs); [reflexivity|].
  unfold parse_line. rewrite Hsplit, Hint.
  replace ((f <? frame_start scene)%Z || (frame_end scene <? f)%Z) with true; [reflexivity|].
  symmetry. apply orb_true_iff. destruct Hrange; [left | right]; now apply Z.ltb_lt.
Qed.

Lemma anim_group_out_of_range_fails_witness :
  export_anim_groups "ALL_NIF" sample_scene sample_anim_text
  = inl (Raised (AttributeError "'AnimationHelper' object has no attribute 'warning'")).
Proof.
  apply (anim_group_out_of_range_fails "ALL_NIF" sample_scene
           (firstn 3 sample_anim_text) [] "101/Idle3: Loop Start/Idle3: Stop"
           "101" "Idle3: Loop Start" ["Idle3: Stop"] 101
           [(1%Z, "Idle: Start" ++ crlf ++ "Idle: Stop" ++ crlf ++ "Idle2: Start"
                  ++ crlf ++ "Idle2: Loop Start");
            (51%Z, "Idle2: Stop" ++ crlf ++ "Idle3: Start")]);
    try (vm_compute; reflexivity).
  right. vm_compute. reflexivity.
Defined.

End AnimationExportFacts.

(** ** [armaturesys/armature_import.py]: the bone tree *)

Module ArmatureImportFacts.

Import ArmatureImport.

(** One call on a chain: every block of the chain ends up in the bone
    list, and nothing else is added. *)
Lemma complete_bone_tree_chain (parent : parents) (skelroot : block)
      (b : block) (l : list block) :
  chain parent skelroot b l ->
  forall (depth : nat) (dict : armatures) (bones : list block),
    (length l <= depth)%nat ->
    dict !! skelroot = Some bones ->
    b ∈ bones ->
    exists added,
      complete_bone_tree depth parent dict b skelroot
        = Done (<[skelroot := bones ++ added]> dict) /\
      (forall x, x ∈ l -> x ∈ bones ++ added) /\
      (forall x, x ∈ added -> x ∈ l /\ x <> skelroot).
Proof.
  induction 1 as [b Hb | b p l Hb Hp Hchain IH]; intros depth dict bones Hdepth Hdict Hin.
  - destruct depth as [|depth]; [simpl in Hdepth; lia|].
    exists []. simpl. rewrite Hdict, Hb.
    rewrite (bool_decide_eq_true_2 _ Hin). simpl.
    rewrite bool_decide_eq_true_2 by reflexivity.
    rewrite app_nil_r, insert_id by exact Hdict.
    split; [reflexivity|]. split.
    + intros x Hx. apply list_elem_of_singleton in Hx. now subst.
    + intros x Hx. inversion Hx.
  - destruct depth as [|depth]; [simpl in Hdepth; lia|].
    simpl in Hdepth. simpl. rewrite Hdict, Hb.
    rewrite (bool_decide_eq_true_2 _ Hin). simpl.
    rewrite bool_decide_eq_false_2 by exact Hp.
    destruct (decide (p ∈ bones)) as [Hpin|Hpin].
    + rewrite (bool_decide_eq_true_2 _ Hpin).
      destruct (IH depth dict bones ltac:(lia) Hdict Hpin) as (added & Hrun & Hall & Hadded).
      exists added. split; [exact Hrun|]. split.
      * intros x Hx. apply elem_of_cons in Hx as [->|Hx]; [|now apply Hall].
        apply elem_of_app. now left.
      * intros x Hx. destruct (Hadded x Hx) as [H1 H2]. split; [|exact H2].
        now apply elem_of_cons; right.
    + rewrite (bool_decide_eq_false_2 _ Hpin).
      destruct (IH depth (<[skelroot := bones ++ [p]]> dict) (bones ++ [p]))
        as (added & Hrun & Hall & Hadded).
      * lia.
      * apply lookup_insert_eq.
      * apply elem_of_app. right. apply list_elem_of_singleton. reflexivity.
      * exists (p :: added). rewrite Hrun, insert_insert_eq.
        rewrite <- app_assoc. simpl. split; [reflexivity|]. split.
        -- intros x Hx. apply elem_of_cons in Hx as [->|Hx].
           ++ apply elem_of_app. now left.
           ++ specialize (Hall x Hx). rewrite <- app_assoc in Hall. exact Hall.
        -- intros x Hx. apply elem_of_cons in Hx as [->|Hx].
           ++ split; [|exact Hp]. apply elem_of_cons. right.
              inversion Hchain; subst; apply elem_of_cons; now left.
           ++ destruct (Hadded x Hx) as [H1 H2]. split; [|exact H2].
              now apply elem_of_cons; right.
Qed.

Lemma chain_functional (parent : parents) (skelroot b : block) (l l' : list block) :
  chain parent skelroot b l -> chain parent skelroot b l' -> l = l'.
Proof.
  intros H. revert l'.
  induction H as [b Hb | b p l Hb Hp Hchain IH]; intros l' H'; inversion H'; subst.
  - reflexivity.
  - congruence.
  - congruence.
  - f_equal. apply IH. congruence.
Qed.

Lemma chain_head (parent : parents) (skelroot b : block) (l : list block) :
  chain parent skelroot b l -> b ∈ l.
Proof. intros H; inversion H; subst; apply elem_of_cons; now left. Qed.

Lemma chain_below_root (parent : parents) (skelroot b : block) (l : list block) :
  chain parent skelroot b l -> forall x, x ∈ l -> x = b \/ x <> skelroot.
Proof.
  induction 1 as [b Hb | b p l Hb Hp Hchain IH]; intros x Hx.
  - apply list_elem_of_singleton in Hx. now left.
  - apply elem_of_cons in Hx as [->|Hx]; [now left|].
    right. destruct (IH x Hx) as [->|Hne]; assumption.
Qed.

(** The loop over the bones of a skin instance. *)
Lemma mark_skin_bones_chain (parent : parents) (skelroot : block) (depth : nat)
      (skin : list (option block)) :
  forall (dict : armatures) (bones : list block),
    dict !! skelroot = Some bones ->
    (forall b, Some b ∈ skin ->
               exists l, chain parent skelroot b l /\ (length l <= depth)%nat) ->
    exists added,
      mark_skin_bones depth parent dict skelroot skin
        = Done (<[skelroot := bones ++ added]> dict) /\
      (forall b l, Some b ∈ skin -> chain parent skelroot b l ->
                   forall x, x ∈ l -> x ∈ bones ++ added) /\
      (forall x, x ∈ added ->
                 exists b l, Some b ∈ skin /\ chain parent skelroot b l /\ x ∈ l).
Proof.
  induction skin as [|[b|] skin IH]; intros dict bones Hdict Hskin.
  - exists []. simpl. rewrite app_nil_r, insert_id by exact Hdict.
    split; [reflexivity|]. split.
    + intros b l Hb. inversion Hb.
    + intros x Hx. inversion Hx.
  - destruct (Hskin b) as (l & Hl & Hlen); [apply elem_of_cons; now left|].
    assert (Hrest : forall b', Some b' ∈ skin ->
              exists l', chain parent skelroot b' l' /\ (length l' <= depth)%nat).
    { intros b' Hb'. apply Hskin. apply elem_of_cons. now right. }
    simpl. rewrite Hdict.
    (* the bone list once [b] is marked *)
    set (marked := if bool_decide (b ∈ bones) then [] else [b]).
    assert (Hmarked :
      (if bool_decide (b ∈ bones) then dict else <[skelroot := bones ++ [b]]> dict)
      = <[skelroot := bones ++ marked]> dict).
    { unfold marked. destruct (bool_decide (b ∈ bones)).
      - now rewrite app_nil_r, insert_id.
      - reflexivity. }
    rewrite Hmarked.
    assert (Hbin : b ∈ bones ++ marked).
    { unfold marked. destruct (bool_decide (b ∈ bones)) eqn:E.
      - apply bool_decide_eq_true_1 in E. apply elem_of_app. now left.
      - apply elem_of_app. right. apply list_elem_of_singleton. reflexivity. }
    destruct (complete_bone_tree_chain parent skelroot b l Hl depth
                (<[skelroot := bones ++ marked]> dict) (bones ++ marked) Hlen
                (lookup_insert_eq _ _ _) Hbin)
      as (added1 & Hrun1 & Hall1 & Hadded1).
    rewrite Hrun1, insert_insert_eq.
    destruct (IH (<[skelroot := (bones ++ marked) ++ added1]> dict)
                 ((bones ++ marked) ++ added1) (lookup_insert_eq _ _ _) Hrest)
      as (added2 & Hrun2 & Hall2 & Hadded2).
    rewrite Hrun2, insert_insert_eq.
    exists (marked ++ added1 ++ added2).
    replace (bones ++ marked ++ added1 ++ added2)
      with (((bones ++ marked) ++ added1) ++ added2)
      by (now rewrite <- !app_assoc).
    split; [reflexivity|]. split.
    + intros b' l' Hb' Hl' x Hx. apply elem_of_cons in Hb' as [Heq|Hb'].
      * injection Heq as ->. rewrite (chain_functional _ _ _ _ _ Hl' Hl) in Hx.
        apply elem_of_app. left. now apply Hall1.
      * now apply (Hall2 b' l').
    + intros x Hx. apply elem_of_app in Hx as [Hx|Hx].
      * exists b, l. split; [apply elem_of_cons; now left|]. split; [exact Hl|].
        unfold marked in Hx. destruct (bool_decide (b ∈ bones)); [inversion Hx|].
        apply list_elem_of_singleton in Hx. subst x. now apply chain_head in Hl.
      * apply elem_of_app in Hx as [Hx|Hx].
        -- exists b, l. split; [apply elem_of_cons; now left|]. split; [exact Hl|].
           now apply Hadded1.
        -- destruct (Hadded2 x Hx) as (b' & l' & Hb' & Hl' & Hxl').
           exists b', l'. split; [apply elem_of_cons; now right|]. now split.
  - simpl. destruct (IH dict bones Hdict) as (added & Hrun & Hall & Hadded).
    + intros b Hb. apply Hskin. apply elem_of_cons. now right.
    + exists added. split; [exact Hrun|]. split.
      * intros b l Hb. apply elem_of_cons in Hb as [Heq|Hb]; [discriminate Heq|].
        now apply Hall.
      * intros x Hx. destruct (Hadded x Hx) as (b & l & Hb & Hl & Hxl).
        exists b, l. split; [apply elem_of_cons; now right|]. now split.
Qed.

(** The loop over the other nodes of the tree. *)
Lemma mark_extra_nodes_chain (parent : parents) (skelroot : block) (depth : nat)
      (tree : list tree_block) :
  forall (dict : armatures) (bones : list block),
    dict !! skelroot = Some bones ->
    (forall t, t ∈ tree -> extra_node skelroot t = true ->
               exists l, chain parent skelroot (tree_node t) l /\ (length l <= depth)%nat) ->
    exists added,
      mark_extra_nodes depth parent dict skelroot tree
        = Done (<[skelroot := bones ++ added]> dict) /\
      (forall t, t ∈ tree -> extra_node skelroot t = true ->
                 tree_node t ∈ bones ++ added) /\
      (forall x, x ∈ added ->
                 exists t l, t ∈ tree /\ extra_node skelroot t = true /\
                             chain parent skelroot (tree_node t) l /\ x ∈ l).
Proof.
  induction tree as [|t tree IH]; intros dict bones Hdict Htree.
  - exists []. simpl. rewrite app_nil_r, insert_id by exact Hdict.
    split; [reflexivity|]. split.
    + intros t Ht. inversion Ht.
    + intros x Hx. inversion Hx.
  - assert (Hrest : forall t', t' ∈ tree -> extra_node skelroot t' = true ->
              exists l, chain parent skelroot (tree_node t') l /\ (length l <= depth)%nat).
    { intros t' Ht'. apply Htree. apply elem_of_cons. now right. }
    simpl. destruct (extra_node skelroot t) eqn:Hextra; simpl.
    + rewrite Hdict.
      destruct (decide (tree_node t ∈ bones)) as [Hin|Hin].
      * rewrite (bool_decide_eq_true_2 _ Hin).
        destruct (IH dict bones Hdict Hrest) as (added & Hrun & Hall & Hadded).
        exists added. split; [exact Hrun|]. split.
        -- intros t' Ht' He. apply elem_of_cons in Ht' as [->|Ht']; [|now apply Hall].
           apply elem_of_app. now left.
        -- intros x Hx. destruct (Hadded x Hx) as (t' & l & Ht' & He & Hl & Hxl).
           exists t', l. split; [apply elem_of_cons; now right|]. auto.
      * rewrite (bool_decide_eq_false_2 _ Hin).
        destruct (Htree t) as (l & Hl & Hlen); [apply elem_of_cons; now left | exact Hextra|].
        destruct (complete_bone_tree_chain parent skelroot (tree_node t) l Hl depth
                    (<[skelroot := bones ++ [tree_node t]]> dict) (bones ++ [tree_node t])
                    Hlen (lookup_insert_eq _ _ _))
          as (added1 & Hrun1 & Hall1 & Hadded1).
        { apply elem_of_app. right. apply list_elem_of_singleton. reflexivity. }
        rewrite Hrun1, insert_insert_eq.
        destruct (IH (<[skelroot := (bones ++ [tree_node t]) ++ added1]> dict)
                     ((bones ++ [tree_node t]) ++ added1) (lookup_insert_eq _ _ _) Hrest)
          as (added2 & Hrun2 & Hall2 & Hadded2).
        rewrite Hrun2, insert_insert_eq.
        exists (tree_node t :: added1 ++ added2).
        replace (bones ++ tree_node t :: added1 ++ added2)
          with (((bones ++ [tree_node t]) ++ added1) ++ added2)
          by (now rewrite <- !app_assoc).
        split; [reflexivity|]. split.
        -- intros t' Ht' He. apply elem_of_cons in Ht' as [->|Ht']; [|now apply Hall2].
           apply elem_of_app. left. apply elem_of_app. left.
           apply elem_of_app. right. apply list_elem_of_singleton. reflexivity.
        -- intros x Hx. apply elem_of_cons in Hx as [->|Hx].
           ++ exists t, l. split; [apply elem_of_cons; now left|].
              split; [exact Hextra|]. split; [exact Hl|]. now apply chain_head in Hl.
           ++ apply elem_of_app in Hx as [Hx|Hx].
              ** exists t, l. split; [apply elem_of_cons; now left|].
                 split; [exact Hextra|]. split; [exact Hl|]. now apply Hadded1.
              ** destruct (Hadded2 x Hx) as (t' & l' & Ht' & He & Hl' & Hxl').
                 exists t', l'. split; [apply elem_of_cons; now right|]. auto.
    + destruct (IH dict bones Hdict Hrest) as (added & Hrun & Hall & Hadded).
      exists added. split; [exact Hrun|]. split.
      * intros t' Ht' He. apply elem_of_cons in Ht' as [->|Ht']; [congruence|].
        now apply Hall.
      * intros x Hx. destruct (Hadded x Hx) as (t' & l & Ht' & He & Hl & Hxl).
        exists t', l. split; [apply elem_of_cons; now right|]. auto.
Qed.

(** C6 (as amended).  Let every bone bound by the skin, and every other
    node of the tree of the skeleton root that is marked as an extra
    bone, have a parent chain that reaches the skeleton root.  Marking the
    skin (register the armature, mark each bound bone and complete its
    tree, then the same for the extra nodes) returns, and afterwards the
    bone list of the armature holds every bound bone and every ancestor
    of a bound bone below the skeleton root, and every extra node.  It
    holds nothing but what it held before and the blocks on the chains
    of the bound bones and of the extra nodes; the skeleton root itself
    is the key of the armature and does not become one of its bones;
    other armatures are untouched. *)
Theorem bone_tree_completed (parent : parents) (dict : armatures)
        (skelroot : block) (skin : list (option block)) (tree : list tree_block)
        (depth : nat) :
  (forall b, Some b ∈ skin ->
             exists l, chain parent skelroot b l /\ (length l <= depth)%nat) ->
  (forall t, t ∈ tree -> extra_node skelroot t = true ->
             exists l, chain parent skelroot (tree_node t) l /\ (length l <= depth)%nat) ->
  exists dict' bones,
    mark_skin depth parent dict skelroot skin tree = Done dict' /\
    dict' !! skelroot = Some bones /\
    (forall b l, Some b ∈ skin -> chain parent skelroot b l ->
                 forall x, x ∈ l -> x ∈ bones) /\
    (forall t, t ∈ tree -> extra_node skelroot t = true -> tree_node t ∈ bones) /\
    (forall x, x ∈ bones ->
               x ∈ default [] (dict !! skelroot) \/
               exists b l,
                 (Some b ∈ skin \/
                  exists t, t ∈ tree /\ extra_node skelroot t = true /\ tree_node t = b) /\
                 chain parent skelroot b l /\ x ∈ l) /\
    (skelroot ∉ default [] (dict !! skelroot) -> Some skelroot ∉ skin ->
     skelroot ∉ bones) /\
    (forall k, k <> skelroot -> dict' !! k = dict !! k).
Proof.
  intros Hskin Htree. unfold mark_skin.
  set (bones0 := default [] (dict !! skelroot)).
  assert (Hmark : mark_armature dict skelroot = <[skelroot := bones0]> dict).
  { unfold mark_armature, bones0. destruct (dict !! skelroot) eqn:E; simpl.
    - now rewrite insert_id.
    - reflexivity. }
  rewrite Hmark.
  destruct (mark_skin_bones_chain parent skelroot depth skin
              (<[skelroot := bones0]> dict) bones0 (lookup_insert_eq _ _ _) Hskin)
    as (added & Hrun & Hall & Hadded).
  rewrite insert_insert_eq in Hrun. rewrite Hrun.
  destruct (mark_extra_nodes_chain parent skelroot depth tree
              (<[skelroot := bones0 ++ added]> dict) (bones0 ++ added)
              (lookup_insert_eq _ _ _) Htree)
    as (extra & Hrun' & Hall' & Hextra).
  rewrite insert_insert_eq in Hrun'. rewrite Hrun'.
  exists (<[skelroot := (bones0 ++ added) ++ extra]> dict), ((bones0 ++ added) ++ extra).
  split; [reflexivity|]. split; [apply lookup_insert_eq|].
  assert (Horigin : forall x, x ∈ (bones0 ++ added) ++ extra ->
            x ∈ bones0 \/
            exists b l,
              (Some b ∈ skin \/
               exists t, t ∈ tree /\ extra_node skelroot t = true /\ tree_node t = b) /\
              chain parent skelroot b l /\ x ∈ l).
  { intros x Hx. apply elem_of_app in Hx as [Hx|Hx].
    - apply elem_of_app in Hx as [Hx|Hx]; [now left|]. right.
      destruct (Hadded x Hx) as (b & l & Hb & Hl & Hxl). exists b, l. auto.
    - right. destruct (Hextra x Hx) as (t & l & Ht & He & Hl & Hxl).
      exists (tree_node t), l. split; [right; now exists t | auto]. }
  split; [|split; [exact Hall'|split; [exact Horigin|split]]].
  - intros b l Hb Hl x Hx. apply elem_of_app. left. now apply (Hall b l).
  - intros Hroot0 Hunbound Hin.
    destruct (Horigin _ Hin) as [H0|(b & l & Hb & Hl & Hxl)]; [now apply Hroot0|].
    destruct (chain_below_root _ _ _ _ Hl _ Hxl) as [->|Hne]; [|now apply Hne].
    destruct Hb as [Hb|(t & Ht & He & Heq)]; [now apply Hunbound|].
    unfold extra_node in He. rewrite Heq in He.
    rewrite bool_decide_eq_true_2 in He by reflexivity. discriminate He.
  - intros k Hk. now apply lookup_insert_ne.
Qed.

Lemma scenario_chain : chain scenario_parent A C [C; B].
Proof.
  apply chain_step with B; [reflexivity | discriminate |].
  apply chain_root. reflexivity.
Qed.

Lemma scenario_tree_chains (t : tree_block) :
  t ∈ scenario_tree -> extra_node A t = true ->
  exists l, chain scenario_parent A (tree_node t) l /\ (length l <= 2)%nat.
Proof.
  intros Ht He.
  apply elem_of_cons in Ht as [->|Ht]; [discriminate He|].
  apply elem_of_cons in Ht as [->|Ht].
  { exists [B]. split; [apply chain_root; reflexivity | simpl; lia]. }
  apply list_elem_of_singleton in Ht as ->.
  exists [C; B]. split; [exact scenario_chain | simpl; lia].
Qed.

(** Scenario D: the bone list holds B and C and not A; B's parent is A and
    C's parent is B. *)
Lemma bone_tree_completed_witness :
  exists dict' bones,
    mark_skin 2 scenario_parent ∅ A [Some C] scenario_tree = Done dict' /\
    dict' !! A = Some bones /\
    B ∈ bones /\ C ∈ bones /\ (A ∉ bones) /\
    scenario_parent !! B = Some A /\ scenario_parent !! C = Some B.
Proof.
  destruct (bone_tree_completed scenario_parent ∅ A [Some C] scenario_tree 2)
    as (dict' & bones & Hrun & Hlook & Hall & _ & _ & Hroot & _).
  - intros b Hb. apply list_elem_of_singleton in Hb. injection Hb as ->.
    exists [C; B]. split; [exact scenario_chain | simpl; lia].
  - exact scenario_tree_chains.
  - exists dict', bones.
    split; [exact Hrun|]. split; [exact Hlook|].
    assert (Hbound : Some C ∈ [Some C]) by (apply list_elem_of_singleton; reflexivity).
    split; [apply (Hall C [C; B] Hbound scenario_chain); repeat constructor|].
    split; [apply (Hall C [C; B] Hbound scenario_chain); repeat constructor|].
    split; [|split; reflexivity].
    apply Hroot.
    + rewrite lookup_empty. simpl. intros H. inversion H.
    + intros H. apply list_elem_of_singleton in H. discriminate H.
Defined.

Example scenario_computed :
  mark_skin 2 scenario_parent ∅ A [Some C] scenario_tree = Done {[ A := [C; B] ]}.
Proof. reflexivity. Qed.

(** The skeleton root A is not put into its own bone list. *)
Lemma scenario_root_is_not_a_bone : ~ scenario_bone_set_as_specified.
Proof.
  intros (depth & dict' & bones & Hrun & Hlook & HA & _).
  destruct depth as [|[|depth]]; try discriminate Hrun.
  change (Done {[ A := [C; B] ]} = Done dict') in Hrun.
  injection Hrun as <-.
  rewrite lookup_singleton_eq in Hlook. injection Hlook as <-.
  apply elem_of_cons in HA as [HA|HA]; [discriminate HA|].
  apply list_elem_of_singleton in HA. discriminate HA.
Qed.

(** *** Termination *)

Lemma complete_bone_tree_ends (parent : parents) (skelroot b : block) (k : nat) :
  ends_within parent skelroot b k ->
  forall (depth : nat) (dict : armatures),
    (k <= depth)%nat ->
    complete_bone_tree depth parent dict b skelroot <> Unfinished.
Proof.
  induction 1 as [b Hb | b Hb | b p k Hb Hp Hends IH]; intros depth dict Hdepth;
    (destruct depth as [|depth]; [lia|]); simpl;
    destruct (dict !! skelroot) as [bones|]; try discriminate;
    destruct (bool_decide (b ∈ bones)); simpl; try discriminate; rewrite Hb.
  - rewrite bool_decide_eq_true_2 by reflexivity. discriminate.
  - discriminate.
  - rewrite bool_decide_eq_false_2 by exact Hp. apply IH. lia.
Qed.

(** C7 (as amended).  If following [_parent] from the bone comes to the
    skeleton root or to a block without parent in [k] steps, the call comes
    to an end (returning or raising) within [k] nested calls; the nested
    call is made on the parent, whose remaining path is one step shorter.
    Nothing in the function looks for a cycle. *)
Theorem complete_bone_tree_terminates (parent : parents) (dict : armatures)
        (bone skelroot : block) (k : nat) :
  ends_within parent skelroot bone k ->
  terminates parent dict bone skelroot /\
  (forall depth, (k <= depth)%nat ->
     complete_bone_tree depth parent dict bone skelroot <> Unfinished) /\
  (forall p, parent !! bone = Some p -> p <> skelroot ->
     exists k', k = S k' /\ ends_within parent skelroot p k').
Proof.
  intros Hends. split; [|split].
  - exists k. now apply (complete_bone_tree_ends parent skelroot bone k).
  - intros depth Hdepth. now apply (complete_bone_tree_ends parent skelroot bone k).
  - intros p Hp Hne. inversion Hends as [b Hb | b Hb | b p' k' Hb Hp' Hends']; subst.
    + congruence.
    + congruence.
    + exists k'. split; [reflexivity|]. congruence.
Qed.

Lemma complete_bone_tree_terminates_witness :
  terminates scenario_parent {[ A := [C] ]} C A /\
  complete_bone_tree 2 scenario_parent {[ A := [C] ]} C A = Done {[ A := [C; B] ]}.
Proof.
  split; [|reflexivity].
  apply (complete_bone_tree_terminates scenario_parent {[ A := [C] ]} C A 2).
  apply ends_step with B; [reflexivity | discriminate |].
  apply ends_root. reflexivity.
Defined.

Lemma cyclic_chain_unfinished (depth : nat) :
  complete_bone_tree depth cyclic_parent {[ A := [B; C] ]} B A = Unfinished /\
  complete_bone_tree depth cyclic_parent {[ A := [B; C] ]} C A = Unfinished.
Proof.
  induction depth as [|depth [IHB IHC]]; [split; reflexivity|].
  split.
  - change (complete_bone_tree depth cyclic_parent {[ A := [B; C] ]} C A = Unfinished).
    exact IHC.
  - change (complete_bone_tree depth cyclic_parent {[ A := [B; C] ]} B A = Unfinished).
    exact IHB.
Qed.

(** On the parent chain B -> C -> B -> ... the recursion never comes to an
    end, whatever the depth explored. *)
Lemma cyclic_chain_never_ends :
  ~ terminates cyclic_parent cyclic_armatures B A.
Proof.
  intros [depth H]. apply H. destruct depth as [|depth]; [reflexivity|].
  change (complete_bone_tree depth cyclic_parent {[ A := [B; C] ]} C A = Unfinished).
  apply cyclic_chain_unfinished.
Qed.

(** *** Bones and their ancestors *)

Lemma is_bone_spec (dict : armatures) (b : block) :
  is_bone dict (Some b) = true <-> exists k bones, dict !! k = Some bones /\ b ∈ bones.
Proof.
  unfold is_bone, is_bone_in. rewrite existsb_exists. split.
  - intros (bones & Hin & Hb). apply bool_decide_eq_true in Hb.
    apply in_map_iff in Hin as ([k bones'] & Heq & Hin). simpl in Heq. subst bones'.
    apply list_elem_of_In, elem_of_map_to_list in Hin. now exists k, bones.
  - intros (k & bones & Hk & Hb). exists bones. split.
    + apply in_map_iff. exists (k, bones). split; [reflexivity|].
      now apply list_elem_of_In, elem_of_map_to_list.
    + now apply bool_decide_eq_true.
Qed.

Lemma closest_bone_from_step (parent : parents) (dict : armatures) (skelroot : block)
      (fuel : nat) (p : block) :
  closest_bone_from fuel parent dict skelroot (Some p)
  = if bool_decide (p = skelroot) then Some None
    else if is_bone dict (Some p) then Some (Some p)
         else match fuel with
              | O => None
              | S fuel' => closest_bone_from fuel' parent dict skelroot (parent !! p)
              end.
Proof. now destruct fuel. Qed.

Lemma closest_bone_from_nearest (parent : parents) (dict : armatures) (skelroot : block)
      (fuel : nat) :
  forall (n : block) (r : option block),
    closest_bone_from fuel parent dict skelroot (parent !! n) = Some r ->
    match r with
    | Some b =>
        exists l, path parent n l b /\ passed dict skelroot l /\
                  b <> skelroot /\ is_bone dict (Some b) = true
    | None =>
        (exists l, path parent n l skelroot /\ passed dict skelroot l) \/
        (exists l, top parent n l /\ passed dict skelroot l)
    end.
Proof.
  assert (Hstop : forall f n r p,
             parent !! n = Some p ->
             closest_bone_from f parent dict skelroot (Some p) = Some r ->
             (p = skelroot \/ is_bone dict (Some p) = true) ->
             match r with
             | Some b =>
                 exists l, path parent n l b /\ passed dict skelroot l /\
                           b <> skelroot /\ is_bone dict (Some b) = true
             | None =>
                 (exists l, path parent n l skelroot /\ passed dict skelroot l) \/
                 (exists l, top parent n l /\ passed dict skelroot l)
             end).
  { intros f n r p Hn H Hp.
    rewrite closest_bone_from_step in H.
    destruct (bool_decide (p = skelroot)) eqn:Hroot.
    - injection H as <-. apply bool_decide_eq_true in Hroot. subst p.
      left. exists []. split; [now constructor | constructor].
    - apply bool_decide_eq_false in Hroot. destruct Hp as [Hp|Hp]; [now elim Hroot|].
      rewrite Hp in H. injection H as <-.
      exists []. split; [now constructor|]. split; [constructor|]. now split. }
  induction fuel as [|fuel IH]; intros n r H.
  - destruct (parent !! n) as [p|] eqn:Hn.
    + destruct (bool_decide (p = skelroot)) eqn:Hroot.
      * apply (Hstop 0%nat n r p Hn H). left. now apply bool_decide_eq_true in Hroot.
      * destruct (is_bone dict (Some p)) eqn:Hbone.
        -- apply (Hstop 0%nat n r p Hn H). now right.
        -- rewrite closest_bone_from_step, Hroot, Hbone in H. discriminate.
    + injection H as <-. right. exists []. split; [now constructor | constructor].
  - destruct (parent !! n) as [p|] eqn:Hn.
    + destruct (bool_decide (p = skelroot)) eqn:Hroot.
      * apply (Hstop (S fuel) n r p Hn H). left. now apply bool_decide_eq_true in Hroot.
      * destruct (is_bone dict (Some p)) eqn:Hbone.
        -- apply (Hstop (S fuel) n r p Hn H). now right.
        -- rewrite closest_bone_from_step, Hroot, Hbone in H.
           apply bool_decide_eq_false in Hroot.
           specialize (IH p r H).
           destruct r as [b|].
           ++ destruct IH as (l & Hpath & Hpassed & Hb).
              exists (p :: l). split; [now apply path_step|]. split; [|exact Hb].
              constructor; [split; assumption | exact Hpassed].
           ++ destruct IH as [(l & Hpath & Hpassed)|(l & Htop & Hpassed)]; [left|right];
                exists (p :: l); (split; [now constructor|]);
                (constructor; [split; assumption | exact Hpassed]).
    + injection H as <-. right. exists []. split; [now constructor | constructor].
Qed.

Lemma closest_bone_from_ends (parent : parents) (dict : armatures) (skelroot : block)
      (n : block) (k : nat) :
  ends_within parent skelroot n k ->
  forall fuel, (k <= fuel)%nat ->
    closest_bone_from fuel parent dict skelroot (parent !! n) <> None.
Proof.
  induction 1 as [b Hb | b Hb | b p k Hb Hp Hends IH]; intros fuel Hfuel; rewrite Hb.
  - rewrite closest_bone_from_step, bool_decide_eq_true_2 by reflexivity. discriminate.
  - destruct fuel; discriminate.
  - destruct fuel as [|fuel]; [lia|]. rewrite closest_bone_from_step.
    rewrite bool_decide_eq_false_2 by exact Hp.
    destruct (is_bone dict (Some p)); [discriminate|].
    apply IH. lia.
Qed.

(** X8.  [get_closest_bone] finds the nearest marked ancestor below the
    skeleton root.  When the walk up from [niBlock] ends within [k]
    steps (at the skeleton root or at a block without parent), the
    function returns; a block returned is a bone other than the skeleton
    root, reached from [niBlock] over blocks that are neither bones nor
    the skeleton root; [None] is returned when the skeleton root or the
    top of the tree is reached over such blocks. *)
Theorem get_closest_bone_nearest (parent : parents) (dict : armatures)
        (niBlock skelroot : block) (k fuel : nat) :
  ends_within parent skelroot niBlock k -> (k <= fuel)%nat ->
  exists r,
    get_closest_bone fuel parent dict niBlock skelroot = Some r /\
    match r with
    | Some b =>
        exists l, path parent niBlock l b /\ passed dict skelroot l /\
                  b <> skelroot /\ is_bone dict (Some b) = true
    | None =>
        (exists l, path parent niBlock l skelroot /\ passed dict skelroot l) \/
        (exists l, top parent niBlock l /\ passed dict skelroot l)
    end.
Proof.
  intros Hends Hfuel. unfold get_closest_bone.
  pose proof (closest_bone_from_ends parent dict skelroot niBlock k Hends fuel Hfuel) as Hret.
  destruct (closest_bone_from fuel parent dict skelroot (parent !! niBlock)) as [r|] eqn:E;
    [|now elim Hret].
  exists r. split; [reflexivity|].
  now apply (closest_bone_from_nearest parent dict skelroot fuel).
Qed.

Lemma get_closest_bone_nearest_witness :
  exists r,
    get_closest_bone 2 scenario_parent {[ A := [B] ]} C A = Some r /\
    match r with
    | Some b =>
        exists l, path scenario_parent C l b /\ passed {[ A := [B] ]} A l /\
                  b <> A /\ is_bone {[ A := [B] ]} (Some b) = true
    | None =>
        (exists l, path scenario_parent C l A /\ passed {[ A := [B] ]} A l) \/
        (exists l, top scenario_parent C l /\ passed {[ A := [B] ]} A l)
    end.
Proof.
  apply (get_closest_bone_nearest scenario_parent {[ A := [B] ]} C A 2 2); [|lia].
  apply ends_step with B; [reflexivity | discriminate |].
  apply ends_root. reflexivity.
Defined.

Example get_closest_bone_computed :
  get_closest_bone 2 scenario_parent {[ A := [B] ]} C A = Some (Some B) /\
  get_closest_bone 2 scenario_parent {[ A := [C] ]} C A = Some None /\
  get_closest_bone 2 scenario_parent {[ A := [C] ]} A A = Some None.
Proof. repeat split; vm_compute; reflexivity. Qed.

(** Every block of a chain but the last has its parent in the chain. *)
Lemma chain_parent (parent : parents) (skelroot b : block) (l : list block) :
  chain parent skelroot b l ->
  forall x, x ∈ l ->
    exists p, parent !! x = Some p /\ (p = skelroot \/ p ∈ l).
Proof.
  induction 1 as [b Hb | b p l Hb Hp Hchain IH]; intros x Hx.
  - apply list_elem_of_singleton in Hx. subst. exists skelroot. split; [exact Hb | now left].
  - apply elem_of_cons in Hx as [->|Hx].
    + exists p. split; [exact Hb|]. right. apply elem_of_cons. right.
      now apply (chain_head parent skelroot).
    + destruct (IH x Hx) as (q & Hq & [Hroot|Hin]); exists q; (split; [exact Hq|]);
        [now left | right; apply elem_of_cons; now right].
Qed.

(** X9.  After [complete_bone_tree(bone, skelroot)] on a bone whose
    parent chain reaches the skeleton root, the marked bones form a tree
    down to the armature: for every block of the chain,
    [get_closest_bone] returns its direct parent, and [None] for the
    block whose parent is the skeleton root. *)
Theorem bones_form_a_tree (parent : parents) (dict : armatures) (skelroot bone : block)
        (l bones : list block) (depth : nat) :
  chain parent skelroot bone l -> (length l <= depth)%nat ->
  dict !! skelroot = Some bones -> bone ∈ bones ->
  exists dict',
    complete_bone_tree depth parent dict bone skelroot = Done dict' /\
    forall x, x ∈ l ->
      exists p, parent !! x = Some p /\
        forall fuel,
          get_closest_bone fuel parent dict' x skelroot
          = Some (if bool_decide (p = skelroot) then None else Some p).
Proof.
  intros Hchain Hdepth Hdict Hin.
  destruct (complete_bone_tree_chain parent skelroot bone l Hchain depth dict bones
              Hdepth Hdict Hin) as (added & Hrun & Hall & _).
  eexists. split; [exact Hrun|].
  intros x Hx.
  destruct (chain_parent parent skelroot bone l Hchain x Hx) as (p & Hp & Hpl).
  exists p. split; [exact Hp|]. intros fuel.
  unfold get_closest_bone. rewrite Hp.
  rewrite closest_bone_from_step.
  destruct (bool_decide (p = skelroot)) eqn:Hroot; [reflexivity|].
  - apply bool_decide_eq_false in Hroot. destruct Hpl as [->|Hpl]; [now elim Hroot|].
    assert (is_bone (<[skelroot := bones ++ added]> dict) (Some p) = true) as Hbone.
    { apply is_bone_spec. exists skelroot, (bones ++ added).
      split; [apply lookup_insert_eq | now apply Hall]. }
    now rewrite Hbone.
Qed.

Lemma bones_form_a_tree_witness :
  exists dict',
    complete_bone_tree 2 scenario_parent {[ A := [C] ]} C A = Done dict' /\
    forall x, x ∈ [C; B] ->
      exists p, scenario_parent !! x = Some p /\
        forall fuel,
          get_closest_bone fuel scenario_parent dict' x A
          = Some (if bool_decide (p = A) then None else Some p).
Proof.
  apply (bones_form_a_tree scenario_parent {[ A := [C] ]} A C [C; B] [C] 2).
  - exact scenario_chain.
  - simpl. lia.
  - reflexivity.
  - apply elem_of_cons. now left.
Defined.

(** *** [get_blender_object] *)

(** X10.  [get_blender_object] looks a bone up in the first armature of
    [dict_armatures] only: a bone of that armature is found, a bone that
    belongs to another armature and not to the first makes it raise
    [NifError] (the [else] belongs to the [if] inside the loop). *)
Theorem get_blender_object_first_armature
        (armatureBlock : block) (boneBlocks : list block)
        (others : list (block * list block)) (dict_names : gmap block string)
        (niBlock : block) (bone_name : string) :
  is_bone_in (map snd ((armatureBlock, boneBlocks) :: others)) (Some niBlock) = true ->
  dict_names !! niBlock = Some bone_name ->
  (niBlock ∈ boneBlocks ->
   forall armatureName, dict_names !! armatureBlock = Some armatureName ->
     get_blender_object ((armatureBlock, boneBlocks) :: others) dict_names niBlock
     = inr (Bone armatureName bone_name)) /\
  (niBlock ∉ boneBlocks ->
   get_blender_object ((armatureBlock, boneBlocks) :: others) dict_names niBlock
   = inl (NifError (String.append "cannot find bone '"%string (String.append bone_name "'"%string)))).
Proof.
  intros Hbone Hname. unfold get_blender_object. rewrite Hbone, Hname.
  unfold armature_of. split.
  - intros Hin armatureName Harm.
    rewrite bool_decide_eq_true_2 by exact Hin. now rewrite Harm.
  - intros Hout. now rewrite bool_decide_eq_false_2 by exact Hout.
Qed.

Lemma get_blender_object_first_armature_witness :
  (B ∈ [C] ->
   forall armatureName,
     ({[ A := "Scene Root"%string; B := "Bip01"%string ]} : gmap block string) !! A = Some armatureName ->
     get_blender_object [(A, [C]); (C, [B])] {[ A := "Scene Root"%string; B := "Bip01"%string ]} B
     = inr (Bone armatureName "Bip01"%string)) /\
  (B ∉ [C] ->
   get_blender_object [(A, [C]); (C, [B])] {[ A := "Scene Root"%string; B := "Bip01"%string ]} B
   = inl (NifError "cannot find bone 'Bip01'"%string)).
Proof.
  apply (get_blender_object_first_armature A [C] [(C, [B])]
           {[ A := "Scene Root"%string; B := "Bip01"%string ]} B "Bip01"%string); reflexivity.
Defined.

Example get_blender_object_computed :
  get_blender_object [(A, [C]); (C, [B])] {[ A := "Scene Root"%string; B := "Bip01"%string ]} B
  = inl (NifError "cannot find bone 'Bip01'"%string) /\
  get_blender_object [(C, [B]); (A, [C])] {[ C := "Scene Root"%string; B := "Bip01"%string ]} B
  = inr (Bone "Scene Root"%string "Bip01"%string).
Proof. split; vm_compute; reflexivity. Qed.

(** *** The bone lists *)

Lemma complete_bone_tree_appends (parent : parents) (skelroot : block) (depth : nat) :
  forall (dict dict' : armatures) (bone : block),
    complete_bone_tree depth parent dict bone skelroot = Done dict' ->
    exists bones added,
      dict !! skelroot = Some bones /\
      dict' = <[skelroot := bones ++ added]> dict /\
      (NoDup bones -> NoDup (bones ++ added)).
Proof.
  induction depth as [|depth IH]; intros dict dict' bone H; [discriminate|].
  simpl in H.
  destruct (dict !! skelroot) as [bones|] eqn:Hdict; [|discriminate].
  destruct (bool_decide (bone ∈ bones)); [|discriminate]. simpl in H.
  destruct (parent !! bone) as [boneparent|]; [|discriminate].
  destruct (bool_decide (boneparent = skelroot)).
  - injection H as <-. exists bones, []. rewrite app_nil_r.
    split; [reflexivity|]. split; [now rewrite insert_id | trivial].
  - destruct (bool_decide (boneparent ∈ bones)) eqn:Hin.
    + destruct (IH _ _ _ H) as (bones1 & added & H1 & H2 & H3).
      rewrite Hdict in H1. injection H1 as <-.
      now exists bones, added.
    + apply bool_decide_eq_false in Hin.
      destruct (IH _ _ _ H) as (bones1 & added & H1 & H2 & H3).
      rewrite lookup_insert_eq in H1. injection H1 as <-.
      exists bones, (boneparent :: added). split; [reflexivity|]. split.
      * rewrite H2, insert_insert_eq. f_equal. now rewrite <- app_assoc.
      * intros Hnodup. rewrite <- app_assoc in H3. apply H3.
        apply NoDup_app. split; [exact Hnodup|]. split.
        -- intros x Hx Hx'. apply list_elem_of_singleton in Hx'. now subst.
        -- apply NoDup_singleton.
Qed.

Lemma mark_skin_bones_appends (parent : parents) (skelroot : block) (depth : nat)
      (skin : list (option block)) :
  forall (dict dict' : armatures) (bones : list block),
    dict !! skelroot = Some bones ->
    mark_skin_bones depth parent dict skelroot skin = Done dict' ->
    exists added,
      dict' = <[skelroot := bones ++ added]> dict /\
      (NoDup bones -> NoDup (bones ++ added)).
Proof.
  induction skin as [|[b|] skin IH]; intros dict dict' bones Hdict H.
  - injection H as <-. exists []. rewrite app_nil_r. split; [now rewrite insert_id | trivial].
  - simpl in H. rewrite Hdict in H.
    destruct (complete_bone_tree depth parent
                (if bool_decide (b ∈ bones) then dict
                 else <[skelroot := bones ++ [b]]> dict) b skelroot) as [dict1| |] eqn:Hrun;
      try discriminate.
    apply complete_bone_tree_appends in Hrun as (bones1 & added1 & H1 & H2 & H3).
    destruct (IH dict1 dict' (bones1 ++ added1)
                ltac:(rewrite H2; apply lookup_insert_eq) H) as (added2 & H4 & H5).
    destruct (bool_decide (b ∈ bones)) eqn:Hin.
    + rewrite Hdict in H1. injection H1 as <-.
      exists (added1 ++ added2). rewrite app_assoc. split.
      * now rewrite H4, H2, insert_insert_eq.
      * intros Hnodup. auto.
    + apply bool_decide_eq_false in Hin.
      rewrite lookup_insert_eq in H1. injection H1 as <-.
      exists (b :: added1 ++ added2). split.
      * rewrite H4, H2, !insert_insert_eq. f_equal.
        rewrite <- !app_assoc. reflexivity.
      * intros Hnodup.
        replace (bones ++ b :: added1 ++ added2) with (((bones ++ [b]) ++ added1) ++ added2)
          by (rewrite <- !app_assoc; reflexivity).
        apply H5, H3. apply NoDup_app. split; [exact Hnodup|]. split.
        -- intros x Hx Hx'. apply list_elem_of_singleton in Hx'. now subst.
        -- apply NoDup_singleton.
  - simpl in H. now apply (IH dict dict' bones).
Qed.

Lemma mark_extra_nodes_appends (parent : parents) (skelroot : block) (depth : nat)
      (tree : list tree_block) :
  forall (dict dict' : armatures) (bones : list block),
    dict !! skelroot = Some bones ->
    mark_extra_nodes depth parent dict skelroot tree = Done dict' ->
    exists added,
      dict' = <[skelroot := bones ++ added]> dict /\
      (NoDup bones -> NoDup (bones ++ added)).
Proof.
  induction tree as [|t tree IH]; intros dict dict' bones Hdict H.
  - injection H as <-. exists []. rewrite app_nil_r. split; [now rewrite insert_id | trivial].
  - simpl in H. destruct (extra_node skelroot t); simpl in H;
      [|now apply (IH dict dict' bones)].
    rewrite Hdict in H.
    destruct (bool_decide (tree_node t ∈ bones)) eqn:Hin;
      [now apply (IH dict dict' bones)|].
    apply bool_decide_eq_false in Hin.
    destruct (complete_bone_tree depth parent
                (<[skelroot := bones ++ [tree_node t]]> dict) (tree_node t) skelroot)
      as [dict1| |] eqn:Hrun; try discriminate.
    apply complete_bone_tree_appends in Hrun as (bones1 & added1 & H1 & H2 & H3).
    rewrite lookup_insert_eq in H1. injection H1 as <-.
    destruct (IH dict1 dict' ((bones ++ [tree_node t]) ++ added1)
                ltac:(rewrite H2; apply lookup_insert_eq) H) as (added2 & H4 & H5).
    exists (tree_node t :: added1 ++ added2). split.
    + rewrite H4, H2, !insert_insert_eq. f_equal.
      rewrite <- !app_assoc. reflexivity.
    + intros Hnodup.
      replace (bones ++ tree_node t :: added1 ++ added2)
        with (((bones ++ [tree_node t]) ++ added1) ++ added2)
        by (rewrite <- !app_assoc; reflexivity).
      apply H5, H3. apply NoDup_app. split; [exact Hnodup|]. split.
      * intros x Hx Hx'. apply list_elem_of_singleton in Hx'. now subst.
      * apply NoDup_singleton.
Qed.

(** X11.  Marking a skin (the bound bones, then the extra nodes of the
    tree) only appends to the bone list of its skeleton root: the bones
    marked before keep their places, no block is entered a second time (a
    list without repetition stays so), and the lists of the other
    armatures are left as they are. *)
Theorem bone_lists_only_grow (parent : parents) (dict dict' : armatures)
        (skelroot : block) (skin : list (option block)) (tree : list tree_block)
        (depth : nat) :
  mark_skin depth parent dict skelroot skin tree = Done dict' ->
  exists added,
    dict' !! skelroot = Some (default [] (dict !! skelroot) ++ added) /\
    (NoDup (default [] (dict !! skelroot)) ->
     NoDup (default [] (dict !! skelroot) ++ added)) /\
    (forall k, k <> skelroot -> dict' !! k = dict !! k).
Proof.
  unfold mark_skin. intros H.
  set (bones0 := default [] (dict !! skelroot)).
  assert (Hmark : mark_armature dict skelroot = <[skelroot := bones0]> dict).
  { unfold mark_armature, bones0. destruct (dict !! skelroot) eqn:E; simpl.
    - now rewrite insert_id.
    - reflexivity. }
  rewrite Hmark in H.
  destruct (mark_skin_bones depth parent (<[skelroot := bones0]> dict) skelroot skin)
    as [dict1| |] eqn:Hskin; try discriminate.
  destruct (mark_skin_bones_appends parent skelroot depth skin _ _ bones0
              (lookup_insert_eq _ _ _) Hskin) as (added & H1 & H2).
  rewrite insert_insert_eq in H1.
  destruct (mark_extra_nodes_appends parent skelroot depth tree dict1 dict'
              (bones0 ++ added) ltac:(rewrite H1; apply lookup_insert_eq) H)
    as (extra & H3 & H4).
  exists (added ++ extra). rewrite H3, H1, insert_insert_eq, app_assoc.
  split; [apply lookup_insert_eq|]. split; [auto|].
  intros k Hk. now apply lookup_insert_ne.
Qed.

(** Scenario D with a further node [4] below the skeleton root, which no
    skin binds: it is appended after the bound bone and its parent. *)
Lemma bone_lists_only_grow_witness :
  mark_skin 2 (<[4 := A]> scenario_parent) ∅ A [Some C] (scenario_tree ++ [NiNode 4])
  = Done {[ A := [C; B; 4] ]} /\
  exists added,
    ({[ A := [C; B; 4] ]} : armatures) !! A
    = Some (default [] ((∅ : armatures) !! A) ++ added) /\
    (NoDup (default [] ((∅ : armatures) !! A)) ->
     NoDup (default [] ((∅ : armatures) !! A) ++ added)) /\
    (forall k, k <> A -> ({[ A := [C; B; 4] ]} : armatures) !! k = (∅ : armatures) !! k).
Proof.
  split; [reflexivity|].
  apply (bone_lists_only_grow (<[4 := A]> scenario_parent) ∅ {[ A := [C; B; 4] ]} A
           [Some C] (scenario_tree ++ [NiNode 4]) 2).
  reflexivity.
Defined.

End ArmatureImportFacts.

(** ** [nif_import.py]: vertices and polygons *)

Module NifImportFacts.

Import NifImport.

(** C1.  With [combine_vertices] enabled, two vertices with equal keys are
    not merged when one of them is the first vertex of the block: the
    index 0 stored in [n_map] is taken for a missing entry by
    [if not n_map_k].  Here both vertices lie at the origin (key
    [(0, 0, 0)]); they map to the Blender vertices 0 and 1, and the third
    copy is merged with the second. *)
Theorem first_vertex_is_not_merged :
  (v_map <$> import_vertices true false id [] [] twin_vertices) = inr [0; 1]%nat /\
  (v_map <$> import_vertices true false id [] [] (origin :: twin_vertices))
    = inr [0; 1; 1]%nat /\
  vertex_key [] 0 origin = vertex_key [] 1 origin.
Proof. vm_compute. repeat split. Qed.

Example quantize_computed :
  quantize 1.2345 NifCommon.VERTEX_RESOLUTION = inr 1234%Z /\
  quantize (-0.0015) NifCommon.VERTEX_RESOLUTION = inr (-1)%Z /\
  quantize 0.7071 NifCommon.NORMAL_RESOLUTION = inr 70%Z /\
  quantize infinity NifCommon.VERTEX_RESOLUTION = inl ValueError.
Proof. vm_compute. repeat split. Qed.

Example import_polygons_computed :
  let r := import_polygons [0; 1; 2; 1]%nat {| polygons := []; loops := [] |}
             [[0; 1; 2]; [0; 3; 2]; [2; 1; 0]]%nat in
  (face_map <$> r) = inr [Some 0; None; Some 1]%nat /\
  (new_faces <$> r) = inr 2%nat /\
  (polygons ∘ mesh <$> r)
    = inr [ {| loop_start := 0; loop_total := 3 |};
            {| loop_start := 0; loop_total := 0 |};
            {| loop_start := 0; loop_total := 0 |} ].
Proof. vm_compute. repeat split. Qed.

(** *** The vertex loop *)

Lemma not_fresh (n_map_k : option nat) :
  not_ n_map_k = false -> exists m, n_map_k = Some (S m).
Proof. destruct n_map_k as [[|m]|]; try discriminate. eauto. Qed.

Lemma is_fresh (n_map_k : option nat) :
  not_ n_map_k = true -> n_map_k = None \/ n_map_k = Some 0.
Proof. destruct n_map_k as [[|m]|]; try discriminate; auto. Qed.

(** One round of the vertex loop keeps the invariant. *)
Lemma import_vertex_invariant (applytransform : bool) (transform : Vector -> Vector)
      (n_norms : list Vector) (b0 n : nat) (ks : list (list Z))
      (i : nat) (st : vertex_state) (v : Vector) (k : list Z) :
  vertices_invariant b0 n ks i st ->
  i < n ->
  ks !! i = Some k ->
  vertex_key n_norms i v = inr k ->
  exists st',
    import_vertex true applytransform transform n_norms st i v = inr st' /\
    vertices_invariant b0 n ks (S i) st'.
Proof.
  intros Inv Hi Hk Hkey. unfold import_vertex. rewrite Hkey. simpl.
  unfold lookup_key. simpl.
  pose proof (vi_length _ _ _ _ _ Inv) as Hlen.
  assert (Hb0 : b0 <= b_v_index st).
  { destruct (vi_index _ _ _ _ _ Inv) as [H0 H1].
    destruct (decide (i = 0)) as [E|E]; [rewrite (H0 E) | specialize (H1 ltac:(lia))]; lia. }
  destruct (not_ (n_map st !! k)) eqn:Hnot.
  - (* a new vertex *)
    apply is_fresh in Hnot.
    eexists. split; [reflexivity|].
    assert (Hnone : forall j, 1 <= j -> j < i -> ks !! j <> Some k).
    { intros j Hj Hji Hjk.
      destruct (vi_present _ _ _ _ _ Inv j k Hji Hjk) as (idx & Hidx & Hpos).
      specialize (Hpos Hj). destruct Hnot as [H|H]; rewrite H in Hidx.
      - discriminate.
      - injection Hidx as <-. lia. }
    split; simpl.
    + now rewrite length_insert.
    + split; [lia | intros _; lia].
    + intros k' idx Hlook. rewrite lookup_insert in Hlook.
      destruct (decide (k = k')) as [<-|Hne].
      * injection Hlook as <-. split; [lia | exact Hk].
      * destruct (vi_n_map _ _ _ _ _ Inv k' idx Hlook). split; [lia | assumption].
    + intros j k' Hj Hjk.
      destruct (decide (k = k')) as [<-|Hne].
      * exists i. rewrite lookup_insert_eq. split; [reflexivity | lia].
      * rewrite lookup_insert_ne by exact Hne.
        apply (vi_present _ _ _ _ _ Inv); [|exact Hjk].
        destruct (decide (j = i)) as [->|]; [congruence | lia].
    + intros j b Hj Hb.
      destruct (decide (j = i)) as [->|Hne].
      * rewrite list_lookup_insert_eq in Hb by lia. injection Hb as <-. lia.
      * rewrite list_lookup_insert_ne in Hb by lia.
        pose proof (vi_range _ _ _ _ _ Inv j b ltac:(lia) Hb). lia.
    + intros j j' b Hj Hj' Hb Hb'.
      destruct (decide (j = i)) as [->|Hne]; destruct (decide (j' = i)) as [->|Hne'];
        try reflexivity.
      * rewrite list_lookup_insert_eq in Hb by lia. injection Hb as <-.
        rewrite list_lookup_insert_ne in Hb' by lia.
        pose proof (vi_range _ _ _ _ _ Inv j' _ ltac:(lia) Hb'). lia.
      * rewrite list_lookup_insert_eq in Hb' by lia. injection Hb' as <-.
        rewrite list_lookup_insert_ne in Hb by lia.
        pose proof (vi_range _ _ _ _ _ Inv j _ ltac:(lia) Hb). lia.
      * rewrite list_lookup_insert_ne in Hb, Hb' by lia.
        apply (vi_only_if _ _ _ _ _ Inv j j' b); auto; lia.
    + intros k' idx j Hlook Hidx Hj Hji Hjk. rewrite lookup_insert in Hlook.
      destruct (decide (k = k')) as [<-|Hne].
      * injection Hlook as <-.
        destruct (decide (j = i)) as [->|Hne]; [reflexivity|].
        exfalso. apply (Hnone j); auto. lia.
      * destruct (vi_n_map _ _ _ _ _ Inv k' idx Hlook) as [Hlt _].
        assert (j <> i) by (intros ->; congruence).
        rewrite !list_lookup_insert_ne by lia.
        apply (vi_if _ _ _ _ _ Inv k'); auto. lia.
    + intros j b Hj Hji Hb.
      destruct (decide (j = i)) as [->|Hne].
      * rewrite list_lookup_insert_eq in Hb by lia. injection Hb as <-.
        destruct (vi_index _ _ _ _ _ Inv) as [_ H]. apply H. lia.
      * rewrite list_lookup_insert_ne in Hb by lia.
        apply (vi_first _ _ _ _ _ Inv j); auto. lia.
    + intros _. destruct (decide (i = 0)) as [->|Hne].
      * rewrite list_lookup_insert_eq by lia. f_equal.
        now apply (vi_index _ _ _ _ _ Inv).
      * rewrite list_lookup_insert_ne by lia. apply (vi_zero _ _ _ _ _ Inv). lia.
  - (* a vertex with the key of an earlier one *)
    apply not_fresh in Hnot as [m Hm]. rewrite Hm. simpl.
    destruct (vi_n_map _ _ _ _ _ Inv k (S m) Hm) as [Hmi Hmk].
    unfold item.
    destruct (lookup_lt_is_Some_2 (v_map st) (S m) ltac:(lia)) as [b Hb].
    rewrite Hb. simpl. eexists. split; [reflexivity|].
    pose proof (vi_range _ _ _ _ _ Inv (S m) b Hmi Hb) as Hrange.
    split; simpl.
    + now rewrite length_insert.
    + split; [lia | intros _; lia].
    + intros k' idx Hlook.
      destruct (vi_n_map _ _ _ _ _ Inv k' idx Hlook). split; [lia | assumption].
    + intros j k' Hj Hjk.
      destruct (decide (j = i)) as [->|Hne].
      * assert (k' = k) as -> by congruence. exists (S m). split; [exact Hm | lia].
      * apply (vi_present _ _ _ _ _ Inv); [lia | exact Hjk].
    + intros j b' Hj Hb'.
      destruct (decide (j = i)) as [->|Hne].
      * rewrite list_lookup_insert_eq in Hb' by lia. injection Hb' as <-. exact Hrange.
      * rewrite list_lookup_insert_ne in Hb' by lia.
        apply (vi_range _ _ _ _ _ Inv j); [lia | exact Hb'].
    + intros j j' b' Hj Hj' Hbj Hbj'.
      destruct (decide (j = i)) as [->|Hne]; destruct (decide (j' = i)) as [->|Hne'];
        try reflexivity.
      * rewrite list_lookup_insert_eq in Hbj by lia. injection Hbj as <-.
        rewrite list_lookup_insert_ne in Hbj' by lia.
        rewrite Hk, <- Hmk.
        apply (vi_only_if _ _ _ _ _ Inv (S m) j' b); auto; lia.
      * rewrite list_lookup_insert_eq in Hbj' by lia. injection Hbj' as <-.
        rewrite list_lookup_insert_ne in Hbj by lia.
        rewrite Hk, <- Hmk.
        apply (vi_only_if _ _ _ _ _ Inv j (S m) b); auto; lia.
      * rewrite list_lookup_insert_ne in Hbj, Hbj' by lia.
        apply (vi_only_if _ _ _ _ _ Inv j j' b'); auto; lia.
    + intros k' idx j Hlook Hidx Hj Hji Hjk.
      destruct (vi_n_map _ _ _ _ _ Inv k' idx Hlook) as [Hlt _].
      rewrite (list_lookup_insert_ne _ i idx) by lia.
      destruct (decide (j = i)) as [->|Hne].
      * assert (k' = k) as -> by congruence.
        assert (idx = S m) as -> by congruence.
        rewrite list_lookup_insert_eq by lia. now rewrite Hb.
      * rewrite list_lookup_insert_ne by lia.
        apply (vi_if _ _ _ _ _ Inv k'); auto. lia.
    + intros j b' Hj Hji Hbj.
      destruct (decide (j = i)) as [->|Hne].
      * rewrite list_lookup_insert_eq in Hbj by lia. injection Hbj as <-.
        apply (vi_first _ _ _ _ _ Inv (S m)); auto. lia.
      * rewrite list_lookup_insert_ne in Hbj by lia.
        apply (vi_first _ _ _ _ _ Inv j); auto. lia.
    + intros _. rewrite list_lookup_insert_ne by lia.
      apply (vi_zero _ _ _ _ _ Inv). lia.
Qed.

Lemma vertices_invariant_start (b_mesh_vertices : list Vector) (n : nat)
      (ks : list (list Z)) :
  vertices_invariant (length b_mesh_vertices) n ks 0
    {| n_map := ∅; v_map := seq 0 n;
       b_v_index := length b_mesh_vertices; vertices := b_mesh_vertices |}.
Proof.
  split; simpl; try (intros; lia).
  - apply length_seq.
  - intros k idx H. rewrite lookup_empty in H. discriminate H.
Qed.

(** The vertex loop as a whole. *)
Lemma import_vertices_invariant (applytransform : bool) (transform : Vector -> Vector)
      (n_norms : list Vector) (b0 n : nat) (ks : list (list Z))
      (rest : list Vector) :
  forall (i : nat) (st : vertex_state),
    vertices_invariant b0 n ks i st ->
    i + length rest = n ->
    (forall j v, rest !! j = Some v ->
                 exists k, ks !! (i + j) = Some k /\ vertex_key n_norms (i + j) v = inr k) ->
    exists st',
      import_vertices_from true applytransform transform n_norms i rest st = inr st' /\
      vertices_invariant b0 n ks n st'.
Proof.
  induction rest as [|v rest IH]; intros i st Inv Hn Hkeys.
  - simpl in Hn. exists st. split; [reflexivity|].
    assert (i = n) as <- by lia. exact Inv.
  - simpl in Hn.
    destruct (Hkeys 0 v eq_refl) as (k & Hk & Hkey).
    rewrite Nat.add_0_r in Hk, Hkey.
    destruct (import_vertex_invariant applytransform transform n_norms b0 n ks i st v k
                Inv ltac:(lia) Hk Hkey) as (st1 & Hrun1 & Inv1).
    destruct (IH (S i) st1 Inv1 ltac:(lia)) as (st2 & Hrun2 & Inv2).
    { intros j w Hw. specialize (Hkeys (S j) w Hw).
      now replace (S i + j) with (i + S j) by lia. }
    exists st2. simpl. rewrite Hrun1. simpl. now split.
Qed.

(** X1.  With [combine_vertices] enabled and every key computable, the
    vertex loop returns; two source vertices that are merged have equal keys; two
    vertices other than the first one are merged when their keys are
    equal; the first vertex of the block is merged with no other vertex,
    whatever the keys. *)
Theorem vertices_combined (applytransform : bool) (transform : Vector -> Vector)
        (n_norms b_mesh_vertices n_verts : list Vector) (ks : list (list Z)) :
  vertex_keys n_norms n_verts ks ->
  exists st,
    import_vertices true applytransform transform n_norms b_mesh_vertices n_verts
      = inr st /\
    length (v_map st) = length n_verts /\
    (forall i j, merged st i j -> ks !! i = ks !! j) /\
    (forall i j, 1 <= i < length n_verts -> 1 <= j < length n_verts ->
                 ks !! i = ks !! j -> merged st i j) /\
    (forall j, 1 <= j -> ~ merged st 0 j).
Proof.
  intros [Hlen Hkeys]. unfold import_vertices.
  destruct (import_vertices_invariant applytransform transform n_norms
              (length b_mesh_vertices) (length n_verts) ks n_verts 0 _
              (vertices_invariant_start b_mesh_vertices (length n_verts) ks))
    as (st & Hrun & Inv); [reflexivity | exact Hkeys |].
  exists st. split; [exact Hrun|].
  pose proof (vi_length _ _ _ _ _ Inv) as Hvlen.
  split; [exact Hvlen|]. split; [|split].
  - intros i j (b & Hi & Hj).
    apply (vi_only_if _ _ _ _ _ Inv i j b); auto.
    + apply lookup_lt_Some in Hi. lia.
    + apply lookup_lt_Some in Hj. lia.
  - intros i j [Hi1 Hi] [Hj1 Hj] Heq.
    destruct (lookup_lt_is_Some_2 ks i ltac:(lia)) as [k Hk].
    destruct (vi_present _ _ _ _ _ Inv i k Hi Hk) as (idx & Hidx & Hpos).
    specialize (Hpos Hi1).
    destruct (vi_n_map _ _ _ _ _ Inv k idx Hidx) as [Hlt _].
    destruct (lookup_lt_is_Some_2 (v_map st) idx ltac:(lia)) as [b Hb].
    exists b. split.
    + rewrite (vi_if _ _ _ _ _ Inv k idx i); auto.
    + rewrite (vi_if _ _ _ _ _ Inv k idx j); auto. congruence.
  - intros j Hj (b & H0 & Hb).
    assert (Hjn : j < length n_verts) by (apply lookup_lt_Some in Hb; lia).
    rewrite (vi_zero _ _ _ _ _ Inv ltac:(lia)) in H0. injection H0 as <-.
    pose proof (vi_first _ _ _ _ _ Inv j _ Hj Hjn Hb). lia.
Qed.

Lemma import_vertices_apart (applytransform : bool) (transform : Vector -> Vector)
      (n_norms : list Vector) (b0 n : nat) (rest : list Vector) :
  forall (i : nat) (st : vertex_state),
    length (v_map st) = n ->
    b_v_index st = b0 + i ->
    (forall j, j < i -> v_map st !! j = Some (b0 + j)) ->
    i + length rest = n ->
    (forall j v, rest !! j = Some v -> exists k, vertex_key n_norms (i + j) v = inr k) ->
    exists st',
      import_vertices_from false applytransform transform n_norms i rest st = inr st' /\
      forall j, j < n -> v_map st' !! j = Some (b0 + j).
Proof.
  induction rest as [|v rest IH]; intros i st Hlen Hb Hdone Hn Hkeys.
  - simpl in Hn. exists st. split; [reflexivity|].
    intros j Hj. apply Hdone. lia.
  - simpl in Hn. destruct (Hkeys 0 v eq_refl) as (k & Hkey).
    rewrite Nat.add_0_r in Hkey.
    simpl. unfold import_vertex at 1. rewrite Hkey. simpl.
    apply IH; simpl.
    + now rewrite length_insert.
    + lia.
    + intros j Hj. destruct (decide (j = i)) as [->|Hne].
      * rewrite list_lookup_insert_eq by lia. now rewrite Hb.
      * rewrite list_lookup_insert_ne by lia. apply Hdone. lia.
    + lia.
    + intros j w Hw. specialize (Hkeys (S j) w Hw).
      replace (i + S j) with (S (i + j)) in Hkeys by lia. exact Hkeys.
Qed.

(** X2.  With [combine_vertices] disabled and every key computable,
    source vertex [j] becomes Blender vertex [len(b_mesh.vertices) + j]: no two
    source vertices are merged. *)
Theorem vertices_not_combined (applytransform : bool) (transform : Vector -> Vector)
        (n_norms b_mesh_vertices n_verts : list Vector) (ks : list (list Z)) :
  vertex_keys n_norms n_verts ks ->
  exists st,
    import_vertices false applytransform transform n_norms b_mesh_vertices n_verts
      = inr st /\
    (forall j, j < length n_verts ->
               v_map st !! j = Some (length b_mesh_vertices + j)) /\
    (forall i j, i < length n_verts -> j < length n_verts -> merged st i j -> i = j).
Proof.
  intros [Hlen Hkeys]. unfold import_vertices.
  destruct (import_vertices_apart applytransform transform n_norms
              (length b_mesh_vertices) (length n_verts) n_verts 0
              {| n_map := ∅; v_map := seq 0 (length n_verts);
                 b_v_index := length b_mesh_vertices; vertices := b_mesh_vertices |})
    as (st & Hrun & Hmap); simpl.
  - apply length_seq.
  - lia.
  - intros j Hj. lia.
  - reflexivity.
  - intros j v Hv. destruct (Hkeys j v Hv) as (k & _ & Hk). eauto.
  - exists st. split; [exact Hrun|]. split; [exact Hmap|].
    intros i j Hi Hj (b & Hbi & Hbj).
    rewrite (Hmap i Hi) in Hbi. rewrite (Hmap j Hj) in Hbj.
    injection Hbi as <-. injection Hbj as Heq. lia.
Qed.

Lemma twin_vertices_keys : vertex_keys [] twin_vertices [[0; 0; 0]%Z; [0; 0; 0]%Z].
Proof.
  split; [reflexivity|].
  intros [|[|i]] v Hv; try discriminate Hv; injection Hv as <-;
    eexists; (split; [reflexivity | vm_compute; reflexivity]).
Qed.

Lemma vertices_combined_witness :
  exists st,
    import_vertices true false id [] [] twin_vertices = inr st /\
    ~ merged st 0 1.
Proof.
  destruct (vertices_combined false id [] [] twin_vertices _ twin_vertices_keys)
    as (st & Hrun & _ & _ & _ & Hfirst).
  exists st. split; [exact Hrun | apply Hfirst; lia].
Defined.

Lemma vertices_not_combined_witness :
  exists st,
    import_vertices false false id [] [] twin_vertices = inr st /\
    v_map st !! 1 = Some 1.
Proof.
  destruct (vertices_not_combined false id [] [] twin_vertices _ twin_vertices_keys)
    as (st & Hrun & Hmap & _).
  exists st. split; [exact Hrun | apply (Hmap 1); simpl; lia].
Defined.

(** *** The polygon loops *)

Lemma remap_in_range (v_map : list nat) (f : list nat) :
  Forall (fun vert_index => vert_index < length v_map) f ->
  exists t, remap v_map f = inr t /\ length t = length f.
Proof.
  induction 1 as [|vert_index f Hv _ (t & Ht & Hlen)].
  - exists []. split; reflexivity.
  - destruct (lookup_lt_is_Some_2 _ _ Hv) as [b Hb].
    exists (b :: t). simpl. unfold item. rewrite Hb. simpl. rewrite Ht. simpl.
    split; [reflexivity | now rewrite Hlen].
Qed.

Lemma omap_insert_new (l : list (option nat)) (i b : nat) :
  l !! i = Some None ->
  length (omap id (<[i := Some b]> l)) = S (length (omap id l)).
Proof.
  revert i. induction l as [|[a|] l IH]; intros [|i] H; try discriminate H.
  - change (S (length (omap id (<[i := Some b]> l))) = S (S (length (omap id l)))).
    f_equal. now apply IH.
  - reflexivity.
  - change (length (omap id (<[i := Some b]> l)) = S (length (omap id l))).
    now apply IH.
Qed.

Lemma omap_length_le (l : list (option nat)) : length (omap id l) <= length l.
Proof.
  induction l as [|[a|] l IH]; [reflexivity | |].
  - change (S (length (omap id l)) <= S (length l)). lia.
  - change (length (omap id l) <= S (length l)). lia.
Qed.

Lemma omap_length_all (l : list (option nat)) :
  length (omap id l) = length l -> forall j, l !! j <> Some None.
Proof.
  induction l as [|[a|] l IH]; intros Hlen j.
  - discriminate.
  - change (S (length (omap id l)) = S (length l)) in Hlen.
    destruct j as [|j]; [discriminate|]. apply IH. lia.
  - change (length (omap id l) = S (length l)) in Hlen.
    pose proof (omap_length_le l). lia.
Qed.

Lemma faces_invariant_start (bf2_index poly_count : nat) :
  faces_invariant bf2_index poly_count []
    {| f_map := replicate poly_count None;
       b_f_index := bf2_index;
       num_new_faces := 0;
       unique_faces := [];
       tri_point_list := [];
       ls_list_defined := false |}.
Proof.
  split; simpl; try done.
  - constructor.
  - apply length_replicate.
  - induction poly_count as [|n IH]; [reflexivity | exact IH].
  - intros j _ Hj. apply lookup_replicate. auto.
  - intros j b H. apply lookup_replicate in H as [H _]. discriminate H.
Qed.

(** One round of the first loop keeps the invariant. *)
Lemma import_face_invariant (v_map : list nat) (bf2_index poly_count : nat)
      (done : list (list nat)) (st : face_state) (f t : list nat) :
  faces_invariant bf2_index poly_count done st ->
  remap v_map f = inr t ->
  length f = 3 ->
  length done < poly_count ->
  exists st',
    import_face v_map st (length done) f = inr st' /\
    faces_invariant bf2_index poly_count (done ++ [t]) st'.
Proof.
  intros Inv Ht Hf Hdone. unfold import_face. rewrite Ht. simpl.
  assert (Hnil : done ++ [t] <> []) by (now destruct done).
  destruct (decide (t ∈ unique_faces st)) as [Hin|Hin].
  - rewrite (bool_decide_eq_true_2 _ Hin). exists st. split; [reflexivity|].
    assert (Hd : t ∈ done) by (now apply (unique_done _ _ _ _ Inv)).
    assert (Hne : done <> []) by (intros ->; inversion Hd).
    split; try apply Inv.
    + intros u. rewrite (unique_done _ _ _ _ Inv), elem_of_app, list_elem_of_singleton.
      split; [auto | intros [H| ->]; auto].
    + intros j Hj Hn. apply (f_map_ahead _ _ _ _ Inv); [|exact Hn].
      rewrite length_app in Hj. simpl in Hj. lia.
    + intros j u Hj.
      destruct (decide (j < length done)) as [Hlt|Hge].
      * rewrite lookup_app_l in Hj by exact Hlt.
        rewrite take_app_le by lia. now apply (f_map_dropped _ _ _ _ Inv).
      * assert (j = length done) as ->.
        { apply lookup_lt_Some in Hj. rewrite length_app in Hj. simpl in Hj. lia. }
        rewrite list_lookup_middle in Hj by reflexivity. injection Hj as <-.
        rewrite take_app_length.
        split; [intros _; exact Hd|].
        intros _. apply (f_map_ahead _ _ _ _ Inv); lia.
    + intros _. now apply (ls_list_bound _ _ _ _ Inv).
    + intros _. now apply (tri_points_first _ _ _ _ Inv).
  - rewrite (bool_decide_eq_false_2 _ Hin). eexists. split; [reflexivity|].
    assert (Hd : t ∉ done) by (now rewrite <- (unique_done _ _ _ _ Inv)).
    assert (Hhere : f_map st !! length done = Some None)
      by (apply (f_map_ahead _ _ _ _ Inv); lia).
    split; simpl.
    + apply NoDup_app. split; [apply Inv|]. split; [|apply NoDup_singleton].
      intros u Hu Hu'. apply list_elem_of_singleton in Hu'. now subst.
    + intros u. rewrite !elem_of_app, (unique_done _ _ _ _ Inv). reflexivity.
    + rewrite length_app, (count_unique _ _ _ _ Inv). simpl. lia.
    + rewrite length_app, (index_unique _ _ _ _ Inv). simpl. lia.
    + rewrite length_insert. apply Inv.
    + rewrite (omap_insert_new _ _ _ Hhere), length_app, (f_map_emitted _ _ _ _ Inv).
      simpl. lia.
    + intros j Hj Hn. rewrite length_app in Hj. simpl in Hj.
      rewrite list_lookup_insert_ne by lia.
      apply (f_map_ahead _ _ _ _ Inv); lia.
    + intros j u Hj.
      destruct (decide (j < length done)) as [Hlt|Hge].
      * rewrite lookup_app_l in Hj by exact Hlt.
        rewrite take_app_le by lia. rewrite list_lookup_insert_ne by lia.
        now apply (f_map_dropped _ _ _ _ Inv).
      * assert (j = length done) as ->.
        { apply lookup_lt_Some in Hj. rewrite length_app in Hj. simpl in Hj. lia. }
        rewrite list_lookup_middle in Hj by reflexivity. injection Hj as <-.
        rewrite take_app_length.
        rewrite list_lookup_insert_eq by (rewrite (f_map_length _ _ _ _ Inv); lia).
        split; [intros H; discriminate H | intros H; now elim Hd].
    + intros j b Hj. rewrite length_app. simpl.
      destruct (decide (j = length done)) as [->|Hne].
      * rewrite list_lookup_insert_eq in Hj by (rewrite (f_map_length _ _ _ _ Inv); lia).
        injection Hj as <-. rewrite (index_unique _ _ _ _ Inv). lia.
      * rewrite list_lookup_insert_ne in Hj by lia.
        pose proof (f_map_range _ _ _ _ Inv j b Hj). lia.
    + reflexivity.
    + apply Forall_app. split; [apply Inv|]. constructor; [exact Hf | constructor].
    + intros _. now destruct (tri_point_list st).
Qed.


Lemma remap_length (v_map : list nat) (f t : list nat) :
  remap v_map f = inr t -> length t = length f.
Proof.
  revert t. induction f as [|vi f IH]; intros t H; simpl in H.
  - injection H as <-. reflexivity.
  - destruct (item v_map vi) as [e|b]; simpl in H; [discriminate|].
    destruct (remap v_map f) as [e|bs]; simpl in H; [discriminate|].
    injection H as <-. simpl. f_equal. now apply IH.
Qed.

Lemma remap_all (v_map : list nat) (poly_gens : list (list nat)) :
  Forall (fun f => length f = 3 /\ Forall (fun vi => vi < length v_map) f) poly_gens ->
  exists ts, Forall2 (fun f t => remap v_map f = inr t) poly_gens ts.
Proof.
  induction 1 as [|f poly_gens [_ Hf] _ (ts & Hts)].
  - exists []. constructor.
  - destruct (remap_in_range v_map f Hf) as (t & Ht & _).
    exists (t :: ts). now constructor.
Qed.

Lemma repeats_lookup (v_map : list nat) (poly_gens ts : list (list nat)) (i : nat) :
  Forall2 (fun f t => remap v_map f = inr t) poly_gens ts ->
  repeats v_map poly_gens i <->
  exists j t, j < i /\ ts !! i = Some t /\ ts !! j = Some t.
Proof.
  intros Hts. split.
  - intros (j & f & g & t & Hj & Hf & Hg & Hft & Hgt).
    destruct (Forall2_lookup_l _ _ _ _ _ Hts Hf) as (t1 & Ht1 & Hr1).
    destruct (Forall2_lookup_l _ _ _ _ _ Hts Hg) as (t2 & Ht2 & Hr2).
    exists j, t. split; [exact Hj|]. split; congruence.
  - intros (j & t & Hj & Hi & Hjt).
    destruct (Forall2_lookup_r _ _ _ _ _ Hts Hi) as (f & Hf & Hr1).
    destruct (Forall2_lookup_r _ _ _ _ _ Hts Hjt) as (g & Hg & Hr2).
    exists j, f, g, t. auto.
Qed.




(** *** [select_layer] *)

(** X12.  [select_layer] returns twenty flags; flag [i] is set exactly
    when [i] is the layer number, so that one flag is set for a layer
    number from 0 to 19 and none for any other number. *)
Theorem select_layer_one_hot (layer_nr : Z) :
  length (select_layer layer_nr) = 20%nat /\
  (forall i, (i < 20)%nat ->
     select_layer layer_nr !! i = Some (bool_decide (Z.of_nat i = layer_nr))) /\
  count_occ Bool.bool_dec (select_layer layer_nr) true
  = (if bool_decide (0 <= layer_nr < 20)%Z then 1 else 0)%nat.
Proof.
  split; [reflexivity|]. split.
  - intros i Hi.
    assert (forall a, (a =? layer_nr)%Z = bool_decide (a = layer_nr)) as Heq.
    { intros a. destruct (Z.eqb_spec a layer_nr).
      - now rewrite bool_decide_eq_true_2.
      - now rewrite bool_decide_eq_false_2. }
    unfold select_layer. change (map ?f ?l) with (f <$> l).
    rewrite list_lookup_fmap, PyFacts.range_lookup by (simpl; lia).
    cbn [fmap option_fmap option_map]. now rewrite Heq.
  - destruct (bool_decide (0 <= layer_nr < 20)%Z) eqn:Hrange.
    + apply bool_decide_eq_true in Hrange.
      assert (exists k, (k < 20)%nat /\ layer_nr = Z.of_nat k) as (k & Hk & ->).
      { exists (Z.to_nat layer_nr). lia. }
      do 20 (destruct k as [|k]; [reflexivity|]). lia.
    + apply bool_decide_eq_false in Hrange.
      apply count_occ_not_In. unfold select_layer. intros Hin.
      apply in_map_iff in Hin as (i & Hi & Hin).
      apply PyFacts.range_elem in Hin. apply Z.eqb_eq in Hi. lia.
Qed.

(** *** [import_name] *)

Lemma unique_name_first_free (data : BlendData) (niName : string) (max_length : Z)
      (before after : list Z) (i : Z) :
  String.eqb niName "InvMarker" = false ->
  (forall j, In j before -> not_in_use data (short_name niName max_length j) = false) ->
  not_in_use data (short_name niName max_length i) = true ->
  unique_name data niName max_length (before ++ i :: after)
  = Some (short_name niName max_length i).
Proof.
  intros Hname Hbefore Hfree. induction before as [|j before IH]; simpl; rewrite Hname.
  - now rewrite Hfree.
  - rewrite (Hbefore j) by now left. apply IH. intros k Hk. apply Hbefore. now right.
Qed.

Lemma unique_name_none (data : BlendData) (niName : string) (max_length : Z)
      (uniqueInts : list Z) :
  String.eqb niName "InvMarker" = false ->
  (forall j, In j uniqueInts -> not_in_use data (short_name niName max_length j) = false) ->
  unique_name data niName max_length uniqueInts = None.
Proof.
  intros Hname Hall. induction uniqueInts as [|j rest IH]; [reflexivity|].
  simpl. rewrite Hname, (Hall j) by now left.
  apply IH. intros k Hk. apply Hall. now right.
Qed.

Lemma unique_name_free (data : BlendData) (niName : string) (max_length : Z)
      (uniqueInts : list Z) (shortName : string) :
  String.eqb niName "InvMarker" = false ->
  unique_name data niName max_length uniqueInts = Some shortName ->
  not_in_use data shortName = true.
Proof.
  intros Hname. induction uniqueInts as [|j rest IH]; [discriminate|].
  simpl. rewrite Hname.
  destruct (not_in_use data (short_name niName max_length j)) eqn:E; [|exact IH].
  intros H. injection H as <-. exact E.
Qed.

(** X13.  For a block that has no Blender name yet and whose name is
    not ["InvMarker"], [import_name] takes the first of the candidate
    names (the name cut to [max_length - 1] characters, then the name
    cut to [max_length - 4] characters with [.00], [.01], ... up to
    [.999], each in Blender's bone naming) that is in use by no object,
    material or mesh, and stores it in both dictionaries; the name
    returned is thus never one in use.  When all 1001 candidates are in
    use it raises [RuntimeError] and stores nothing. *)
Theorem import_name_first_free (data : BlendData) (st : names) (b : NiObjectNET)
        (max_length : Z) :
  dict_names st !! block_id b = None ->
  String.eqb (ni_name b) "InvMarker" = false ->
  (forall i, (-1 <= i < 1000)%Z ->
     not_in_use data (short_name (ni_name b) max_length i) = true ->
     (forall j, (-1 <= j < i)%Z ->
        not_in_use data (short_name (ni_name b) max_length j) = false) ->
     import_name data st (Some b) max_length
     = inr (Some (short_name (ni_name b) max_length i),
            {| dict_names := <[block_id b := short_name (ni_name b) max_length i]>
                               (dict_names st);
               dict_blocks := <[short_name (ni_name b) max_length i := block_id b]>
                                (dict_blocks st) |})) /\
  ((forall j, (-1 <= j < 1000)%Z ->
      not_in_use data (short_name (ni_name b) max_length j) = false) ->
   import_name data st (Some b) max_length = inl (RuntimeError "Ran out of names.")) /\
  (forall shortName st',
     import_name data st (Some b) max_length = inr (Some shortName, st') ->
     not_in_use data shortName = true).
Proof.
  intros Hnew Hname. unfold import_name. rewrite Hnew. split; [|split].
  - intros i Hi Hfree Hbefore.
    rewrite (PyFacts.range_split (-1) 1000 i Hi).
    rewrite (unique_name_first_free data (ni_name b) max_length _ _ i Hname); [reflexivity| |exact Hfree].
    intros j Hj. apply PyFacts.range_elem in Hj. now apply Hbefore.
  - intros Hall.
    rewrite (unique_name_none data (ni_name b) max_length _ Hname); [reflexivity|].
    intros j Hj. apply PyFacts.range_elem in Hj. now apply Hall.
  - intros shortName st' H.
    destruct (unique_name data (ni_name b) max_length (Py.range (-1) 1000)) as [n|] eqn:E;
      [|discriminate].
    injection H as <- <-. exact (unique_name_free data _ _ _ _ Hname E).
Qed.

(** A mesh block named [Scene Root], a second block of the same name,
    and Blender data that holds an object and a mesh of that name. *)
Lemma import_name_first_free_witness :
  (forall i, (-1 <= i < 1000)%Z ->
     not_in_use scene_data (short_name (ni_name scene_root) 256 i) = true ->
     (forall j, (-1 <= j < i)%Z ->
        not_in_use scene_data (short_name (ni_name scene_root) 256 j) = false) ->
     import_name scene_data no_names (Some scene_root) 256
     = inr (Some (short_name (ni_name scene_root) 256 i),
            {| dict_names := <[block_id scene_root := short_name (ni_name scene_root) 256 i]>
                               (dict_names no_names);
               dict_blocks := <[short_name (ni_name scene_root) 256 i := block_id scene_root]>
                                (dict_blocks no_names) |})) /\
  ((forall j, (-1 <= j < 1000)%Z ->
      not_in_use scene_data (short_name (ni_name scene_root) 256 j) = false) ->
   import_name scene_data no_names (Some scene_root) 256
   = inl (RuntimeError "Ran out of names.")) /\
  (forall shortName st',
     import_name scene_data no_names (Some scene_root) 256 = inr (Some shortName, st') ->
     not_in_use scene_data shortName = true).
Proof.
  apply (import_name_first_free scene_data no_names scene_root 256); reflexivity.
Defined.

Example import_name_computed :
  import_name scene_data no_names (Some scene_root) 256
  = inr (Some "Scene Root.00"%string, scene_root_named) /\
  (exists st', import_name scene_data no_names (Some scene_root) 4
               = inr (Some "Sce"%string, st')).
Proof. split; [vm_compute; reflexivity | eexists; vm_compute; reflexivity]. Qed.

(** X14.  [import_name] preserves existing names: once a block has been
    given a name, every later call for that block returns this name and
    leaves the dictionaries as they are, whatever has come into use in
    Blender since and whatever the length asked for. *)
Theorem import_name_is_kept (data : BlendData) (st st' : names) (b : NiObjectNET)
        (max_length : Z) (shortName : string) :
  import_name data st (Some b) max_length = inr (Some shortName, st') ->
  forall (data' : BlendData) (max_length' : Z),
    import_name data' st' (Some b) max_length' = inr (Some shortName, st').
Proof.
  unfold import_name. intros H data' max_length'.
  destruct (dict_names st !! block_id b) as [n|] eqn:Hb.
  - injection H as <- <-. now rewrite Hb.
  - destruct (unique_name data (ni_name b) max_length (Py.range (-1) 1000)) as [n|];
      [|discriminate].
    injection H as <- <-. cbn [dict_names]. now rewrite lookup_insert_eq.
Qed.

Lemma import_name_is_kept_witness :
  import_name {| objects := ["Scene Root.00"%string]; materials := []; meshes := [] |}
              scene_root_named (Some scene_root) 32
  = inr (Some "Scene Root.00"%string, scene_root_named).
Proof.
  apply (import_name_is_kept scene_data no_names scene_root_named scene_root 256).
  vm_compute. reflexivity.
Defined.

(** X15.  [import_name] compares a candidate with the names in
    [bpy.data] only, not with the names it has handed out: two blocks of
    the same name that are named one after the other, nothing being
    created in Blender in between, receive the same Blender name, and
    [dict_blocks] then maps this name to the second block alone. *)
Theorem import_name_twice (data : BlendData) (st st1 : names) (b1 b2 : NiObjectNET)
        (max_length : Z) (shortName : string) :
  block_id b1 <> block_id b2 ->
  ni_name b1 = ni_name b2 ->
  dict_names st !! block_id b1 = None ->
  dict_names st !! block_id b2 = None ->
  import_name data st (Some b1) max_length = inr (Some shortName, st1) ->
  exists st2,
    import_name data st1 (Some b2) max_length = inr (Some shortName, st2) /\
    dict_names st2 !! block_id b1 = Some shortName /\
    dict_names st2 !! block_id b2 = Some shortName /\
    dict_blocks st2 !! shortName = Some (block_id b2).
Proof.
  intros Hne Hname H1 H2 H. unfold import_name in *. rewrite H1 in H.
  destruct (unique_name data (ni_name b1) max_length (Py.range (-1) 1000)) as [n|] eqn:E;
    [|discriminate].
  injection H as <- <-. cbn [dict_names dict_blocks].
  rewrite lookup_insert_ne, H2 by exact Hne. rewrite <- Hname, E.
  eexists. split; [reflexivity|]. cbn [dict_names dict_blocks].
  rewrite lookup_insert_ne by (intros Heq; now apply Hne).
  rewrite !lookup_insert_eq. auto.
Qed.

Lemma import_name_twice_witness :
  exists st2,
    import_name scene_data scene_root_named (Some scene_root_twin) 256
    = inr (Some "Scene Root.00"%string, st2) /\
    dict_names st2 !! block_id scene_root = Some "Scene Root.00"%string /\
    dict_names st2 !! block_id scene_root_twin = Some "Scene Root.00"%string /\
    dict_blocks st2 !! "Scene Root.00"%string = Some (block_id scene_root_twin).
Proof.
  apply (import_name_twice scene_data no_names scene_root_named scene_root scene_root_twin 256);
    solve [discriminate | vm_compute; reflexivity].
Defined.

(** *** The second polygon loop of [import_mesh] *)

Lemma remap_lookup (v_map : list nat) (f t : list nat) (l vert_index : nat) :
  remap v_map f = inr t ->
  f !! l = Some vert_index ->
  exists b, v_map !! vert_index = Some b /\ t !! l = Some b.
Proof.
  revert t l. induction f as [|vi f IH]; intros t l H Hl; [discriminate Hl|].
  simpl in H. unfold item in H.
  destruct (v_map !! vi) as [b|] eqn:Hb; simpl in H; [|discriminate].
  destruct (remap v_map f) as [e|bs]; simpl in H; [discriminate|].
  injection H as <-.
  destruct l as [|l]; simpl in Hl.
  - injection Hl as <-. exists b. split; [exact Hb | reflexivity].
  - exact (IH bs l eq_refl Hl).
Qed.

(** The [while] loop writes the loop points one after the other from
    [l + bl_index] on and nothing else. *)
Lemma set_loops_written (bl_index : nat) (lp_points : list nat) :
  forall (l : nat) (m : Mesh),
    l + bl_index + length lp_points <= length (loops m) ->
    exists m',
      set_loops bl_index l lp_points m = inr m' /\
      polygons m' = polygons m /\
      length (loops m') = length (loops m) /\
      (forall j b, lp_points !! j = Some b ->
                   loops m' !! (l + j + bl_index) = Some {| vertex_index := b |}) /\
      (forall q, q < l + bl_index \/ l + bl_index + length lp_points <= q ->
                 loops m' !! q = loops m !! q).
Proof.
  induction lp_points as [|b rest IH]; intros l m Hlen.
  - exists m. split; [reflexivity|]. split; [reflexivity|]. split; [reflexivity|].
    split; [|reflexivity]. intros j b H. discriminate H.
  - simpl in Hlen. simpl. unfold set_loop, item.
    destruct (lookup_lt_is_Some_2 (loops m) (l + bl_index) ltac:(lia)) as [old Hold].
    rewrite Hold. simpl.
    destruct (IH (S l) {| polygons := polygons m;
                          loops := <[l + bl_index := {| vertex_index := b |}]> (loops m) |})
      as (m' & Hrun & Hpolys & Hloops & Hset & Hkept).
    { simpl. rewrite length_insert. lia. }
    simpl in *. rewrite length_insert in Hloops.
    exists m'. split; [exact Hrun|]. split; [exact Hpolys|]. split; [exact Hloops|].
    split.
    + intros j b' Hj. destruct j as [|j]; simpl in Hj.
      * injection Hj as <-. rewrite Hkept by lia.
        replace (l + 0 + bl_index) with (l + bl_index) by lia.
        apply list_lookup_insert_eq. lia.
      * replace (l + S j + bl_index) with (S (l + j + bl_index)) by lia.
        exact (Hset j b' Hj).
    + intros q Hq. rewrite Hkept by lia.
      apply list_lookup_insert_ne. lia.
Qed.

(** [rank], one source polygon further. *)
Lemma rank_emitted (f_map : list (option nat)) (i b : nat) :
  f_map !! i = Some (Some b) -> rank f_map (S i) = S (rank f_map i).
Proof.
  intros H. unfold rank. rewrite (take_S_r _ _ _ H), omap_app, length_app.
  simpl. lia.
Qed.

Lemma rank_dropped (f_map : list (option nat)) (i : nat) :
  f_map !! i = Some None -> rank f_map (S i) = rank f_map i.
Proof.
  intros H. unfold rank. rewrite (take_S_r _ _ _ H), omap_app, length_app.
  simpl. lia.
Qed.

Lemma rank_le (f_map : list (option nat)) (i : nat) : rank f_map i <= i.
Proof.
  unfold rank. etransitivity; [apply omap_length_le|]. rewrite length_take. lia.
Qed.

Lemma rank_mono (f_map : list (option nat)) (i j : nat) :
  i <= j -> rank f_map i <= rank f_map j.
Proof.
  intros Hij. unfold rank.
  rewrite <- (take_drop i (take j f_map)), take_take, omap_app, length_app.
  replace (i `min` j) with i by lia. lia.
Qed.

Lemma rank_all (f_map : list (option nat)) (i : nat) :
  length f_map <= i -> rank f_map i = length (omap id f_map).
Proof. intros H. unfold rank. now rewrite take_ge. Qed.

(** Nothing is counted where [f_map] holds [None] only. *)
Lemma rank_ahead (f_map : list (option nat)) (i : nat) :
  (forall j, i <= j -> j < length f_map -> f_map !! j = Some None) ->
  rank f_map i = length (omap id f_map).
Proof.
  intros Hnone. unfold rank.
  rewrite <- (take_drop i f_map) at 2. rewrite omap_app, length_app.
  assert (omap id (drop i f_map) = []) as ->; [|simpl; lia].
  assert (Hall : Forall (fun e => e = None) (drop i f_map)).
  { apply Forall_lookup. intros j e Hj. rewrite lookup_drop in Hj.
    assert (Hlt : i + j < length f_map) by (now apply lookup_lt_Some in Hj).
    rewrite (Hnone (i + j)) in Hj by lia. now injection Hj as <-. }
  induction Hall as [|e l -> _ IH]; [reflexivity | exact IH].
Qed.

(** One round of the first loop hands out the next index. *)
Lemma import_face_ranked (v_map : list nat) (bf2_index poly_count : nat)
      (done : list (list nat)) (st st' : face_state) (f : list nat) :
  faces_invariant bf2_index poly_count done st ->
  ranked bf2_index st ->
  length done < poly_count ->
  import_face v_map st (length done) f = inr st' ->
  ranked bf2_index st'.
Proof.
  intros Inv Hrank Hdone Hrun. unfold import_face in Hrun.
  destruct (remap v_map f) as [e|t]; simpl in Hrun; [discriminate|].
  destruct (bool_decide (t ∈ unique_faces st)).
  { injection Hrun as <-. exact Hrank. }
  injection Hrun as <-. intros i b. simpl.
  assert (Hlen : length done < length (f_map st))
    by (rewrite (f_map_length _ _ _ _ Inv); exact Hdone).
  destruct (Nat.lt_trichotomy i (length done)) as [Hlt|[->|Hgt]].
  - rewrite list_lookup_insert_ne by lia. intros Hi.
    unfold rank. rewrite take_insert_ge by lia. exact (Hrank i b Hi).
  - rewrite list_lookup_insert_eq by exact Hlen. intros Hb. injection Hb as <-.
    unfold rank. rewrite take_insert_ge by lia.
    rewrite (index_unique _ _ _ _ Inv), <- (f_map_emitted _ _ _ _ Inv).
    f_equal. symmetry. apply rank_ahead.
    intros j Hj Hj'. apply (f_map_ahead _ _ _ _ Inv); [exact Hj|].
    now rewrite <- (f_map_length _ _ _ _ Inv).
  - rewrite list_lookup_insert_ne by lia. intros Hi.
    destruct (decide (i < poly_count)) as [Hin|Hout].
    + rewrite (f_map_ahead _ _ _ _ Inv i) in Hi by lia. discriminate Hi.
    + apply lookup_lt_Some in Hi. rewrite (f_map_length _ _ _ _ Inv) in Hi. lia.
Qed.

(** The first loop as a whole, with the order of the indices. *)
Lemma import_faces_ranked (v_map : list nat) (bf2_index poly_count : nat)
      (poly_gens : list (list nat)) :
  forall (ts done : list (list nat)) (st : face_state),
    Forall2 (fun f t => remap v_map f = inr t) poly_gens ts ->
    Forall (fun f => length f = 3) poly_gens ->
    faces_invariant bf2_index poly_count done st ->
    ranked bf2_index st ->
    length done + length poly_gens <= poly_count ->
    exists st',
      import_faces_from v_map (length done) poly_gens st = inr st' /\
      faces_invariant bf2_index poly_count (done ++ ts) st' /\
      ranked bf2_index st'.
Proof.
  induction poly_gens as [|f poly_gens IH]; intros ts done st Hts Htri Inv Hrank Hn.
  - inversion Hts; subst. exists st. rewrite app_nil_r. now split.
  - inversion Hts as [|? t ? ts' Ht Hts']; subst.
    inversion Htri as [|? ? Hf Htri']; subst.
    simpl in Hn.
    destruct (import_face_invariant v_map bf2_index poly_count done st f t Inv Ht Hf)
      as (st1 & Hrun1 & Inv1); [lia|].
    assert (Hrank1 : ranked bf2_index st1).
    { apply (import_face_ranked v_map bf2_index poly_count done st st1 f); auto. lia. }
    destruct (IH ts' (done ++ [t]) st1 Hts' Htri' Inv1 Hrank1) as (st2 & Hrun2 & Inv2 & Hrank2).
    { rewrite length_app. simpl. lia. }
    exists st2. simpl. rewrite Hrun1. simpl.
    rewrite length_app in Hrun2. simpl in Hrun2.
    replace (S (length done)) with (length done + 1) by lia.
    rewrite Hrun2. split; [reflexivity|].
    rewrite <- app_assoc in Inv2. now split.
Qed.

(** The mesh as the second loop finds it. *)
Lemma filled_start (v_map : list nat) (poly_gens : list (list nat)) (b_mesh : Mesh) :
  filled v_map poly_gens b_mesh
    (loops_add (length poly_gens * 3) (polygons_add (length poly_gens) b_mesh)) 0.
Proof.
  split; simpl.
  - now rewrite length_app, length_replicate.
  - now rewrite length_app, length_replicate.
  - intros p Hp. now apply lookup_app_l.
  - intros q Hq. now apply lookup_app_l.
  - intros k Hk. lia.
  - intros k f l vert_index Hk. lia.
  - intros k Hk. rewrite lookup_app_r by lia. apply lookup_replicate. split; [reflexivity|lia].
  - intros q Hq. rewrite lookup_app_r by lia. apply lookup_replicate. split; [reflexivity|lia].
Qed.

(** The rounds [i, i + 1, ...] of the second loop: each polygon that has
    an index fills the next polygon of the mesh, from the source polygon
    of that number. *)
Lemma fill_polygons_filled (v_map : list nat) (poly_gens ts : list (list nat))
      (st : face_state) (b_mesh : Mesh) :
  Forall2 (fun f t => remap v_map f = inr t) poly_gens ts ->
  Forall (fun f => length f = 3) poly_gens ->
  faces_invariant (length (polygons b_mesh)) (length poly_gens) ts st ->
  ranked (length (polygons b_mesh)) st ->
  forall (rounds i : nat) (m : Mesh) (bl_index : nat),
    i + rounds <= length (unique_faces st) ->
    bl_index = length (loops b_mesh) + 3 * rank (f_map st) i ->
    filled v_map poly_gens b_mesh m (rank (f_map st) i) ->
    exists acc,
      fill_polygons v_map poly_gens st
        (map (fun n => n * 3 + length (loops b_mesh)) (seq 0 (length (unique_faces st))))
        (length (polygons b_mesh)) (m, bl_index) (seq i rounds) = inr acc /\
      filled v_map poly_gens b_mesh (fst acc) (rank (f_map st) (i + rounds)).
Proof.
  intros Hts Htri Inv Hrank.
  assert (Hun : length (unique_faces st) <= length poly_gens).
  { rewrite <- (f_map_emitted _ _ _ _ Inv), <- (f_map_length _ _ _ _ Inv).
    apply omap_length_le. }
  induction rounds as [|rounds IH]; intros i m bl_index Hi Hbl Hm.
  { exists (m, bl_index). rewrite Nat.add_0_r. now split. }
  simpl. unfold item at 1.
  destruct (lookup_lt_is_Some_2 (f_map st) i) as [entry Hentry].
  { rewrite (f_map_length _ _ _ _ Inv). lia. }
  rewrite Hentry. simpl.
  replace (i + S rounds) with (S i + rounds) by lia.
  destruct entry as [b|]; simpl.
  2:{ apply IH; [lia| |]; rewrite (rank_dropped _ _ Hentry); assumption. }
  pose proof (f_map_range _ _ _ _ Inv i b Hentry) as Hb.
  pose proof (Hrank i b Hentry) as Hbk.
  set (k := rank (f_map st) i) in *.
  assert (b - length (polygons b_mesh) = k) as -> by lia.
  assert (Hk : k < length (unique_faces st)) by lia.
  unfold item at 1.
  change (map ?g ?l) with (g <$> l).
  rewrite list_lookup_fmap, lookup_seq_lt by exact Hk. simpl.
  unfold item at 1.
  destruct (lookup_lt_is_Some_2 (unique_faces st) k Hk) as [face Hface].
  rewrite Hface. simpl.
  assert (Hface3 : length face = 3).
  { assert (Hin : face ∈ ts).
    { apply (unique_done _ _ _ _ Inv). eapply list_elem_of_lookup_2, Hface. }
    apply list_elem_of_lookup_1 in Hin as (j & Hj).
    destruct (Forall2_lookup_r _ _ _ _ _ Hts Hj) as (g & Hg & Hremap).
    rewrite (remap_length _ _ _ Hremap).
    exact (Forall_lookup_1 _ _ _ _ Htri Hg). }
  rewrite Hface3.
  unfold set_polygon, item at 1.
  destruct (lookup_lt_is_Some_2 (polygons m) b) as [old Hold].
  { rewrite (polygons_length _ _ _ _ _ Hm). lia. }
  rewrite Hold. simpl. unfold item.
  destruct (lookup_lt_is_Some_2 poly_gens k ltac:(lia)) as [poly Hpoly].
  rewrite Hpoly. simpl.
  destruct (Forall2_lookup_l _ _ _ _ _ Hts Hpoly) as (lp_points & _ & Hremap).
  rewrite Hremap. simpl.
  pose proof (Forall_lookup_1 _ _ _ _ Htri Hpoly) as Hthree. simpl in Hthree.
  pose proof (remap_length _ _ _ Hremap) as Hpts. rewrite Hthree in Hpts.
  destruct (set_loops_written bl_index lp_points 0
              {| polygons := <[b := {| loop_start := k * 3 + length (loops b_mesh);
                                       loop_total := 3 |}]> (polygons m);
                 loops := loops m |})
    as (m' & Hrun & Hpolys' & Hloops' & Hset & Hkept).
  { simpl. rewrite (loops_length _ _ _ _ _ Hm). lia. }
  rewrite Hrun. simpl. simpl in Hpolys', Hloops', Hkept.
  apply IH; [lia | rewrite (rank_emitted _ _ _ Hentry); fold k; lia |].
  rewrite (rank_emitted _ _ _ Hentry). fold k.
  split; rewrite ?Hpolys', ?Hloops'.
  - rewrite length_insert. apply Hm.
  - apply Hm.
  - intros p Hp. rewrite list_lookup_insert_ne by lia. now apply Hm.
  - intros q Hq. rewrite Hkept by lia. now apply Hm.
  - intros k' Hk'. destruct (decide (k' = k)) as [->|Hne].
    + rewrite <- Hbk.
      rewrite list_lookup_insert_eq by (rewrite (polygons_length _ _ _ _ _ Hm); lia).
      do 2 f_equal. lia.
    + rewrite list_lookup_insert_ne by lia. apply Hm. lia.
  - intros k' f l vert_index Hk' Hf Hl.
    assert (Hl3 : l < 3).
    { apply lookup_lt_Some in Hl.
      rewrite (Forall_lookup_1 _ _ _ _ Htri Hf) in Hl. exact Hl. }
    destruct (decide (k' = k)) as [->|Hne].
    + assert (f = poly) as -> by congruence.
      destruct (remap_lookup _ _ _ _ _ Hremap Hl) as (v & Hv & Hlp).
      exists v. split; [exact Hv|].
      rewrite <- (Hset l v Hlp). f_equal. lia.
    + rewrite Hkept by lia.
      apply (loops_filled _ _ _ _ _ Hm k' f l vert_index); [lia | exact Hf | exact Hl].
  - intros k' Hk'. rewrite list_lookup_insert_ne by lia. apply Hm. lia.
  - intros q Hq. rewrite Hkept by lia. apply Hm. lia.
Qed.

Lemma rank_step_le (f_map : list (option nat)) (i j : nat) :
  i <= j -> rank f_map j <= rank f_map i + (j - i).
Proof.
  intros Hij. unfold rank.
  rewrite <- (take_drop i (take j f_map)), take_take, omap_app, length_app.
  replace (i `min` j) with i by lia.
  pose proof (omap_length_le (drop i (take j f_map))) as Hle.
  rewrite length_drop, length_take in Hle. lia.
Qed.

(** A polygon without index among the first [i] keeps [rank] below [i]. *)
Lemma rank_below (f_map : list (option nat)) (i j : nat) :
  j < i -> f_map !! j = Some None -> rank f_map i < i.
Proof.
  intros Hj Hnone.
  pose proof (rank_step_le f_map (S j) i ltac:(lia)) as Hstep.
  rewrite (rank_dropped _ _ Hnone) in Hstep.
  pose proof (rank_le f_map j). lia.
Qed.

Lemma rank_full (f_map : list (option nat)) (i : nat) :
  (forall j, j < i -> exists b, f_map !! j = Some (Some b)) ->
  rank f_map i = i.
Proof.
  induction i as [|i IH]; intros Hsome; [reflexivity|].
  destruct (Hsome i ltac:(lia)) as (b & Hb).
  rewrite (rank_emitted _ _ _ Hb), IH; [reflexivity|].
  intros j Hj. apply Hsome. lia.
Qed.

(** The polygons without index are those that repeat an earlier one. *)
Lemma f_map_repeats (v_map : list nat) (bf2_index : nat)
      (poly_gens ts : list (list nat)) (st : face_state) (i : nat) :
  Forall2 (fun f t => remap v_map f = inr t) poly_gens ts ->
  faces_invariant bf2_index (length poly_gens) ts st ->
  i < length poly_gens ->
  f_map st !! i = Some None <-> repeats v_map poly_gens i.
Proof.
  intros Hts Inv Hi.
  pose proof (Forall2_length _ _ _ Hts) as Hlen.
  destruct (lookup_lt_is_Some_2 ts i ltac:(lia)) as [t Ht].
  rewrite (f_map_dropped _ _ _ _ Inv i t Ht).
  rewrite (repeats_lookup v_map poly_gens ts i Hts), elem_of_take.
  split.
  - intros (j & Hj & Hlt). exists j, t. auto.
  - intros (j & t' & Hlt & Hi' & Hj). exists j. split; [congruence | exact Hlt].
Qed.

(** The polygon part of [import_mesh] on triangles in range: what the
    two loops leave. *)
Lemma import_polygons_filled (v_map : list nat) (b_mesh : Mesh)
      (poly_gens : list (list nat)) :
  poly_gens <> [] ->
  Forall (fun f => length f = 3 /\ Forall (fun vi => vi < length v_map) f) poly_gens ->
  exists r ts st,
    import_polygons v_map b_mesh poly_gens = inr r /\
    Forall2 (fun f t => remap v_map f = inr t) poly_gens ts /\
    faces_invariant (length (polygons b_mesh)) (length poly_gens) ts st /\
    ranked (length (polygons b_mesh)) st /\
    face_map r = f_map st /\
    faces r = unique_faces st /\
    filled v_map poly_gens b_mesh (mesh r) (rank (face_map r) (length (faces r))).
Proof.
  intros Hne Hwf.
  destruct (remap_all v_map poly_gens Hwf) as (ts & Hts).
  assert (Htri : Forall (fun f => length f = 3) poly_gens).
  { apply Forall_and in Hwf. apply Hwf. }
  pose proof (Forall2_length _ _ _ Hts) as Hlen.
  destruct (import_faces_ranked v_map (length (polygons b_mesh)) (length poly_gens)
              poly_gens ts [] _ Hts Htri
              (faces_invariant_start (length (polygons b_mesh)) (length poly_gens)))
    as (st & Hrun & Inv & Hrank); [|simpl; lia|].
  { intros i b Hi. apply lookup_replicate in Hi as [Hi _]. discriminate Hi. }
  simpl in Hrun, Inv.
  assert (Hts_ne : ts <> []).
  { intros ->. destruct poly_gens; [now apply Hne | discriminate Hlen]. }
  assert (Hstarts : loop_starts st (length (loops b_mesh))
                    = inr (map (fun n => n * 3 + length (loops b_mesh))
                             (seq 0 (length (unique_faces st))))).
  { unfold loop_starts. rewrite (ls_list_bound _ _ _ _ Inv Hts_ne). simpl.
    pose proof (tri_points_first _ _ _ _ Inv Hts_ne) as Hfirst.
    pose proof (tri_points _ _ _ _ Inv) as Hthree.
    destruct (tri_point_list st) as [|t0 rest]; [now elim Hfirst|].
    inversion Hthree; subst. simpl. now rewrite (count_unique _ _ _ _ Inv). }
  destruct (fill_polygons_filled v_map poly_gens ts st b_mesh Hts Htri Inv Hrank
              (length (unique_faces st)) 0
              (loops_add (length poly_gens * 3) (polygons_add (length poly_gens) b_mesh))
              (length (loops b_mesh)))
    as (acc & Hfill & Hacc).
  { lia. }
  { unfold rank. simpl. lia. }
  { apply filled_start. }
  eexists _, ts, st. split.
  { unfold import_polygons. rewrite Hrun. simpl. rewrite Hstarts. simpl.
    rewrite Hfill. simpl. reflexivity. }
  simpl. split; [exact Hts|]. split; [exact Inv|]. split; [exact Hrank|].
  split; [reflexivity|]. split; [reflexivity|]. exact Hacc.
Qed.

(** X22.  When no source polygon repeats the remapped tuple of an
    earlier one, the polygon part of [import_mesh] on triangles in range
    keeps the polygons and loops the mesh had and gives source polygon [i]
    the polygon [len(b_mesh.polygons) + i], with [loop_total] 3 and
    [loop_start] [len(b_mesh.loops) + 3 * i]; the three loops from there
    on hold the Blender vertices [v_map] gives for the corners of the
    source polygon, in their order. *)
Theorem polygons_laid_out (v_map : list nat) (b_mesh : Mesh)
        (poly_gens : list (list nat)) :
  poly_gens <> [] ->
  Forall (fun f => length f = 3 /\ Forall (fun vi => vi < length v_map) f) poly_gens ->
  (forall i, ~ repeats v_map poly_gens i) ->
  exists r,
    import_polygons v_map b_mesh poly_gens = inr r /\
    length (polygons (mesh r)) = length (polygons b_mesh) + length poly_gens /\
    length (loops (mesh r)) = length (loops b_mesh) + length poly_gens * 3 /\
    (forall p, p < length (polygons b_mesh) ->
               polygons (mesh r) !! p = polygons b_mesh !! p) /\
    (forall q, q < length (loops b_mesh) -> loops (mesh r) !! q = loops b_mesh !! q) /\
    (forall i f, poly_gens !! i = Some f ->
       face_map r !! i = Some (Some (length (polygons b_mesh) + i)) /\
       polygons (mesh r) !! (length (polygons b_mesh) + i)
       = Some {| loop_start := length (loops b_mesh) + 3 * i; loop_total := 3 |} /\
       (forall l vert_index, f !! l = Some vert_index ->
          exists b, v_map !! vert_index = Some b /\
                    loops (mesh r) !! (length (loops b_mesh) + 3 * i + l)
                    = Some {| vertex_index := b |})).
Proof.
  intros Hne Hwf Hnorep.
  destruct (import_polygons_filled v_map b_mesh poly_gens Hne Hwf)
    as (r & ts & st & Hrun & Hts & Inv & Hrank & Hmap & Hfaces & Hfilled).
  assert (Hsome : forall j, j < length poly_gens -> exists b, f_map st !! j = Some (Some b)).
  { intros j Hj.
    destruct (lookup_lt_is_Some_2 (f_map st) j) as [[b|] Hb].
    - now rewrite (f_map_length _ _ _ _ Inv).
    - now exists b.
    - elim (Hnorep j). now apply (f_map_repeats v_map _ poly_gens ts st j Hts Inv Hj). }
  assert (Hall : length (unique_faces st) = length poly_gens).
  { rewrite <- (f_map_emitted _ _ _ _ Inv).
    rewrite <- (rank_all (f_map st) (length poly_gens))
      by (now rewrite (f_map_length _ _ _ _ Inv)).
    now apply rank_full. }
  rewrite Hmap, Hfaces, Hall, (rank_full _ _ Hsome) in Hfilled.
  exists r. split; [exact Hrun|].
  split; [apply Hfilled|]. split; [apply Hfilled|].
  split; [apply Hfilled|]. split; [apply Hfilled|].
  intros i f Hf.
  assert (Hi : i < length poly_gens) by (now apply lookup_lt_Some in Hf).
  split; [|split].
  - destruct (Hsome i Hi) as (b & Hb). rewrite Hmap, Hb. do 2 f_equal.
    rewrite (Hrank i b Hb). f_equal. apply rank_full.
    intros j Hj. apply Hsome. lia.
  - now apply Hfilled.
  - intros l vert_index Hl.
    exact (loops_filled _ _ _ _ _ Hfilled i f l vert_index Hi Hf Hl).
Qed.

Lemma polygons_laid_out_witness :
  exists r,
    import_polygons [4; 5; 6; 7] {| polygons := [{| loop_start := 0; loop_total := 3 |}];
                                    loops := [{| vertex_index := 0 |};
                                              {| vertex_index := 1 |};
                                              {| vertex_index := 2 |}] |}
      [[0; 1; 2]; [2; 1; 3]] = inr r /\
    face_map r = [Some 1; Some 2] /\
    polygons (mesh r) !! 2 = Some {| loop_start := 6; loop_total := 3 |} /\
    vertex_index <$> loops (mesh r) = [0; 1; 2; 4; 5; 6; 6; 5; 7].
Proof.
  destruct (polygons_laid_out [4; 5; 6; 7]
              {| polygons := [{| loop_start := 0; loop_total := 3 |}];
                 loops := [{| vertex_index := 0 |}; {| vertex_index := 1 |};
                           {| vertex_index := 2 |}] |}
              [[0; 1; 2]; [2; 1; 3]])
    as (r & Hrun & _).
  - discriminate.
  - repeat constructor.
  - intros i (j & f & g & t & Hj & Hf & Hg & Hft & Hgt).
    destruct i as [|[|i]]; [lia| |discriminate Hf].
    destruct j as [|j]; [|lia].
    injection Hf as <-. injection Hg as <-. vm_compute in Hft, Hgt. congruence.
  - exists r. split; [exact Hrun|].
    vm_compute in Hrun. injection Hrun as <-. repeat split.
Defined.

(** X23.  The second loop of the polygon part of [import_mesh] runs over
    as many source polygons as polygons were emitted, not over all of
    them: a polygon whose source polygon comes later than that keeps the
    [loop_start] 0 and [loop_total] 0 it was created with.  There is such
    a polygon whenever a source polygon that repeats an earlier one is
    followed by one that does not. *)
Theorem late_polygons_left_empty (v_map : list nat) (b_mesh : Mesh)
        (poly_gens : list (list nat)) :
  poly_gens <> [] ->
  Forall (fun f => length f = 3 /\ Forall (fun vi => vi < length v_map) f) poly_gens ->
  exists r,
    import_polygons v_map b_mesh poly_gens = inr r /\
    (forall i b, face_map r !! i = Some (Some b) ->
                 length (faces r) <= i ->
                 polygons (mesh r) !! b = Some empty_polygon) /\
    (forall j i, repeats v_map poly_gens j ->
                 j < i -> i < length poly_gens ->
                 ~ repeats v_map poly_gens i ->
                 exists i' b, face_map r !! i' = Some (Some b) /\
                              length (faces r) <= i' /\
                              polygons (mesh r) !! b = Some empty_polygon).
Proof.
  intros Hne Hwf.
  destruct (import_polygons_filled v_map b_mesh poly_gens Hne Hwf)
    as (r & ts & st & Hrun & Hts & Inv & Hrank & Hmap & Hfaces & Hfilled).
  rewrite Hmap, Hfaces in Hfilled.
  assert (Hlate : forall i b, f_map st !! i = Some (Some b) ->
                              length (unique_faces st) <= i ->
                              polygons (mesh r) !! b = Some empty_polygon).
  { intros i b Hb Hi.
    pose proof (f_map_range _ _ _ _ Inv i b Hb) as Hrange.
    pose proof (rank_mono (f_map st) _ _ Hi) as Hmono.
    assert (Hun : length (unique_faces st) <= length poly_gens).
    { rewrite <- (f_map_emitted _ _ _ _ Inv), <- (f_map_length _ _ _ _ Inv).
      apply omap_length_le. }
    rewrite (Hrank i b Hb) in Hrange |- *.
    apply (polygons_empty _ _ _ _ _ Hfilled). lia. }
  exists r. split; [exact Hrun|]. rewrite Hmap, Hfaces. split; [exact Hlate|].
  intros j i Hj Hji Hi Hfresh.
  assert (Hjnone : f_map st !! j = Some None).
  { apply (f_map_repeats v_map _ poly_gens ts st j Hts Inv); [lia | exact Hj]. }
  destruct (decide (Forall (fun e => e = None) (drop (length (unique_faces st)) (f_map st))))
    as [Hnone|Hsome].
  - (* every index would lie among the first polygons: none of them repeats *)
    exfalso.
    assert (Hahead : forall k, length (unique_faces st) <= k -> k < length (f_map st) ->
                               f_map st !! k = Some None).
    { intros k Hk Hlen.
      destruct (lookup_lt_is_Some_2 _ _ Hlen) as [e He]. rewrite He. f_equal.
      apply (Forall_lookup_1 _ _ (k - length (unique_faces st)) e Hnone).
      rewrite lookup_drop. rewrite <- He. f_equal. lia. }
    pose proof (rank_ahead _ _ Hahead) as Hfull.
    rewrite (f_map_emitted _ _ _ _ Inv) in Hfull.
    destruct (decide (j < length (unique_faces st))) as [Hlt|Hge].
    + pose proof (rank_below _ _ _ Hlt Hjnone). lia.
    + apply Hfresh.
      apply (f_map_repeats v_map _ poly_gens ts st i Hts Inv Hi).
      apply Hahead; [lia|]. now rewrite (f_map_length _ _ _ _ Inv).
  - apply not_Forall_Exists in Hsome; [|intros e; apply _].
    apply Exists_exists in Hsome as (e & He & Hsome).
    apply list_elem_of_lookup_1 in He as (k & Hk). rewrite lookup_drop in Hk.
    destruct e as [b|]; [|now elim Hsome].
    exists (length (unique_faces st) + k), b.
    split; [exact Hk|]. split; [lia|]. apply (Hlate _ _ Hk). lia.
Qed.

Lemma late_polygons_left_empty_witness :
  exists r,
    import_polygons [0; 1; 2; 1] {| polygons := []; loops := [] |}
      [[0; 1; 2]; [0; 3; 2]; [2; 1; 0]] = inr r /\
    face_map r !! 2 = Some (Some 1) /\
    length (faces r) = 2 /\
    polygons (mesh r) !! 1 = Some empty_polygon.
Proof.
  destruct (late_polygons_left_empty [0; 1; 2; 1] {| polygons := []; loops := [] |}
              [[0; 1; 2]; [0; 3; 2]; [2; 1; 0]])
    as (r & Hrun & Hlate & _).
  - discriminate.
  - repeat constructor.
  - exists r. split; [exact Hrun|].
    assert (Hmap : face_map r !! 2 = Some (Some 1) /\ length (faces r) = 2).
    { vm_compute in Hrun. injection Hrun as <-. split; reflexivity. }
    destruct Hmap as (Hmap & Hlen).
    split; [exact Hmap|]. split; [exact Hlen|].
    apply (Hlate 2 1 Hmap). rewrite Hlen. lia.
Defined.

(** X24.  A polygon the second loop of [import_mesh] fills is filled
    from the source polygon whose number is the polygon's place among the
    emitted ones, not from the source polygon it was emitted for: for
    source polygon [i] with index [b] among the first [len(unique_faces)]
    source polygons, [b] is [len(b_mesh.polygons) + k] with [k] the number
    of polygons emitted before [i], and the three loops of polygon [b]
    hold the Blender vertices of source polygon [k].  [k] is less than [i]
    as soon as a source polygon before [i] repeats an earlier one. *)
Theorem polygon_filled_by_rank (v_map : list nat) (b_mesh : Mesh)
        (poly_gens : list (list nat)) :
  poly_gens <> [] ->
  Forall (fun f => length f = 3 /\ Forall (fun vi => vi < length v_map) f) poly_gens ->
  exists r,
    import_polygons v_map b_mesh poly_gens = inr r /\
    forall i b, face_map r !! i = Some (Some b) ->
                i < length (faces r) ->
      let k := rank (face_map r) i in
      b = length (polygons b_mesh) + k /\
      k <= i /\
      (forall j, j < i -> repeats v_map poly_gens j -> k < i) /\
      polygons (mesh r) !! b
      = Some {| loop_start := length (loops b_mesh) + 3 * k; loop_total := 3 |} /\
      (forall f l vert_index,
         poly_gens !! k = Some f -> f !! l = Some vert_index ->
         exists v, v_map !! vert_index = Some v /\
                   loops (mesh r) !! (length (loops b_mesh) + 3 * k + l)
                   = Some {| vertex_index := v |}).
Proof.
  intros Hne Hwf.
  destruct (import_polygons_filled v_map b_mesh poly_gens Hne Hwf)
    as (r & ts & st & Hrun & Hts & Inv & Hrank & Hmap & Hfaces & Hfilled).
  exists r. split; [exact Hrun|].
  rewrite Hmap, Hfaces in *. intros i b Hb Hi k.
  assert (Hk : k < rank (f_map st) (length (unique_faces st))).
  { pose proof (rank_mono (f_map st) (S i) _ Hi) as Hmono.
    rewrite (rank_emitted _ _ _ Hb) in Hmono. exact Hmono. }
  assert (Hun : length (unique_faces st) <= length poly_gens).
  { rewrite <- (f_map_emitted _ _ _ _ Inv), <- (f_map_length _ _ _ _ Inv).
    apply omap_length_le. }
  split; [exact (Hrank i b Hb)|].
  split; [apply rank_le|]. split; [|split].
  - intros j Hj Hrep. apply (rank_below _ _ j Hj).
    apply (f_map_repeats v_map _ poly_gens ts st j Hts Inv); [lia | exact Hrep].
  - rewrite (Hrank i b Hb). now apply Hfilled.
  - intros f l vert_index Hf Hl.
    exact (loops_filled _ _ _ _ _ Hfilled k f l vert_index Hk Hf Hl).
Qed.

Lemma polygon_filled_by_rank_witness :
  exists r,
    import_polygons [0; 1; 2; 1] {| polygons := []; loops := [] |}
      [[0; 1; 2]; [0; 3; 2]; [2; 1; 0]; [1; 0; 2]] = inr r /\
    face_map r = [Some 0; None; Some 1; Some 2] /\
    faces r = [[0; 1; 2]; [2; 1; 0]; [1; 0; 2]] /\
    rank (face_map r) 2 = 1 /\
    polygons (mesh r) !! 1 = Some {| loop_start := 3; loop_total := 3 |} /\
    vertex_index <$> loops (mesh r) = [0; 1; 2; 0; 1; 2; 0; 0; 0; 0; 0; 0].
Proof.
  destruct (polygon_filled_by_rank [0; 1; 2; 1] {| polygons := []; loops := [] |}
              [[0; 1; 2]; [0; 3; 2]; [2; 1; 0]; [1; 0; 2]])
    as (r & Hrun & Hfill).
  - discriminate.
  - repeat constructor.
  - exists r. split; [exact Hrun|].
    assert (Hr : face_map r = [Some 0; None; Some 1; Some 2] /\
                 faces r = [[0; 1; 2]; [2; 1; 0]; [1; 0; 2]] /\
                 vertex_index <$> loops (mesh r) = [0; 1; 2; 0; 1; 2; 0; 0; 0; 0; 0; 0]).
    { vm_compute in Hrun. injection Hrun as <-. repeat split. }
    destruct Hr as (Hmap & Hfaces & Hloops).
    split; [exact Hmap|]. split; [exact Hfaces|].
    destruct (Hfill 2 1) as (_ & _ & _ & Hpoly & _).
    + now rewrite Hmap.
    + rewrite Hfaces. simpl. lia.
    + rewrite Hmap in Hpoly |- *. split; [reflexivity|]. split; [exact Hpoly|exact Hloops].
Defined.

(** *** The vertices [import_mesh] creates *)

(** One round of the vertex loop, vertices combined or not. *)
Lemma import_vertex_position (combine_vertices applytransform : bool)
      (transform : Vector -> Vector) (n_norms old n_verts : list Vector)
      (ks : list (list Z)) (i : nat) (st : vertex_state) (v : Vector) (k : list Z) :
  positions_invariant (fun v => if applytransform then transform v else v)
    old n_verts ks i st ->
  n_verts !! i = Some v ->
  ks !! i = Some k ->
  vertex_key n_norms i v = inr k ->
  exists st',
    import_vertex combine_vertices applytransform transform n_norms st i v = inr st' /\
    positions_invariant (fun v => if applytransform then transform v else v)
      old n_verts ks (S i) st'.
Proof.
  intros Inv Hv Hk Hkey. unfold import_vertex. rewrite Hkey. simpl.
  assert (Hi : i < length (v_map st)).
  { rewrite (v_map_length _ _ _ _ _ _ Inv). now apply lookup_lt_Some in Hv. }
  destruct (not_ (lookup_key combine_vertices st k)) eqn:Hnot.
  - (* a new vertex *)
    eexists. split; [reflexivity|]. split; simpl.
    + rewrite length_insert. apply Inv.
    + rewrite length_app, (vertices_length _ _ _ _ _ _ Inv). simpl. lia.
    + rewrite take_app_le by apply Inv. apply Inv.
    + rewrite length_app. pose proof (vertices_grow _ _ _ _ _ _ Inv). lia.
    + intros k' idx. destruct (decide (k' = k)) as [->|Hne].
      * rewrite lookup_insert_eq. intros H. injection H as <-. split; [lia | exact Hk].
      * rewrite lookup_insert_ne by congruence. intros H.
        destruct (n_map_keys _ _ _ _ _ _ Inv k' idx H). split; [lia | assumption].
    + intros j Hj. destruct (decide (j = i)) as [->|Hne].
      * exists (b_v_index st), i, v.
        rewrite list_lookup_insert_eq by exact Hi.
        split; [reflexivity|]. split.
        { rewrite <- (vertices_length _ _ _ _ _ _ Inv). apply Inv. }
        split; [lia|]. split; [exact Hv|]. split; [reflexivity|].
        split; [reflexivity|].
        rewrite <- (vertices_length _ _ _ _ _ _ Inv).
        now rewrite list_lookup_middle.
      * destruct (vertex_position _ _ _ _ _ _ Inv j ltac:(lia))
          as (b & j' & w & Hb & Hold & Hj' & Hw & Hks & Hb' & Hco).
        exists b, j', w.
        rewrite !list_lookup_insert_ne by lia.
        repeat (split; [assumption|]).
        rewrite lookup_app_l; [exact Hco|]. now apply lookup_lt_Some in Hco.
  - (* a vertex that was added before *)
    apply not_fresh in Hnot as (m & Hidx). rewrite Hidx. simpl.
    assert (Hmap : n_map st !! k = Some (S m)).
    { unfold lookup_key in Hidx. destruct (negb combine_vertices); [discriminate | exact Hidx]. }
    destruct (n_map_keys _ _ _ _ _ _ Inv k (S m) Hmap) as [Hlt Hkm].
    destruct (vertex_position _ _ _ _ _ _ Inv (S m) Hlt)
      as (b & j' & w & Hb & Hold & Hj' & Hw & Hks & Hb' & Hco).
    unfold item. rewrite Hb. simpl.
    eexists. split; [reflexivity|]. split; simpl; try apply Inv.
    + rewrite length_insert. apply Inv.
    + intros k' idx H. destruct (n_map_keys _ _ _ _ _ _ Inv k' idx H).
      split; [lia | assumption].
    + intros j Hj. destruct (decide (j = i)) as [->|Hne].
      * exists b, j', w.
        rewrite list_lookup_insert_eq by exact Hi.
        rewrite list_lookup_insert_ne by lia.
        split; [reflexivity|]. split; [exact Hold|]. split; [lia|].
        split; [exact Hw|]. split; [congruence|]. split; [exact Hb' | exact Hco].
      * destruct (vertex_position _ _ _ _ _ _ Inv j ltac:(lia))
          as (b1 & j1 & w1 & Hb1 & Hold1 & Hj1 & Hw1 & Hks1 & Hb1' & Hco1).
        exists b1, j1, w1.
        rewrite !list_lookup_insert_ne by lia.
        repeat (split; [assumption|]). exact Hco1.
Qed.

(** The vertex loop as a whole. *)
Lemma import_vertices_positions (combine_vertices applytransform : bool)
      (transform : Vector -> Vector) (n_norms old n_verts : list Vector)
      (ks : list (list Z)) (rest : list Vector) :
  forall (i : nat) (st : vertex_state),
    positions_invariant (fun v => if applytransform then transform v else v)
      old n_verts ks i st ->
    (forall j v, rest !! j = Some v ->
                 n_verts !! (i + j) = Some v /\
                 exists k, ks !! (i + j) = Some k /\ vertex_key n_norms (i + j) v = inr k) ->
    exists st',
      import_vertices_from combine_vertices applytransform transform n_norms i rest st
      = inr st' /\
      positions_invariant (fun v => if applytransform then transform v else v)
        old n_verts ks (i + length rest) st'.
Proof.
  induction rest as [|v rest IH]; intros i st Inv Hkeys.
  - exists st. split; [reflexivity|]. simpl. now rewrite Nat.add_0_r.
  - destruct (Hkeys 0 v eq_refl) as (Hv & k & Hk & Hkey).
    rewrite Nat.add_0_r in Hv, Hk, Hkey.
    destruct (import_vertex_position combine_vertices applytransform transform
                n_norms old n_verts ks i st v k Inv Hv Hk Hkey) as (st1 & Hrun1 & Inv1).
    destruct (IH (S i) st1 Inv1) as (st2 & Hrun2 & Inv2).
    { intros j w Hw. specialize (Hkeys (S j) w Hw).
      now replace (S i + j) with (i + S j) by lia. }
    exists st2. simpl. rewrite Hrun1. simpl. split; [exact Hrun2|].
    now replace (i + S (length rest)) with (S i + length rest) by lia.
Qed.

(** X25.  Whether vertices are combined or not, when every vertex key
    can be computed the vertex loop of [import_mesh] returns, leaves the
    vertices the mesh had as they were, and maps every source vertex to a
    vertex that was added for a source vertex with the same key (itself
    or an earlier one) and holds the coordinates of that source vertex,
    multiplied by [transform] when [applytransform] is set. *)
Theorem vertex_positions (combine_vertices applytransform : bool)
        (transform : Vector -> Vector)
        (n_norms b_mesh_vertices n_verts : list Vector) (ks : list (list Z)) :
  vertex_keys n_norms n_verts ks ->
  exists st,
    import_vertices combine_vertices applytransform transform n_norms
      b_mesh_vertices n_verts = inr st /\
    length (vertices st) = b_v_index st /\
    take (length b_mesh_vertices) (vertices st) = b_mesh_vertices /\
    (forall i, i < length n_verts ->
       exists b j v,
         v_map st !! i = Some b /\ length b_mesh_vertices <= b /\
         j <= i /\ n_verts !! j = Some v /\ ks !! j = ks !! i /\
         v_map st !! j = Some b /\
         vertices st !! b = Some (if applytransform then transform v else v)).
Proof.
  intros [Hlen Hkeys]. unfold import_vertices.
  destruct (import_vertices_positions combine_vertices applytransform transform
              n_norms b_mesh_vertices n_verts ks n_verts 0
              {| n_map := ∅; v_map := seq 0 (length n_verts);
                 b_v_index := length b_mesh_vertices; vertices := b_mesh_vertices |})
    as (st & Hrun & Inv).
  - split; simpl; try reflexivity.
    + apply length_seq.
    + apply firstn_all.
    + intros k idx H. rewrite lookup_empty in H. discriminate H.
    + intros j Hj. lia.
  - intros j v Hv. split; [exact Hv|]. now apply Hkeys.
  - exists st. split; [exact Hrun|]. split; [apply Inv|]. split; [apply Inv|].
    intros i Hi. now apply (vertex_position _ _ _ _ _ _ Inv).
Qed.

Lemma near_vertices_keys :
  vertex_keys [] near_vertices
    [[1000; 2000; 3000]%Z; [1000; 2000; 3000]%Z; [1000; 2000; 3000]%Z].
Proof.
  split; [reflexivity|].
  intros [|[|[|i]]] v Hv; try discriminate Hv; injection Hv as <-;
    eexists; (split; [reflexivity | vm_compute; reflexivity]).
Qed.

Lemma vertex_positions_witness :
  exists st,
    import_vertices true false id [] [origin] near_vertices = inr st /\
    v_map st = [1; 2; 2] /\
    vertices st !! 2 = Some {| x := 1.0001; y := 2; z := 3 |}.
Proof.
  destruct (vertex_positions true false id [] [origin] near_vertices _ near_vertices_keys)
    as (st & Hrun & _).
  exists st. split; [exact Hrun|].
  vm_compute in Hrun. injection Hrun as <-. split; reflexivity.
Defined.

(** *** [set_parents] *)

(** Induction on the tree of blocks. *)
Lemma NiBlock_tree_ind (P : NiBlock -> Prop) :
  (forall b is_NiNode children,
      Forall (fun child => forall c, child = Some c -> P c) children ->
      P (Block b is_NiNode children)) ->
  forall niBlock, P niBlock.
Proof.
  intros Hblock. fix IH 1. intros [b is_NiNode children]. apply Hblock.
  induction children as [|[c|] children IHchildren]; constructor; try exact IHchildren.
  - intros c' Hc. injection Hc as <-. apply IH.
  - intros c' Hc. discriminate Hc.
Qed.

(** [set_parents] sets one [_parent] for each pair of [edges], in order. *)
Lemma set_parents_edges (niBlock : NiBlock) :
  forall parent,
    set_parents niBlock parent
    = foldl (fun parent e => <[e.1 := e.2]> parent) parent (edges niBlock).
Proof.
  induction niBlock as [b is_NiNode children IH] using NiBlock_tree_ind.
  intros parent. simpl. destruct is_NiNode; [|reflexivity].
  revert parent. induction IH as [|child children Hchild _ IHchildren]; intros parent.
  - reflexivity.
  - simpl. rewrite foldl_app. destruct child as [c|]; simpl.
    + rewrite IHchildren. now rewrite (Hchild c eq_refl).
    + apply IHchildren.
Qed.

(** The attributes after a run of assignments to distinct blocks. *)
Lemma foldl_insert_lookup (l : list (ArmatureImport.block * ArmatureImport.block)) :
  forall (parent : ArmatureImport.parents) c,
    NoDup l.*1 ->
    foldl (fun parent e => <[e.1 := e.2]> parent) parent l !! c
    = match list_find (fun e => e.1 = c) l with
      | Some (_, e) => Some e.2
      | None => parent !! c
      end.
Proof.
  induction l as [|[c' p'] l IH]; intros parent c Hnd; [reflexivity|].
  simpl in *. apply NoDup_cons in Hnd as [Hnew Hnd].
  rewrite (IH _ c Hnd). destruct (decide (c' = c)) as [->|Hne].
  - destruct (list_find (fun e => e.1 = c) l) as [[i e]|] eqn:Hfind.
    + apply list_find_Some in Hfind as (Hi & He & _).
      elim Hnew. rewrite <- He. apply list_elem_of_fmap. exists e.
      split; [reflexivity|]. now apply list_elem_of_lookup_2 in Hi.
    + simpl. now rewrite lookup_insert_eq.
  - destruct (list_find (fun e => e.1 = c) l) as [[i e]|] eqn:Hfind; simpl.
    + reflexivity.
    + now rewrite lookup_insert_ne.
Qed.

Lemma NoDup_fst_unique (l : list (ArmatureImport.block * ArmatureImport.block)) c p p' :
  NoDup l.*1 -> (c, p) ∈ l -> (c, p') ∈ l -> p = p'.
Proof.
  induction l as [|[c0 p0] l IH]; intros Hnd Hp Hp'; [inversion Hp|].
  simpl in Hnd. apply NoDup_cons in Hnd as [Hnew Hnd].
  assert (Hfst : forall q, (c0, q) ∈ l -> False).
  { intros q Hq. apply Hnew. apply list_elem_of_fmap. now exists (c0, q). }
  apply elem_of_cons in Hp as [Hp|Hp]; apply elem_of_cons in Hp' as [Hp'|Hp'].
  - congruence.
  - injection Hp as -> ->. now elim (Hfst p').
  - injection Hp' as -> ->. now elim (Hfst p).
  - now apply IH.
Qed.

(** The blocks below a child are among the blocks below its parent. *)
Lemma edges_child (b : ArmatureImport.block) (children : list (option NiBlock))
      (c : NiBlock) :
  Some c ∈ children ->
  (block_of c, b) ∈ edges (Block b true children) /\
  (forall e, e ∈ edges c -> e ∈ edges (Block b true children)).
Proof.
  intros Hc. simpl. split.
  - apply list_elem_of_In, in_flat_map. exists (Some c).
    split; [now apply list_elem_of_In | now left].
  - intros e He. apply list_elem_of_In, in_flat_map. exists (Some c).
    split; [now apply list_elem_of_In | right; now apply list_elem_of_In].
Qed.

Lemma edges_inv (b : ArmatureImport.block) (is_NiNode : bool)
      (children : list (option NiBlock)) e :
  e ∈ edges (Block b is_NiNode children) ->
  exists c, Some c ∈ children /\ (e = (block_of c, b) \/ e ∈ edges c).
Proof.
  simpl. destruct is_NiNode; [|intros H; inversion H].
  intros He. apply list_elem_of_In, in_flat_map in He as ([c|] & Hc & He); [|elim He].
  exists c. split; [now apply list_elem_of_In|].
  destruct He as [<-|He]; [now left | right; now apply list_elem_of_In].
Qed.

(** When the walk up the parents ends from a block, it ends from every
    block below it. *)
Lemma walk_ends_below (parent : ArmatureImport.parents) (skelroot : ArmatureImport.block)
      (niBlock : NiBlock) :
  (forall c p, (c, p) ∈ edges niBlock -> parent !! c = Some p) ->
  (exists k, ArmatureImport.ends_within parent skelroot (block_of niBlock) k) ->
  forall c p, (c, p) ∈ edges niBlock ->
              exists k, ArmatureImport.ends_within parent skelroot c k.
Proof.
  induction niBlock as [b is_NiNode children IH] using NiBlock_tree_ind.
  intros Hparent (k & Hk) c p Hc. simpl in Hk.
  assert (is_NiNode = true) as -> by (destruct is_NiNode; [reflexivity | inversion Hc]).
  destruct (edges_inv _ _ _ _ Hc) as (child & Hchild & Hcase).
  destruct (edges_child b children child Hchild) as [Hedge Hsub].
  assert (Hends : exists k', ArmatureImport.ends_within parent skelroot (block_of child) k').
  { destruct (decide (b = skelroot)) as [->|Hne].
    - exists 1. apply ArmatureImport.ends_root. now apply Hparent.
    - exists (S k). apply ArmatureImport.ends_step with b; [now apply Hparent | exact Hne | exact Hk]. }
  destruct Hcase as [Heq|Hin].
  - injection Heq as -> _. exact Hends.
  - rewrite Forall_forall in IH.
    apply (IH (Some child) Hchild child eq_refl) with p; auto.
Qed.

(** X26.  On a tree in which no block occurs twice, [set_parents] after
    [root_block._parent = None] leaves the root without parent and gives
    every other block it comes to the [NiNode] that lists it among its
    children as [_parent], and no block anything else; following
    [_parent] then ends from every block, so that [complete_bone_tree]
    comes to an end for every bone and skeleton root. *)
Theorem set_parents_tree (root_block : NiBlock) :
  NoDup (blocks root_block) ->
  import_root_parents root_block !! block_of root_block = None /\
  (forall c p, import_root_parents root_block !! c = Some p <->
               (c, p) ∈ edges root_block) /\
  (forall dict bone skelroot,
     ArmatureImport.terminates (import_root_parents root_block) dict bone skelroot).
Proof.
  unfold blocks. intros Hnd. apply NoDup_cons in Hnd as [Hroot Hnd].
  assert (Hlookup : forall c p, import_root_parents root_block !! c = Some p <->
                                (c, p) ∈ edges root_block).
  { intros c p. unfold import_root_parents.
    rewrite set_parents_edges, (foldl_insert_lookup _ _ _ Hnd).
    destruct (list_find (fun e => e.1 = c) (edges root_block)) as [[i e]|] eqn:Hfind.
    - apply list_find_Some in Hfind as (Hi & He & _).
      apply list_elem_of_lookup_2 in Hi. destruct e as [c' p']. simpl in He. subst c'.
      simpl. split.
      + intros H. injection H as <-. exact Hi.
      + intros H. f_equal. exact (NoDup_fst_unique _ c p' p Hnd Hi H).
    - rewrite lookup_empty. split; [discriminate|].
      intros H. apply list_find_None in Hfind. rewrite Forall_forall in Hfind.
      now elim (Hfind (c, p) H). }
  assert (Hnone : import_root_parents root_block !! block_of root_block = None).
  { destruct (import_root_parents root_block !! block_of root_block) as [p|] eqn:Hp;
      [|reflexivity].
    apply Hlookup in Hp. elim Hroot. apply list_elem_of_fmap. now exists (block_of root_block, p). }
  split; [exact Hnone|]. split; [exact Hlookup|].
  intros dict bone skelroot.
  assert (Hends : exists k, ArmatureImport.ends_within (import_root_parents root_block)
                              skelroot bone k).
  { destruct (import_root_parents root_block !! bone) as [p|] eqn:Hp.
    - apply (walk_ends_below _ skelroot root_block) with p.
      + intros c q. apply Hlookup.
      + exists 1. now apply ArmatureImport.ends_orphan.
      + now apply Hlookup.
    - exists 1. now apply ArmatureImport.ends_orphan. }
  destruct Hends as (k & Hk). exists k.
  now apply (ArmatureImportFacts.complete_bone_tree_ends _ skelroot bone k).
Qed.

Lemma set_parents_tree_witness :
  import_root_parents sample_tree !! 1 = None /\
  import_root_parents sample_tree !! 3 = Some 2 /\
  ArmatureImport.terminates (import_root_parents sample_tree) {[ 1 := [3] ]} 3 1.
Proof.
  destruct (set_parents_tree sample_tree) as (Hroot & Hparent & Hends).
  - apply (bool_decide_eq_true_1 (NoDup (blocks sample_tree))). vm_compute. reflexivity.
  - split; [exact Hroot|]. split; [|apply Hends].
    apply Hparent.
    apply (bool_decide_eq_true_1 ((3, 2) ∈ edges sample_tree)). vm_compute. reflexivity.
Defined.

(** *** The polygons the mesh receives *)



End NifImportFacts.
(** ** [armaturesys/armature_import.py]: [decompose_srt] *)

Module TransformMathFacts.

Import Reals.
Import TransformMath.
Local Open Scope R_scope.

(** *** [decompose_srt] *)

Lemma ge_false (a b : R) : a < b -> ge a b = false.
Proof. intros H. unfold ge. destruct (Rle_dec b a); [lra | reflexivity]. Qed.

(** C5.  Let [decompose] split the transform composed from a scale
    [s >= 0], a rotation [r] and a translation [t] into [t], a quaternion
    whose matrix is [r], and the scale vector [(s, s, s)], as
    [Matrix.decompose()] does.  Then [decompose_srt] returns the square
    root of [s] as scale and [r] multiplied by that square root as
    rotation, not [(s, r, t)]; the translation is [t] and no warning is
    issued. *)
Theorem decompose_srt_of_composed
        (decompose : Matrix4 -> Vector * Quaternion * Vector)
        (to_matrix : Quaternion -> Matrix) (epsilon : R)
        (s : R) (r : Matrix) (t : Vector) (q : Quaternion) :
  0 <= s -> 0 <= determinant r -> 0 < epsilon ->
  decompose (compose_srt s r t) = (t, q, {| vx := s; vy := s; vz := s |}) ->
  to_matrix q = r ->
  decompose_srt decompose to_matrix epsilon (compose_srt s r t)
  = inr (sqrt s, scaled r (sqrt s), t, false).
Proof.
  intros Hs Hdet Heps Hdec Hq. unfold decompose_srt. rewrite Hdec. simpl.
  rewrite Hq. unfold pow_half.
  destruct (Rlt_dec s 0) as [H|_]; [lra|].
  destruct (Rlt_dec (determinant r) 0) as [H|_]; [lra|]. simpl.
  replace (s - s) with 0 by ring. rewrite Rabs_R0.
  now rewrite (ge_false 0 epsilon Heps).
Qed.

Lemma sqrt_4 : sqrt 4 = 2.
Proof. replace 4 with (2 * 2) by ring. apply sqrt_square. lra. Qed.

(** Scale 4, no rotation, no translation: the scale that comes back is 2
    and the matrix that comes back is twice the unit matrix. *)
Lemma decompose_srt_of_composed_witness :
  decompose_srt decompose_diagonal unit_to_matrix (1 / 10000)
    (compose_srt 4 identity origin)
  = inr (2, scaled identity 2, origin, false)
  /\ 2 <> 4 /\ m00 (scaled identity 2) <> m00 identity.
Proof.
  split; [|split; [lra | simpl; lra]].
  rewrite (decompose_srt_of_composed decompose_diagonal unit_to_matrix (1 / 10000)
             4 identity origin {| qw := 1; qx := 0; qy := 0; qz := 0 |}).
  - now rewrite sqrt_4.
  - lra.
  - unfold determinant, identity. simpl. lra.
  - lra.
  - unfold decompose_diagonal, compose_srt. simpl. repeat f_equal; ring.
  - reflexivity.
Defined.

(** *** [decompose_srt] on any transform *)




End TransformMathFacts.
